(** * chess-fun: the board of [board.py], embedded and verified

    [board.py] defines the class [Board]: an 8x8 numpy grid of piece slots, a
    dictionary from positions to the live pieces, the two king references and
    the en-passant record, with the operations [__setitem__], [remove],
    [destroy], [move], [get_danger_zone], [get_attackers], [legal_moves],
    [put_piece] and [place_king].

    Pieces are Python objects: they have an identity and mutable
    attributes. They live in an explicit store, and the board holds
    references into it. An exception leaves the store and the board as they
    were when it was raised, so every operation returns an outcome together
    with the state it leaves behind.

    The modules [pieces] and [misc] are not part of the embedded source; what
    [board.py] calls from them is an interface ([Misc], [Pieces]) over which
    the theorems are stated. A concrete instance of both, following the
    written specification, is used to run the code on concrete boards. *)

From Stdlib Require Import ZArith Lia Ascii.
From stdpp Require Import gmap list.

Open Scope Z_scope.

(** ** Data model *)

Inductive Kind := Pawn | Knight | Bishop | Rook | Queen | King.
Inductive Team := White | Black.

#[global] Instance Kind_eq_dec : EqDecision Kind.
Proof. solve_decision. Defined.
#[global] Instance Team_eq_dec : EqDecision Team.
Proof. solve_decision. Defined.

(** [~team] *)
Definition team_inv (t : Team) : Team :=
  match t with White => Black | Black => White end.

(** A position is a pair of integers (column, row). *)
Abbreviation Position := (Z * Z)%type.
Abbreviation PosSet := (gset (Z * Z)).

Definition on_board (p : Position) : Prop :=
  0 <= p.1 < 8 /\ 0 <= p.2 < 8.

#[global] Instance on_board_dec p : Decision (on_board p).
Proof. unfold on_board. apply _. Defined.

(** Object identity: a reference into the store of piece objects. *)
Abbreviation ref := nat.

(** A piece object. [move_set] is subscripted by a position and yields an
    iterable of positions ([None]: the subscript raises [KeyError]). *)
Record Piece := mkPiece {
  kind : Kind;
  team : Team;
  position : Position;
  alive : bool;
  move_set : Position -> option (list Position)
}.

(** What a caller passes as a coordinate: a chess coordinate such as
    [('h', 8)] or a pair of integers. *)
Inductive Coord :=
| Alg (file : ascii) (rank : Z)
| Raw (x y : Z).

(** *** Python dictionaries keyed by positions

    Insertion ordered, keys unique; iteration follows the list. *)
Definition dict (V : Type) := list (Position * V).

Fixpoint dict_get {V} (d : dict V) (k : Position) : option V :=
  match d with
  | [] => None
  | (k', v) :: d' => if decide (k' = k) then Some v else dict_get d' k
  end.

(** [d[k] = v]: an existing key keeps its place, a new one goes last. *)
Fixpoint dict_set {V} (d : dict V) (k : Position) (v : V) : dict V :=
  match d with
  | [] => [(k, v)]
  | (k', v') :: d' =>
      if decide (k' = k) then (k', v) :: d' else (k', v') :: dict_set d' k v
  end.

Fixpoint dict_del {V} (d : dict V) (k : Position) : dict V :=
  match d with
  | [] => []
  | (k', v') :: d' =>
      if decide (k' = k) then dict_del d' k else (k', v') :: dict_del d' k
  end.

(** [d.pop(k)]: [None] stands for [KeyError]. *)
Definition dict_pop {V} (d : dict V) (k : Position) : option (V * dict V) :=
  match dict_get d k with
  | Some v => Some (v, dict_del d k)
  | None => None
  end.

Definition dict_keys {V} (d : dict V) : list Position := d.*1.

(** *** The numpy grid

    An index [i] of an axis of length 8 is valid for [-8 <= i < 8]; a
    negative one counts from the end. A cell holds the integer 0 (no entry in
    the map below) or a piece. *)
Definition np_index (i : Z) : option Z :=
  if decide (0 <= i < 8) then Some i
  else if decide (-8 <= i < 0) then Some (i + 8)
  else None.

Definition np_index2 (p : Position) : option Position :=
  match np_index p.1, np_index p.2 with
  | Some c, Some r => Some (c, r)
  | _, _ => None
  end.

Abbreviation Grid := (gmap (Z * Z) nat).

(** [board[col, row]]; the outer [None] stands for [IndexError]. *)
Definition grid_get (g : Grid) (p : Position) : option (option ref) :=
  match np_index2 p with
  | Some q => Some (g !! q)
  | None => None
  end.

(** [board[col, row] = val] with [val] a piece or 0. *)
Definition grid_set (g : Grid) (p : Position) (val : option ref) : option Grid :=
  match np_index2 p with
  | Some q => Some (match val with Some r => <[q := r]> g | None => delete q g end)
  | None => None
  end.

(** *** Board and store *)

Record Board := mkBoard {
  board : Grid;
  _pieces : dict ref;
  kings : Team -> option ref;
  en_passant : option Position * option ref
}.

Record World := mkWorld {
  brd : Board;
  heap : ref -> Piece;
  next_ref : ref
}.

(** [Board.__init__], without an initial grid. *)
Definition new_board : Board := mkBoard ∅ [] (fun _ => None) (None, None).

(** ** Exceptions and the state monad of the embedding *)

Inductive Exn := ValueError | KeyError | IndexError | AttributeError.

Inductive Res (A : Type) :=
| Ok (a : A)
| Raise (e : Exn).
Arguments Ok {A} a.
Arguments Raise {A} e.

Definition M (A : Type) := World -> Res A * World.

Definition ret {A} (a : A) : M A := fun w => (Ok a, w).
Definition raise {A} (e : Exn) : M A := fun w => (Raise e, w).
Definition bind {A B} (m : M A) (f : A -> M B) : M B :=
  fun w => match m w with
           | (Ok a, w') => f a w'
           | (Raise e, w') => (Raise e, w')
           end.
Definition get_world : M World := fun w => (Ok w, w).
Definition set_board (b : Board) : M unit :=
  fun w => (Ok tt, mkWorld b (heap w) (next_ref w)).
Definition lift_opt {A} (e : Exn) (o : option A) : M A :=
  match o with Some a => ret a | None => raise e end.

Notation "x <- m ;; k" := (bind m (fun x => k))
  (at level 100, m at next level, right associativity).
Notation "m ;;; k" := (bind m (fun _ => k))
  (at level 100, right associativity).

(** Attribute updates on a piece object. *)
Definition heap_upd (h : ref -> Piece) (r : ref) (p : Piece) : ref -> Piece :=
  fun r' => if decide (r' = r) then p else h r'.

Definition modify_piece (r : ref) (f : Piece -> Piece) : M unit :=
  fun w => (Ok tt, mkWorld (brd w) (heap_upd (heap w) r (f (heap w r))) (next_ref w)).

(** Object creation. *)
Definition alloc (p : Piece) : M ref :=
  fun w => (Ok (next_ref w),
            mkWorld (brd w) (heap_upd (heap w) (next_ref w) p) (S (next_ref w))).

Definition kings_set (k : Team -> option ref) (t : Team) (r : ref) : Team -> option ref :=
  fun t' => if decide (t' = t) then Some r else k t'.

(** ** The interfaces of [misc] and [pieces] *)

(** [misc]: coordinate conversions. [to_both_coord] gives the chess
    coordinate and the integer pair of its argument. *)
Class Misc := {
  chess_to_coord : Coord -> Position;
  to_coord : Coord -> Position;
  to_both_coord : Coord -> Coord * Position
}.

(** [pieces]: the constructors' initial [move_set], and the methods
    [danger_zone], [get_moves] and [check_pins], which read the piece
    dictionary (and through it the piece objects). They are taken as pure
    functions of the state: each call gives a set of its own and leaves the
    pieces as they are. *)
Class Pieces := {
  init_move_set : Kind -> Team -> Position -> (Position -> option (list Position));
  danger_zone : (ref -> Piece) -> Piece -> dict ref -> PosSet;
  get_moves : (ref -> Piece) -> Piece -> dict ref -> option Position -> PosSet;
  check_pins : (ref -> Piece) -> Piece -> dict ref -> list (ref * PosSet)
}.

(** Modelled from the spec: [pieces.py] is not part of the source. A piece is
    constructed from a team and a position, and is live. *)
Definition new_piece `{Pieces} (k : Kind) (t : Team) (pos : Position) : Piece :=
  mkPiece k t pos true (init_move_set k t pos).

(** Modelled from the spec: [Piece.destroy] of [pieces.py]; a captured piece
    is no longer live. *)
Definition piece_destroy (p : Piece) : Piece :=
  mkPiece (kind p) (team p) (position p) false (move_set p).

(** Modelled from the spec: [Piece.set_position] of [pieces.py] updates the
    position attribute. *)
Definition piece_set_position (npos : Position) (p : Piece) : Piece :=
  mkPiece (kind p) (team p) npos (alive p) (move_set p).

(** ** [Board]: placement and mutation *)

Section BoardOps.
Context `{Misc} `{Pieces}.

(** [Board.__setitem__] *)
Definition __setitem__ (pos : Coord) (val : ref) : M unit :=
  let cr := chess_to_coord pos in
  w <- get_world ;;
  let b := brd w in
  cell <- lift_opt IndexError (grid_get (board b) cr) ;;
  if bool_decide (cell <> None) || bool_decide (dict_get (_pieces b) cr <> None)
  then raise ValueError
  else
    g <- lift_opt IndexError (grid_set (board b) cr (Some val)) ;;
    set_board (mkBoard g (dict_set (_pieces b) cr val) (kings b) (en_passant b)).

(** [Board.__getitem__] *)
Definition __getitem__ (pos : Coord) : M (option ref) :=
  w <- get_world ;;
  lift_opt IndexError (grid_get (board (brd w)) (chess_to_coord pos)).

(** [Board.remove] *)
Definition remove (pos : Position) : M unit :=
  w <- get_world ;;
  let b := brd w in
  vd <- lift_opt KeyError (dict_pop (_pieces b) pos) ;;
  set_board (mkBoard (board b) vd.2 (kings b) (en_passant b)) ;;;
  g <- lift_opt IndexError (grid_set (board b) pos None) ;;
  set_board (mkBoard g vd.2 (kings b) (en_passant b)).

(** [Board.destroy] *)
Definition destroy (piece : ref) : M unit :=
  w <- get_world ;;
  remove (position (heap w piece)) ;;;
  modify_piece piece piece_destroy.

(** [destroy] applied to a value that may be [None]. *)
Definition destroy_opt (piece : option ref) : M unit :=
  match piece with
  | Some r => destroy r
  | None => raise AttributeError
  end.

Definition set_en_passant (ep : option Position * option ref) : M unit :=
  w <- get_world ;;
  let b := brd w in
  set_board (mkBoard (board b) (_pieces b) (kings b) ep).

(** [ms = piece.move_set[piece.position]] and the two assignments to
    [self.en_passant] that follow it; [next(iter(ms), None)] is the first
    element of [ms], if any. *)
Definition record_en_passant (piece : ref) : M unit :=
  w <- get_world ;;
  ms <- lift_opt KeyError
          (move_set (heap w piece) (position (heap w piece))) ;;
  set_en_passant (head ms, Some piece).

(** The first part of [Board.move]: the branch on [isinstance(piece, Pawn)]. *)
Definition move_capture (piece : ref) (npos : Position) : M unit :=
  w <- get_world ;;
  if decide (kind (heap w piece) = Pawn) then
    (if decide (Some npos = (en_passant (brd w)).1)
     then destroy_opt (en_passant (brd w)).2
     else ret tt) ;;;
    record_en_passant piece
  else
    set_en_passant (None, None) ;;;
    match dict_get (_pieces (brd w)) npos with
    | Some occupant => destroy occupant
    | None => ret tt
    end.

(** The last three statements of [Board.move]. *)
Definition move_place (piece : ref) (new_position : Coord) (npos : Position) : M unit :=
  w <- get_world ;;
  remove (position (heap w piece)) ;;;
  modify_piece piece (piece_set_position npos) ;;;
  __setitem__ new_position piece.

(** [Board.move] *)
Definition move (piece : ref) (new_position : Coord) : M unit :=
  let npos := to_coord new_position in
  move_capture piece npos ;;;
  move_place piece new_position npos.

(** [Board.put_piece]; the constructor is given by its kind. *)
Definition put_piece (c : Coord) (k : Kind) (t : Team) : M unit :=
  let '(cxy, pxy) := to_both_coord c in
  r <- alloc (new_piece k t pxy) ;;
  __setitem__ cxy r.

(** [Board.place_king]: a chained assignment assigns its targets from left to
    right, the board first and [kings] second. *)
Definition place_king (c : Coord) (t : Team) : M unit :=
  let '(cxy, pxy) := to_both_coord c in
  r <- alloc (new_piece King t pxy) ;;
  __setitem__ cxy r ;;;
  w <- get_world ;;
  let b := brd w in
  set_board (mkBoard (board b) (_pieces b) (kings_set (kings b) t r) (en_passant b)).

End BoardOps.

(** ** Danger zones, attackers and legal moves

    These methods only read the board. Their exceptions are carried by
    [Res]. *)

Definition rbind {A B} (m : Res A) (f : A -> Res B) : Res B :=
  match m with
  | Ok a => f a
  | Raise e => Raise e
  end.

Definition of_opt {A} (e : Exn) (o : option A) : Res A :=
  match o with Some a => Ok a | None => Raise e end.

Section Queries.
Context `{Pieces}.

(** [Board.get_danger_zone]: the loop runs over the dictionary in insertion
    order. *)
Definition get_danger_zone (w : World) (tm : Team) : PosSet :=
  fold_left
    (fun (danger : PosSet) (e : Position * ref) =>
       let piece := heap w e.2 in
       if decide (team piece = tm)
       then danger ∪ danger_zone (heap w) piece (_pieces (brd w))
       else danger)
    (_pieces (brd w)) ∅.

(** [Board.is_check]; [kings[team]] may still be [None]. *)
Definition is_check (w : World) (tm : Team) (dz : option PosSet) : Res bool :=
  let dz' := match dz with
             | Some d => d
             | None => get_danger_zone w (team_inv tm)
             end in
  rbind (of_opt AttributeError (kings (brd w) tm))
        (fun k => Ok (bool_decide (position (heap w k) ∈ dz'))).

(** The four danger zones of the phantom pieces standing on the king's
    square, as [get_attackers] computes them. *)
Record Phantoms := mkPhantoms {
  rdng : PosSet;
  bdng : PosSet;
  kdng : PosSet;
  pdng : PosSet
}.

Definition phantoms (w : World) (tm : Team) (kingpos : Position) : Phantoms :=
  let ps := _pieces (brd w) in
  mkPhantoms
    (danger_zone (heap w) (new_piece Rook tm kingpos) ps)
    (danger_zone (heap w) (new_piece Bishop tm kingpos) ps)
    (danger_zone (heap w) (new_piece Knight tm kingpos) ps)
    (danger_zone (heap w) (new_piece Pawn tm kingpos) ps).

(** The [if]/[elif] chain of the loop body: what is appended for one entry
    of the dictionary, if anything. *)
Definition attacker_entry (w : World) (tm : Team) (ph : Phantoms)
    (pos : Position) (r : ref) : option (ref * PosSet) :=
  let piece := heap w r in
  let ps := _pieces (brd w) in
  if bool_decide (kind piece = Bishop \/ kind piece = Queen)
     && bool_decide (pos ∈ bdng ph)
  then Some (r, bdng ph ∩
                get_moves (heap w) (new_piece Bishop (team_inv tm) pos) ps None)
  else if bool_decide (kind piece = Rook \/ kind piece = Queen)
          && bool_decide (pos ∈ rdng ph)
  then Some (r, rdng ph ∩
                get_moves (heap w) (new_piece Rook (team_inv tm) pos) ps None)
  else if bool_decide (kind piece = Knight) && bool_decide (pos ∈ kdng ph)
  then Some (r, {[pos]})
  else if bool_decide (kind piece = Pawn) && bool_decide (pos ∈ pdng ph)
  then Some (r, {[pos]})
  else None.

(** The loop of [get_attackers], with its [continue] and its early
    [return]. *)
Fixpoint attackers_loop (w : World) (tm : Team) (ph : Phantoms)
    (entries : dict ref) (attackers : list (ref * PosSet))
    : list (ref * PosSet) :=
  match entries with
  | [] => attackers
  | (pos, r) :: rest =>
      let piece := heap w r in
      if bool_decide (team piece = tm) || bool_decide (kind piece = King)
      then attackers_loop w tm ph rest attackers
      else
        let attackers' :=
          match attacker_entry w tm ph pos r with
          | Some a => attackers ++ [a]
          | None => attackers
          end in
        if decide (2 <= length attackers')%nat
        then attackers'
        else attackers_loop w tm ph rest attackers'
  end.

(** [Board.get_attackers] *)
Definition get_attackers (w : World) (tm : Team) : Res (list (ref * PosSet)) :=
  rbind (of_opt AttributeError (kings (brd w) tm)) (fun k =>
    let kingpos := position (heap w k) in
    Ok (attackers_loop w tm (phantoms w tm kingpos) (_pieces (brd w)) [])).

(** First loop of [legal_moves]: the moves of the team's pieces and the
    danger zone of the others. *)
Definition raw_moves (w : World) (tm : Team) : dict PosSet * PosSet :=
  fold_left
    (fun (acc : dict PosSet * PosSet) (e : Position * ref) =>
       let piece := heap w e.2 in
       if decide (team piece <> tm)
       then (acc.1, acc.2 ∪ danger_zone (heap w) piece (_pieces (brd w)))
       else (dict_set acc.1 e.1
               (get_moves (heap w) piece (_pieces (brd w)) (en_passant (brd w)).1),
             acc.2))
    (_pieces (brd w)) ([], ∅).

(** Second loop: [pmoves[piece.position] &= rs] for every pin. *)
Fixpoint apply_pins (h : ref -> Piece) (pins : list (ref * PosSet))
    (pmoves : dict PosSet) : Res (dict PosSet) :=
  match pins with
  | [] => Ok pmoves
  | (p, rs) :: pins' =>
      match dict_get pmoves (position (h p)) with
      | Some s => apply_pins h pins' (dict_set pmoves (position (h p)) (s ∩ rs))
      | None => Raise KeyError
      end
  end.

(** [block_moves] after [block_moves |= capture_moves]. *)
Definition block_moves (w : World) (attackers : list (ref * PosSet)) : PosSet :=
  match attackers with
  | [a] => a.2 ∪ {[position (heap w a.1)]}
  | _ => ∅
  end.

(** Third loop, entered when there is an attacker: every entry but the
    king's is cut down to [block_moves], and a pawn's entry gets the
    en-passant square added. *)
Fixpoint restrict_to_check (w : World) (kingpos : Position) (blocks : PosSet)
    (keys : list Position) (pmoves : dict PosSet) : Res (dict PosSet) :=
  match keys with
  | [] => Ok pmoves
  | pos :: keys' =>
      if decide (pos <> kingpos) then
        match dict_get pmoves pos with
        | None => Raise KeyError
        | Some s =>
            let s1 := s ∩ blocks in
            match (en_passant (brd w)).1 with
            | Some e =>
                match dict_get (_pieces (brd w)) pos with
                | None => Raise KeyError
                | Some r =>
                    let s2 := if decide (kind (heap w r) = Pawn)
                              then s1 ∪ {[e]} else s1 in
                    restrict_to_check w kingpos blocks keys' (dict_set pmoves pos s2)
                end
            | None =>
                restrict_to_check w kingpos blocks keys' (dict_set pmoves pos s1)
            end
        end
      else restrict_to_check w kingpos blocks keys' pmoves
  end.

(** The move sets after the pins have been applied. *)
Definition pinned_moves (w : World) (tm : Team) : Res (dict PosSet) :=
  rbind (of_opt AttributeError (kings (brd w) tm)) (fun king =>
    apply_pins (heap w)
      (check_pins (heap w) (heap w king) (_pieces (brd w)))
      (raw_moves w tm).1).

(** [Board.legal_moves] *)
Definition legal_moves (w : World) (tm : Team) : Res (dict PosSet) :=
  let dzone := (raw_moves w tm).2 in
  rbind (of_opt AttributeError (kings (brd w) tm)) (fun king =>
  rbind (pinned_moves w tm) (fun pmoves =>
  rbind (get_attackers w tm) (fun attackers =>
  let kingpos := position (heap w king) in
  rbind (if decide (0 < length attackers)%nat
         then restrict_to_check w kingpos (block_moves w attackers)
                (dict_keys pmoves) pmoves
         else Ok pmoves) (fun pmoves' =>
  rbind (of_opt KeyError (dict_get pmoves' kingpos)) (fun s =>
  Ok (dict_set pmoves' kingpos (s ∖ dzone))))))).

End Queries.

(** ** An instance of the interfaces, following the specification

    Used to run the board's code on concrete positions. *)

Module SpecModel.

(** Modelled from the spec: the conversions of [misc.py]; file [a] is
    column 0, rank 1 is row 7 and rank 8 is row 0; a pair of integers is
    already a position. *)
Definition file_index (f : ascii) : Z := Z.of_N (N_of_ascii f) - 97.
Definition file_letter (c : Z) : ascii := ascii_of_N (Z.to_N (c + 97)).

Definition spec_to_coord (c : Coord) : Position :=
  match c with
  | Alg f r => (file_index f, 8 - r)
  | Raw x y => (x, y)
  end.

Definition spec_to_both_coord (c : Coord) : Coord * Position :=
  match c with
  | Alg f r => (Alg f r, spec_to_coord c)
  | Raw x y => (Alg (file_letter x) (8 - y), (x, y))
  end.

#[export] Instance spec_misc : Misc := {|
  chess_to_coord := spec_to_coord;
  to_coord := spec_to_coord;
  to_both_coord := spec_to_both_coord
|}.

Definition shift (p d : Position) : Position := (p.1 + d.1, p.2 + d.2).

Definition piece_at (h : ref -> Piece) (ps : dict ref) (p : Position) : option Piece :=
  h <$> dict_get ps p.

Definition held_by (h : ref -> Piece) (ps : dict ref) (tm : Team) (p : Position) : bool :=
  match piece_at h ps p with
  | Some o => bool_decide (team o = tm)
  | None => false
  end.

Definition diagonals : list Position := [(1, 1); (1, -1); (-1, 1); (-1, -1)].
Definition orthogonals : list Position := [(1, 0); (-1, 0); (0, 1); (0, -1)].
Definition knight_jumps : list Position :=
  [(1, 2); (2, 1); (2, -1); (1, -2); (-1, -2); (-2, -1); (-2, 1); (-1, 2)].

(** Modelled from the spec: a ray stops at the first occupied square,
    inclusive if enemy, exclusive if own; in the danger-zone variant the
    blocker's square is threatened whatever its team, and an enemy King does
    not block. *)
Fixpoint ray (h : ref -> Piece) (ps : dict ref) (tm : Team) (danger : bool)
    (p d : Position) (fuel : nat) : list Position :=
  match fuel with
  | O => []
  | S fuel' =>
      let q := shift p d in
      if decide (on_board q) then
        match piece_at h ps q with
        | None => q :: ray h ps tm danger q d fuel'
        | Some o =>
            if decide (team o = tm) then (if danger then [q] else [])
            else if danger && bool_decide (kind o = King)
                 then q :: ray h ps tm danger q d fuel'
                 else [q]
        end
      else []
  end.

Definition rays (h : ref -> Piece) (ps : dict ref) (tm : Team) (danger : bool)
    (p : Position) (dirs : list Position) : PosSet :=
  list_to_set (flat_map (fun d => ray h ps tm danger p d 7) dirs).

(** Modelled from the spec: fixed offsets, filtered to the board and, for
    moves, to squares not held by the own team. *)
Definition steps (h : ref -> Piece) (ps : dict ref) (tm : Team) (danger : bool)
    (p : Position) (offsets : list Position) : PosSet :=
  list_to_set
    (filter (fun q => on_board q /\ (danger || negb (held_by h ps tm q)))
            (map (shift p) offsets)).

(** Modelled from the spec: White advances toward increasing rank, that is
    toward row 0, from rank 2; Black toward row 7, from rank 7. *)
Definition forward (tm : Team) : Z := match tm with White => -1 | Black => 1 end.
Definition start_row (tm : Team) : Z := match tm with White => 6 | Black => 1 end.

Definition pawn_danger (tm : Team) (p : Position) : PosSet :=
  list_to_set (filter (fun q => on_board q)
                 [shift p (1, forward tm); shift p (-1, forward tm)]).

Definition pawn_moves (h : ref -> Piece) (ps : dict ref) (tm : Team)
    (p : Position) (ep : option Position) : PosSet :=
  let one := shift p (0, forward tm) in
  let two := shift one (0, forward tm) in
  let free q := bool_decide (on_board q) && bool_decide (piece_at h ps q = None) in
  let pushes :=
    if free one
    then one :: (if bool_decide (p.2 = start_row tm) && free two then [two] else [])
    else [] in
  let takes :=
    filter (fun q => held_by h ps (team_inv tm) q \/ ep = Some q)
           (elements (pawn_danger tm p)) in
  list_to_set (pushes ++ takes).

Definition king_ring : list Position := diagonals ++ orthogonals.

Definition spec_danger_zone (h : ref -> Piece) (self : Piece) (ps : dict ref) : PosSet :=
  let p := position self in
  let tm := team self in
  match kind self with
  | Pawn => pawn_danger tm p
  | Knight => steps h ps tm true p knight_jumps
  | Bishop => rays h ps tm true p diagonals
  | Rook => rays h ps tm true p orthogonals
  | Queen => rays h ps tm true p (diagonals ++ orthogonals)
  | King => steps h ps tm true p king_ring
  end.

Definition spec_get_moves (h : ref -> Piece) (self : Piece) (ps : dict ref)
    (ep : option Position) : PosSet :=
  let p := position self in
  let tm := team self in
  match kind self with
  | Pawn => pawn_moves h ps tm p ep
  | Knight => steps h ps tm false p knight_jumps
  | Bishop => rays h ps tm false p diagonals
  | Rook => rays h ps tm false p orthogonals
  | Queen => rays h ps tm false p (diagonals ++ orthogonals)
  | King => steps h ps tm false p king_ring
  end.

(** Modelled from the spec: walking from the King along [d], the first piece
    met, if friendly, is pinned when the next piece met is an enemy slider
    of the ray's kind; its squares are those of the ray up to and including
    the pinning piece. *)
Fixpoint pin_scan (h : ref -> Piece) (ps : dict ref) (tm : Team) (diag : bool)
    (p d : Position) (friend : option ref) (seen : list Position) (fuel : nat)
    : option (ref * PosSet) :=
  match fuel with
  | O => None
  | S fuel' =>
      let q := shift p d in
      if decide (on_board q) then
        match dict_get ps q with
        | None => pin_scan h ps tm diag q d friend (q :: seen) fuel'
        | Some r =>
            if decide (team (h r) = tm) then
              match friend with
              | None => pin_scan h ps tm diag q d (Some r) seen fuel'
              | Some _ => None
              end
            else
              match friend with
              | Some f =>
                  if bool_decide (kind (h r) = Queen)
                     || bool_decide (kind (h r) = (if diag then Bishop else Rook))
                  then Some (f, list_to_set (q :: seen))
                  else None
              | None => None
              end
        end
      else None
  end.

Definition spec_check_pins (h : ref -> Piece) (self : Piece) (ps : dict ref)
    : list (ref * PosSet) :=
  omap (fun d => pin_scan h ps (team self) true (position self) d None [] 7) diagonals
  ++ omap (fun d => pin_scan h ps (team self) false (position self) d None [] 7) orthogonals.

(** Modelled from the spec: a pawn's [move_set] gives, for a square of its
    starting rank, the square a double advance passes over, and nothing for
    any other square; the other kinds have no such record. *)
Definition spec_move_set (k : Kind) (tm : Team) (_ : Position)
    : Position -> option (list Position) :=
  fun p =>
    match k with
    | Pawn => Some (if decide (p.2 = start_row tm)
                    then [shift p (0, forward tm)] else [])
    | _ => None
    end.

#[export] Instance spec_pieces : Pieces := {|
  init_move_set := spec_move_set;
  danger_zone := spec_danger_zone;
  get_moves := spec_get_moves;
  check_pins := spec_check_pins
|}.

(** A store in which no object has been created yet. *)
Definition dummy : Piece := mkPiece Pawn White (0, 0) false (fun _ => None).
Definition empty_world : World := mkWorld new_board (fun _ => dummy) 0%nat.

(** The state a script of board operations leaves. *)
Definition exec (m : M unit) (w : World) : World := (m w).2.

End SpecModel.

(** * The vocabulary of the properties *)

(** ** Boards after a placement and after a removal *)

(** The board after a successful [__setitem__]. *)
Definition board_with (b : Board) (cr : Position) (val : ref) : Board :=
  mkBoard (<[cr := val]> (board b)) (dict_set (_pieces b) cr val)
          (kings b) (en_passant b).

(** The board after a successful [remove]. *)
Definition board_without (b : Board) (pos : Position) : Board :=
  mkBoard (delete pos (board b)) (dict_del (_pieces b) pos)
          (kings b) (en_passant b).

(** The guard of [__setitem__]: the grid cell is not 0, or the dictionary has
    an entry. *)
Definition occupied (b : Board) (cr : Position) : Prop :=
  board b !! cr <> None \/ dict_get (_pieces b) cr <> None.

(** ** Runs that keep a property *)

(** A computation keeps a property of the state, whatever its outcome. *)
Definition preserves {A} (P : World -> Prop) (m : M A) : Prop :=
  forall w res w', P w -> m w = (res, w') -> P w'.

(** What [remove] and [__setitem__] leave alone: the store, [kings] and
    [en_passant]. *)
Definition same_but_squares (w w' : World) : Prop :=
  heap w' = heap w /\ next_ref w' = next_ref w /\
  kings (brd w') = kings (brd w) /\ en_passant (brd w') = en_passant (brd w).

Definition squares_blind (P : World -> Prop) : Prop :=
  forall w w', same_but_squares w w' -> P w -> P w'.

(** Closed under an attribute update [f] of the object [r]. *)
Definition update_closed (P : World -> Prop) (r : ref) (f : Piece -> Piece) : Prop :=
  forall w, P w ->
    P (mkWorld (brd w) (heap_upd (heap w) r (f (heap w r))) (next_ref w)).

(** ** Well-formed boards *)

(** The grid and the piece map hold the same piece at every position, and
    every entry of the map is a square of the board. *)
Definition dual_repr (b : Board) : Prop :=
  (forall pos, board b !! pos = dict_get (_pieces b) pos) /\
  (forall pos, dict_get (_pieces b) pos <> None -> on_board pos).

Definition dual_ok (w : World) : Prop := dual_repr (brd w).

(** Every piece of the map stands on the square its [position] names. *)
Definition positions_ok (w : World) : Prop :=
  forall pos r, dict_get (_pieces (brd w)) pos = Some r -> position (heap w r) = pos.

(** ** What a run leaves of a piece and of the en-passant record *)

(** [en_passant] has a given value. *)
Definition ep_is (X : option Position * option ref) (w : World) : Prop :=
  en_passant (brd w) = X.

(** What [move] reads of the moving piece is as it was. *)
Definition attrs_are (p : ref) (k : Kind) (pos : Position)
    (ms : Position -> option (list Position)) (w : World) : Prop :=
  kind (heap w p) = k /\ position (heap w p) = pos /\ move_set (heap w p) = ms.

(** The piece has been destroyed. *)
Definition dead (q : ref) (w : World) : Prop := alive (heap w q) = false.

(** The piece stands on no square of the piece map. *)
Definition absent (q : ref) (w : World) : Prop :=
  forall pos, dict_get (_pieces (brd w)) pos <> Some q.

(** ** Attackers and move sets *)

(** An entry of the result: not a King, on the board under some key, and
    paired with that key alone if it is a Knight or a Pawn. *)
Definition attacker_ok (w : World) (a : ref * PosSet) : Prop :=
  kind (heap w a.1) <> King /\
  exists pos, (pos, a.1) ∈ _pieces (brd w) /\
    (kind (heap w a.1) = Knight \/ kind (heap w a.1) = Pawn -> a.2 = {[pos]}).

(** What the check loop adds to the entry of a pawn: the recorded en-passant
    square, whenever there is one. *)
Definition en_passant_added (w : World) (pos : Position) : PosSet :=
  match (en_passant (brd w)).1, dict_get (_pieces (brd w)) pos with
  | Some e, Some r => if decide (kind (heap w r) = Pawn) then {[e]} else ∅
  | _, _ => ∅
  end.

Definition restricted (w : World) (blocks : PosSet) (pos : Position) (s : PosSet)
    : PosSet :=
  s ∩ blocks ∪ en_passant_added w pos.

(** ** The mutations of the board *)

Section Mutations.
Context `{Misc} `{Pieces}.

(** The mutations of the board. *)
Inductive Mutation :=
| MSetitem (pos : Coord) (val : ref)
| MPutPiece (c : Coord) (k : Kind) (t : Team)
| MPlaceKing (c : Coord) (t : Team)
| MRemove (pos : Position)
| MMove (piece : ref) (new_position : Coord).

Definition run_mutation (m : Mutation) : M unit :=
  match m with
  | MSetitem pos val => __setitem__ pos val
  | MPutPiece c k t => put_piece c k t
  | MPlaceKing c t => place_king c t
  | MRemove pos => remove pos
  | MMove piece new_position => move piece new_position
  end.

(** The square a mutation places a piece on, if it places one. *)
Definition placement_square (m : Mutation) : option Position :=
  match m with
  | MSetitem pos _ => Some (chess_to_coord pos)
  | MPutPiece c _ _ | MPlaceKing c _ => Some (chess_to_coord (to_both_coord c).1)
  | MRemove _ => None
  | MMove _ new_position => Some (chess_to_coord new_position)
  end.

End Mutations.

(** * Concrete boards *)

Module Boards.
Import SpecModel.

(** A white pawn on e4 (object 0); a black knight (object 1) has been
    created and is not yet on the board. *)
Definition one_pawn : World :=
  exec (put_piece (Alg "e" 4) Pawn White ;;;
        _ <- alloc (new_piece Knight Black (3, 4)) ;; ret tt) empty_world.

(** The en-passant example of [board4]: black king c5 (object 0), white king
    a1 (1), black pawn e4 (2), white pawn d2 (3); then the white pawn
    advances to d4. *)
Definition board4_placed : World :=
  exec (place_king (Alg "c" 5) Black ;;;
        place_king (Alg "a" 1) White ;;;
        put_piece (Alg "e" 4) Pawn Black ;;;
        put_piece (Alg "d" 2) Pawn White) empty_world.

Definition board4 : World := exec (move 3%nat (Alg "d" 4)) board4_placed.

(** A white pawn alone on d2 (object 0). *)
Definition lone_pawn : World := exec (put_piece (Alg "d" 2) Pawn White) empty_world.

(** A white pawn on e4 (object 0) and a black knight on d5 (object 1). *)
Definition pawn_takes : World :=
  exec (put_piece (Alg "e" 4) Pawn White ;;;
        put_piece (Alg "d" 5) Knight Black) empty_world.

(** A white rook on e4 (object 0) and a black knight on e7 (object 1). *)
Definition rook_takes : World :=
  exec (put_piece (Alg "e" 4) Rook White ;;;
        put_piece (Alg "e" 7) Knight Black) empty_world.

(** Double check: black king e8 (object 0), white king h1 (1), white rook e1
    (2), white knight f6 (3), black pawn h7 (4), white pawn a2 (5), which
    then advances to a4 and leaves a3 as the en-passant square. *)
Definition double_check : World :=
  exec (place_king (Alg "e" 8) Black ;;;
        place_king (Alg "h" 1) White ;;;
        put_piece (Alg "e" 1) Rook White ;;;
        put_piece (Alg "f" 6) Knight White ;;;
        put_piece (Alg "h" 7) Pawn Black ;;;
        put_piece (Alg "a" 2) Pawn White ;;;
        move 5%nat (Alg "a" 4)) empty_world.

(** The value of a run that returned, a default otherwise. *)
Definition result_of {A} (d : A) (r : Res A) : A :=
  match r with Ok a => a | Raise _ => d end.

(** Single check: black king h7 (object 0), white king e1 (1), white bishop
    b1 (2), black pawns d4 (3) and a7 (4), white pawn c2 (5), which then
    advances to c4: the bishop gives check along b1-h7, and c3 is the
    en-passant square. *)
Definition discovered_check : World :=
  exec (place_king (Alg "h" 7) Black ;;;
        place_king (Alg "e" 1) White ;;;
        put_piece (Alg "b" 1) Bishop White ;;;
        put_piece (Alg "d" 4) Pawn Black ;;;
        put_piece (Alg "a" 7) Pawn Black ;;;
        put_piece (Alg "c" 2) Pawn White ;;;
        move 5%nat (Alg "c" 4)) empty_world.

End Boards.

(** * More of [board.py] *)

(** ** Construction and accessors *)

(** [Board.__init__] with its optional initial grid: [self.board[:] = board]
    copies the grid, and the piece dictionary starts empty all the same. *)
Definition board_init (g : option Grid) : Board :=
  mkBoard (match g with Some g0 => g0 | None => ∅ end) []
          (fun _ => None) (None, None).

(** [Board.get_pieces] and [Board.get_board] *)
Definition get_pieces : M (dict ref) :=
  w <- get_world ;; ret (_pieces (brd w)).

Definition get_board : M Grid :=
  w <- get_world ;; ret (board (brd w)).

(** ** The scripted positions *)

(** A [for] loop over a sequence. *)
Fixpoint for_each {A} (l : list A) (body : A -> M unit) : M unit :=
  match l with
  | [] => ret tt
  | x :: l' => body x ;;; for_each l' body
  end.

Section Scripts.
Context `{Misc} `{Pieces}.

(** [Board.init_board], with the five pieces it adds for testing. *)
Definition init_board : M (dict ref) :=
  for_each ["a"; "b"; "c"; "d"; "e"; "f"; "g"; "h"]%char
    (fun c => put_piece (Alg c 2) Pawn White ;;;
              put_piece (Alg c 7) Pawn Black) ;;;
  for_each [(1, White); (8, Black)]
    (fun ic =>
       put_piece (Alg "a" ic.1) Rook ic.2 ;;;
       put_piece (Alg "b" ic.1) Knight ic.2 ;;;
       put_piece (Alg "c" ic.1) Bishop ic.2 ;;;
       put_piece (Alg "d" ic.1) Queen ic.2 ;;;
       put_piece (Alg "f" ic.1) Bishop ic.2 ;;;
       put_piece (Alg "g" ic.1) Knight ic.2 ;;;
       put_piece (Alg "h" ic.1) Rook ic.2 ;;;
       place_king (Alg "e" ic.1) ic.2) ;;;
  put_piece (Alg "c" 4) Queen Black ;;;
  put_piece (Alg "e" 3) Pawn Black ;;;
  put_piece (Alg "g" 3) Pawn White ;;;
  put_piece (Alg "f" 6) Pawn White ;;;
  put_piece (Alg "g" 5) Pawn White ;;;
  get_pieces.

(** [Board.board1]: the example for a check. *)
Definition board1 : M (dict ref) :=
  place_king (Alg "b" 6) Black ;;;
  place_king (Alg "e" 3) White ;;;
  put_piece (Alg "e" 5) Queen Black ;;;
  put_piece (Alg "c" 3) Bishop White ;;;
  put_piece (Alg "a" 4) Rook White ;;;
  put_piece (Alg "g" 5) Queen White ;;;
  put_piece (Alg "h" 6) Bishop Black ;;;
  get_pieces.

(** [Board.board12] *)
Definition board12 : M (dict ref) :=
  place_king (Alg "b" 6) Black ;;;
  place_king (Alg "e" 3) White ;;;
  put_piece (Alg "c" 3) Bishop White ;;;
  put_piece (Alg "a" 4) Rook White ;;;
  put_piece (Alg "g" 5) Queen White ;;;
  put_piece (Alg "h" 6) Bishop Black ;;;
  put_piece (Alg "c" 5) Bishop Black ;;;
  put_piece (Alg "f" 7) Pawn White ;;;
  put_piece (Alg "b" 4) Pawn White ;;;
  get_pieces.

(** [Board.board2]: the example for a pinned piece. *)
Definition board2 : M (dict ref) :=
  place_king (Alg "b" 6) Black ;;;
  place_king (Alg "h" 2) White ;;;
  put_piece (Alg "c" 7) Bishop Black ;;;
  put_piece (Alg "e" 5) Bishop White ;;;
  put_piece (Alg "h" 7) Rook White ;;;
  put_piece (Alg "h" 8) Rook Black ;;;
  put_piece (Alg "b" 2) Queen Black ;;;
  put_piece (Alg "d" 2) Queen White ;;;
  get_pieces.

(** [Board.board3]: the example for en passant. *)
Definition board3 : M (dict ref) :=
  place_king (Alg "a" 8) Black ;;;
  place_king (Alg "a" 1) White ;;;
  put_piece (Alg "d" 7) Pawn Black ;;;
  put_piece (Alg "e" 5) Pawn White ;;;
  put_piece (Alg "h" 7) Pawn Black ;;;
  put_piece (Alg "g" 5) Pawn White ;;;
  get_pieces.

End Scripts.

(** ** The colour codes of [plot_chessboard]

    The matrix [res] of the plot: [np.add.outer(range(8), range(8)) % 2], in
    which the loop over [highlighted] overwrites the cell [(7 - y, x)] of
    each position [(x, y)]. The matrix is kept as the map of the overwritten
    cells; the drawing itself is not modelled. *)
Definition base_colour (c : Position) : Z := (c.1 + c.2) mod 2.

Definition colour_at (res : gmap (Z * Z) Z) (c : Position) : Z :=
  default (base_colour c) (res !! c).

(** The cell of the matrix that stands for a position: [hy, hx = h] and
    [hx = 7 - hx], then [res[hx, hy]]. *)
Definition cell_of (h : Position) : Position := (7 - h.2, h.1).

(** One overwrite of a cell, and the cell after [n] overwrites. *)
Definition recolour (v : Z) : Z := if decide (v = 0) then 2 else 3.

Definition times_highlighted (highlighted : list Position) (c : Position) : nat :=
  length (filter (fun h => cell_of h = c) highlighted).

(** The loop over [highlighted]; [None] stands for [IndexError]. *)
Fixpoint highlight (highlighted : list Position) (res : gmap (Z * Z) Z)
    : option (gmap (Z * Z) Z) :=
  match highlighted with
  | [] => Some res
  | h :: rest =>
      match np_index2 (cell_of h) with
      | None => None
      | Some c => highlight rest (<[c := recolour (colour_at res c)]> res)
      end
  end.

(** * More vocabulary *)

(** Every piece of the map stands on the square its [position] names and has
    been created. *)
Definition store_ok (w : World) : Prop :=
  positions_ok w /\
  forall pos r, dict_get (_pieces (brd w)) pos = Some r -> (r < next_ref w)%nat.

(** The placements of a script. *)
Inductive Placement :=
| PutPiece (c : Coord) (k : Kind) (t : Team)
| PlaceKing (c : Coord) (t : Team).

Definition placement_coord (p : Placement) : Coord :=
  match p with PutPiece c _ _ | PlaceKing c _ => c end.

Definition placement_kind (p : Placement) : Kind :=
  match p with PutPiece _ k _ => k | PlaceKing _ _ => King end.

Definition placement_team (p : Placement) : Team :=
  match p with PutPiece _ _ t | PlaceKing _ t => t end.

Section Placements.
Context `{Misc} `{Pieces}.

Definition run_placement (p : Placement) : M unit :=
  match p with
  | PutPiece c k t => put_piece c k t
  | PlaceKing c t => place_king c t
  end.

(** The placements one after the other, then [k]. *)
Definition run_all {A} (l : list Placement) (k : M A) : M A :=
  fold_right (fun p acc => run_placement p ;;; acc) k l.

(** The square a placement targets. *)
Definition target (p : Placement) : Position :=
  chess_to_coord (to_both_coord (placement_coord p)).1.

(** The state after a placement that completes, creating object [next_ref]. *)
Definition placed (w : World) (p : Placement) : World :=
  let r := next_ref w in
  let b := board_with (brd w) (target p) r in
  mkWorld
    (match p with
     | PutPiece _ _ _ => b
     | PlaceKing _ t =>
         mkBoard (board b) (_pieces b) (kings_set (kings b) t r) (en_passant b)
     end)
    (heap_upd (heap w) r
       (new_piece (placement_kind p) (placement_team p)
                  (to_both_coord (placement_coord p)).2))
    (S r).

Definition placed_all (w : World) (l : list Placement) : World :=
  fold_left placed l w.

(** The entries a script adds to the piece map: its targets in order, each
    with the next object created. *)
Definition new_entries (n : ref) (l : list Placement) : dict ref :=
  imap (fun i p => (target p, (n + i)%nat)) l.

End Placements.

Section Consistency.
Context `{Misc} `{Pieces}.

(** What a mutation needs in order to keep the pieces on the squares their
    [position] names: the conversions of [misc] agree on the coordinate, and
    a piece handed in has been created (and, for a bare placement, names the
    square it is put on). *)
Definition consistent_placement (w : World) (m : Mutation) : Prop :=
  match m with
  | MSetitem pos val =>
      position (heap w val) = chess_to_coord pos /\ (val < next_ref w)%nat
  | MPutPiece c _ _ | MPlaceKing c _ =>
      chess_to_coord (to_both_coord c).1 = (to_both_coord c).2
  | MRemove _ => True
  | MMove p dst => chess_to_coord dst = to_coord dst /\ (p < next_ref w)%nat
  end.

End Consistency.

(** [kings] has a given value. *)
Definition kings_are (K : Team -> option ref) (w : World) : Prop :=
  kings (brd w) = K.

(** The placements of the scripts, in the order of the source. *)
Definition init_board_placements : list Placement :=
  flat_map (fun c => [PutPiece (Alg c 2) Pawn White; PutPiece (Alg c 7) Pawn Black])
           ["a"; "b"; "c"; "d"; "e"; "f"; "g"; "h"]%char
  ++ flat_map (fun ic : Z * Team =>
       [PutPiece (Alg "a" ic.1) Rook ic.2; PutPiece (Alg "b" ic.1) Knight ic.2;
        PutPiece (Alg "c" ic.1) Bishop ic.2; PutPiece (Alg "d" ic.1) Queen ic.2;
        PutPiece (Alg "f" ic.1) Bishop ic.2; PutPiece (Alg "g" ic.1) Knight ic.2;
        PutPiece (Alg "h" ic.1) Rook ic.2; PlaceKing (Alg "e" ic.1) ic.2])
       [(1, White); (8, Black)]
  ++ [PutPiece (Alg "c" 4) Queen Black; PutPiece (Alg "e" 3) Pawn Black;
      PutPiece (Alg "g" 3) Pawn White; PutPiece (Alg "f" 6) Pawn White;
      PutPiece (Alg "g" 5) Pawn White].

(** The test of the loop of [get_attackers] on an entry it does not skip:
    the square lies in the danger zone of the phantom of the piece's kind. *)
Definition in_zone (ph : Phantoms) (k : Kind) (pos : Position) : Prop :=
  match k with
  | Bishop => pos ∈ bdng ph
  | Rook => pos ∈ rdng ph
  | Queen => pos ∈ bdng ph \/ pos ∈ rdng ph
  | Knight => pos ∈ kdng ph
  | Pawn => pos ∈ pdng ph
  | King => False
  end.

Section Gather.
Context `{Pieces}.

(** One round of the loop of [get_danger_zone]. *)
Definition gather (w : World) (tm : Team) (danger : PosSet)
    (e : Position * ref) : PosSet :=
  if decide (team (heap w e.2) = tm)
  then danger ∪ danger_zone (heap w) (heap w e.2) (_pieces (brd w))
  else danger.

End Gather.

#[global] Instance occupied_dec (b : Board) (cr : Position) : Decision (occupied b cr).
Proof. unfold occupied. apply _. Defined.

(** * More concrete boards *)

Module MoreBoards.
Import SpecModel Boards.

(** A white pawn on e4 (object 0), and a black knight (object 1) that is
    not on the board but whose [position] names e4. *)
Definition stale_position : World :=
  exec (put_piece (Alg "e" 4) Pawn White ;;;
        _ <- alloc (new_piece Knight Black (4, 4)) ;; ret tt) empty_world.

(** [board4] after the white pawn on d4, which the en-passant record names,
    has been taken off with [remove]. *)
Definition board4_pawn_removed : World := exec (remove (3, 4)) board4.

(** [board4] before the advance, with the black king taken off c5. *)
Definition king_removed : World := exec (remove (2, 3)) board4_placed.

(** The scripted positions on an empty board. *)
Definition check_example : World := exec (board1 ;;; ret tt) empty_world.
Definition pin_example : World := exec (board2 ;;; ret tt) empty_world.
Definition en_passant_example : World := exec (board3 ;;; ret tt) empty_world.

(** The placements of [board1], in the order of the source. *)
Definition board1_placements : list Placement :=
  [PlaceKing (Alg "b" 6) Black; PlaceKing (Alg "e" 3) White;
   PutPiece (Alg "e" 5) Queen Black; PutPiece (Alg "c" 3) Bishop White;
   PutPiece (Alg "a" 4) Rook White; PutPiece (Alg "g" 5) Queen White;
   PutPiece (Alg "h" 6) Bishop Black].

(** The squares of the h-file between the white king of [board2] and the
    black rook on h8, and the rook's square. *)
Definition h_file_pin : PosSet := {[(7, 0); (7, 2); (7, 3); (7, 4); (7, 5)]}.

End MoreBoards.

(** * Properties *)

(** ** Dictionaries *)

Section DictFacts.
Context {V : Type}.
Implicit Types (d : dict V) (k : Position) (v : V).

Lemma dict_get_set d k v k' :
  dict_get (dict_set d k v) k' = if decide (k = k') then Some v else dict_get d k'.
Proof.
  induction d as [|[k0 v0] d IH]; simpl.
  - destruct (decide (k = k')); reflexivity.
  - destruct (decide (k0 = k)) as [->|Hne]; simpl.
    + destruct (decide (k = k')); reflexivity.
    + destruct (decide (k0 = k')) as [->|Hne'].
      * destruct (decide (k = k')); congruence.
      * exact IH.
Qed.

Lemma dict_get_set_eq d k v : dict_get (dict_set d k v) k = Some v.
Proof. rewrite dict_get_set. destruct (decide (k = k)); congruence. Qed.

Lemma dict_get_set_ne d k v k' :
  k <> k' -> dict_get (dict_set d k v) k' = dict_get d k'.
Proof. intros. rewrite dict_get_set. destruct (decide (k = k')); congruence. Qed.

Lemma dict_get_del d k k' :
  dict_get (dict_del d k) k' = if decide (k = k') then None else dict_get d k'.
Proof.
  induction d as [|[k0 v0] d IH]; simpl.
  - destruct (decide (k = k')); reflexivity.
  - destruct (decide (k0 = k)) as [->|Hne]; simpl.
    + rewrite IH. destruct (decide (k = k')); reflexivity.
    + destruct (decide (k0 = k')) as [->|Hne'].
      * destruct (decide (k = k')); congruence.
      * exact IH.
Qed.

Lemma dict_get_Some_elem d k v : dict_get d k = Some v -> (k, v) ∈ d.
Proof.
  induction d as [|[k0 v0] d IH]; simpl; [discriminate|].
  destruct (decide (k0 = k)) as [->|Hne]; intros Hg.
  - injection Hg as ->. left.
  - right. auto.
Qed.

Lemma dict_get_None_keys d k : dict_get d k = None <-> k ∉ dict_keys d.
Proof.
  unfold dict_keys. induction d as [|[k0 v0] d IH]; simpl.
  - split; [intros _; apply not_elem_of_nil | reflexivity].
  - rewrite not_elem_of_cons. destruct (decide (k0 = k)) as [->|Hne].
    + split; [discriminate | intros [? _]; congruence].
    + rewrite IH. split; [intros; split; [congruence | assumption] | intros [_ ?]; assumption].
Qed.

Lemma dict_keys_set_present d k v :
  dict_get d k <> None -> dict_keys (dict_set d k v) = dict_keys d.
Proof.
  unfold dict_keys. induction d as [|[k0 v0] d IH]; simpl; [congruence|].
  destruct (decide (k0 = k)) as [->|Hne]; simpl; [reflexivity|].
  intros Hg. f_equal. auto.
Qed.

Lemma dict_keys_set_absent d k v :
  dict_get d k = None -> dict_keys (dict_set d k v) = dict_keys d ++ [k].
Proof.
  unfold dict_keys. induction d as [|[k0 v0] d IH]; simpl; [reflexivity|].
  destruct (decide (k0 = k)) as [->|Hne]; simpl; [discriminate|].
  intros Hg. f_equal. auto.
Qed.

Lemma dict_keys_set_NoDup d k v :
  NoDup (dict_keys d) -> NoDup (dict_keys (dict_set d k v)).
Proof.
  intros Hnd. destruct (dict_get d k) eqn:Hg.
  - rewrite dict_keys_set_present; [assumption | congruence].
  - rewrite dict_keys_set_absent by assumption.
    apply NoDup_app. split; [assumption|]. split.
    + intros x Hx Hin. apply list_elem_of_singleton in Hin as ->.
      apply dict_get_None_keys in Hg. contradiction.
    + apply NoDup_singleton.
Qed.

End DictFacts.

(** ** The grid on squares of the board *)

Lemma np_index2_on_board (p : Position) : on_board p -> np_index2 p = Some p.
Proof.
  destruct p as [c r]. unfold on_board, np_index2, np_index. simpl. intros [Hc Hr].
  destruct (decide (0 <= c < 8)); [|lia].
  destruct (decide (0 <= r < 8)); [|lia]. reflexivity.
Qed.

Lemma np_index2_range (p q : Position) : np_index2 p = Some q -> on_board q.
Proof.
  destruct p as [c r]. unfold on_board, np_index2, np_index. simpl.
  repeat case_decide; intros Hq; inversion Hq; subst; simpl; lia.
Qed.

Lemma grid_get_on_board (g : Grid) (p : Position) :
  on_board p -> grid_get g p = Some (g !! p).
Proof. intros Hp. unfold grid_get. rewrite np_index2_on_board; auto. Qed.

Lemma grid_set_on_board (g : Grid) (p : Position) (val : option ref) :
  on_board p ->
  grid_set g p val =
    Some (match val with Some r => <[p := r]> g | None => delete p g end).
Proof. intros Hp. unfold grid_set. rewrite np_index2_on_board; auto. Qed.

(** ** What the primitive mutations compute *)

Ltac unfold_monad :=
  unfold bind, ret, raise, get_world, set_board, lift_opt, modify_piece,
    alloc, set_en_passant in *; simpl in *.

Section BoardFacts.
Context `{Misc} `{Pieces}.

Lemma setitem_run (w : World) (pos : Coord) (val : ref) :
  on_board (chess_to_coord pos) ->
  __setitem__ pos val w =
    if bool_decide (board (brd w) !! chess_to_coord pos <> None)
       || bool_decide (dict_get (_pieces (brd w)) (chess_to_coord pos) <> None)
    then (Raise ValueError, w)
    else (Ok tt, mkWorld (board_with (brd w) (chess_to_coord pos) val)
                         (heap w) (next_ref w)).
Proof.
  intros Hon. unfold __setitem__. unfold_monad.
  rewrite grid_get_on_board by assumption. simpl.
  destruct (bool_decide _ || bool_decide _); [reflexivity|].
  rewrite grid_set_on_board by assumption. reflexivity.
Qed.

Lemma remove_run (w : World) (pos : Position) :
  on_board pos ->
  remove pos w =
    match dict_get (_pieces (brd w)) pos with
    | None => (Raise KeyError, w)
    | Some _ => (Ok tt, mkWorld (board_without (brd w) pos) (heap w) (next_ref w))
    end.
Proof.
  intros Hon. unfold remove, dict_pop. unfold_monad.
  destruct (dict_get (_pieces (brd w)) pos); simpl; [|reflexivity].
  rewrite grid_set_on_board by assumption. reflexivity.
Qed.

(** A failing [remove] with an absent key changes nothing, on and off the
    board. *)
Lemma remove_absent (w : World) (pos : Position) :
  dict_get (_pieces (brd w)) pos = None -> remove pos w = (Raise KeyError, w).
Proof.
  intros Hg. unfold remove, dict_pop. unfold_monad. rewrite Hg. reflexivity.
Qed.

End BoardFacts.

(** ** Placement: [__setitem__], [put_piece], [place_king] *)

Section Placement.
Context `{Misc} `{Pieces}.

Lemma occupied_test (b : Board) (cr : Position) :
  bool_decide (board b !! cr <> None) || bool_decide (dict_get (_pieces b) cr <> None)
  = true <-> occupied b cr.
Proof.
  unfold occupied. rewrite orb_true_iff, !bool_decide_eq_true. reflexivity.
Qed.

Lemma setitem_occupied (w : World) (pos : Coord) (val : ref) :
  on_board (chess_to_coord pos) -> occupied (brd w) (chess_to_coord pos) ->
  __setitem__ pos val w = (Raise ValueError, w).
Proof.
  intros Hon Hocc. rewrite setitem_run by assumption.
  apply occupied_test in Hocc. rewrite Hocc. reflexivity.
Qed.

Lemma setitem_empty (w : World) (pos : Coord) (val : ref) :
  on_board (chess_to_coord pos) -> ~ occupied (brd w) (chess_to_coord pos) ->
  __setitem__ pos val w =
    (Ok tt, mkWorld (board_with (brd w) (chess_to_coord pos) val) (heap w) (next_ref w)).
Proof.
  intros Hon Hocc. rewrite setitem_run by assumption.
  destruct (bool_decide _ || bool_decide _) eqn:E; [|reflexivity].
  apply occupied_test in E. contradiction.
Qed.

Lemma board_with_lookup (b : Board) (cr : Position) (val : ref) :
  board (board_with b cr val) !! cr = Some val /\
  dict_get (_pieces (board_with b cr val)) cr = Some val.
Proof. simpl. rewrite lookup_insert_eq, dict_get_set_eq. auto. Qed.

(** C6. Placement through [__setitem__] on a square of the board: when the
    square already holds a piece (in the grid or in the piece map) the call
    raises [ValueError] and leaves the grid, the piece map, [kings] and
    [en_passant] as they were; when the square is empty the call succeeds
    and the piece is in the grid and in the piece map at that square. *)
Theorem placement_occupied_fails_empty_inserts
    (w : World) (pos : Coord) (val : ref) :
  on_board (chess_to_coord pos) ->
  let cr := chess_to_coord pos in
  (occupied (brd w) cr ->
     exists w', __setitem__ pos val w = (Raise ValueError, w') /\
       board (brd w') = board (brd w) /\
       _pieces (brd w') = _pieces (brd w) /\
       kings (brd w') = kings (brd w) /\
       en_passant (brd w') = en_passant (brd w))
  /\
  (~ occupied (brd w) cr ->
     exists w', __setitem__ pos val w = (Ok tt, w') /\
       board (brd w') !! cr = Some val /\
       dict_get (_pieces (brd w')) cr = Some val).
Proof.
  intros Hon cr. split; intros Hocc.
  - exists w. rewrite setitem_occupied by assumption. auto.
  - eexists. rewrite setitem_empty by assumption. split; [reflexivity|].
    apply board_with_lookup.
Qed.

(** The same for [put_piece], which creates the piece before it places it:
    on an occupied square the new object is dropped and the board is as
    before. *)
Lemma put_piece_occupied_or_empty (w : World) (c : Coord) (k : Kind) (t : Team) :
  let cr := chess_to_coord (to_both_coord c).1 in
  on_board cr ->
  (occupied (brd w) cr ->
     exists w', put_piece c k t w = (Raise ValueError, w') /\ brd w' = brd w)
  /\
  (~ occupied (brd w) cr ->
     exists w', put_piece c k t w = (Ok tt, w') /\
       brd w' = board_with (brd w) cr (next_ref w) /\
       heap w' (next_ref w) = new_piece k t (to_both_coord c).2).
Proof.
  intros cr Hon. subst cr. unfold put_piece.
  destruct (to_both_coord c) as [cxy pxy] eqn:E. simpl in *.
  unfold bind, alloc.
  split; intros Hocc.
  - eexists. rewrite setitem_occupied by (simpl; assumption). split; reflexivity.
  - eexists. rewrite setitem_empty by (simpl; assumption). split; [reflexivity|].
    split; [reflexivity|]. simpl. unfold heap_upd.
    destruct (decide (next_ref w = next_ref w)); congruence.
Qed.

Lemma place_king_run (w : World) (c : Coord) (t : Team) :
  place_king c t w =
    let r := next_ref w in
    let w1 := mkWorld (brd w)
                (heap_upd (heap w) r (new_piece King t (to_both_coord c).2)) (S r) in
    match __setitem__ (to_both_coord c).1 r w1 with
    | (Ok _, w2) =>
        (Ok tt, mkWorld (mkBoard (board (brd w2)) (_pieces (brd w2))
                           (kings_set (kings (brd w2)) t r) (en_passant (brd w2)))
                        (heap w2) (next_ref w2))
    | (Raise e, w2) => (Raise e, w2)
    end.
Proof.
  unfold place_king. destruct (to_both_coord c) as [cxy pxy]. simpl.
  unfold bind at 1. unfold alloc at 1. cbv beta iota. unfold bind at 1.
  destruct (__setitem__ cxy (next_ref w) _) as [[[]|e] w2]; reflexivity.
Qed.

(** C10. [place_king] on a square of the board: when the square is occupied
    the call raises and [kings], the grid and the piece map are as before
    (the insertion raises before [kings] is assigned); when the square is
    empty the call inserts a new King of the team and [kings[team]] is that
    King. *)
Theorem place_king_occupied_fails_empty_sets_king
    (w : World) (c : Coord) (t : Team) :
  let cr := chess_to_coord (to_both_coord c).1 in
  on_board cr ->
  (occupied (brd w) cr ->
     exists w', place_king c t w = (Raise ValueError, w') /\
       kings (brd w') = kings (brd w) /\
       board (brd w') = board (brd w) /\
       _pieces (brd w') = _pieces (brd w))
  /\
  (~ occupied (brd w) cr ->
     exists w' r, place_king c t w = (Ok tt, w') /\
       kings (brd w') t = Some r /\
       kings (brd w') (team_inv t) = kings (brd w) (team_inv t) /\
       board (brd w') !! cr = Some r /\
       dict_get (_pieces (brd w')) cr = Some r /\
       heap w' r = new_piece King t (to_both_coord c).2).
Proof.
  intros cr Hon. subst cr. split; intros Hocc.
  - eexists. rewrite place_king_run. cbv zeta.
    rewrite setitem_occupied by (simpl; assumption).
    split; [reflexivity|]. simpl. auto.
  - eexists _, (next_ref w). rewrite place_king_run. cbv zeta.
    rewrite setitem_empty by (simpl; assumption).
    split; [reflexivity|]. simpl.
    unfold kings_set, heap_upd.
    rewrite lookup_insert_eq, dict_get_set_eq.
    destruct (decide (t = t)); [|congruence].
    destruct (decide (team_inv t = t)) as [Ht|_]; [destruct t; discriminate|].
    destruct (decide (next_ref w = next_ref w)); [|congruence].
    auto 10.
Qed.

End Placement.

(** ** Reasoning about runs *)

Section Preservation.
Context (P : World -> Prop).

Lemma preserves_bind {A B} (m : M A) (f : A -> M B) :
  preserves P m -> (forall a, preserves P (f a)) -> preserves P (bind m f).
Proof.
  intros Hm Hf w res w' HP. unfold bind.
  destruct (m w) as [[a|e] w1] eqn:E; intros Hrun.
  - eapply Hf; [|exact Hrun]. eapply Hm; eauto.
  - inversion Hrun; subst. eapply Hm; eauto.
Qed.

Lemma preserves_ret {A} (a : A) : preserves P (ret a).
Proof. intros w res w' HP Hrun. inversion Hrun; subst. exact HP. Qed.

Lemma preserves_raise {A} (e : Exn) : preserves P (@raise A e).
Proof. intros w res w' HP Hrun. inversion Hrun; subst. exact HP. Qed.

Lemma preserves_lift_opt {A} (e : Exn) (o : option A) : preserves P (lift_opt e o).
Proof. destruct o; [apply preserves_ret | apply preserves_raise]. Qed.

(** Reading the state first: the continuation may use what it read. *)
Lemma preserves_get_world {B} (f : World -> M B) :
  (forall w res w', P w -> f w w = (res, w') -> P w') ->
  preserves P (bind get_world f).
Proof. intros Hf w res w' HP. unfold bind, get_world. apply Hf, HP. Qed.

Lemma preserves_get_world_any {B} (f : World -> M B) :
  (forall w, preserves P (f w)) -> preserves P (bind get_world f).
Proof. intros Hf. apply preserves_get_world. intros w res w'. apply Hf. Qed.

End Preservation.

Section Frames.
Context `{Misc} `{Pieces}.

Lemma remove_squares (pos : Position) (w : World) res w' :
  remove pos w = (res, w') -> same_but_squares w w'.
Proof.
  unfold remove, dict_pop, same_but_squares. unfold_monad.
  destruct (dict_get (_pieces (brd w)) pos); simpl;
    [destruct (grid_set (board (brd w)) pos None); simpl|];
    intros Hrun; inversion Hrun; subst; simpl; auto.
Qed.

Lemma setitem_squares (pos : Coord) (val : ref) (w : World) res w' :
  __setitem__ pos val w = (res, w') -> same_but_squares w w'.
Proof.
  unfold __setitem__, same_but_squares. unfold_monad.
  destruct (grid_get (board (brd w)) (chess_to_coord pos)); simpl;
    [destruct (bool_decide _ || bool_decide _); simpl;
     [|destruct (grid_set (board (brd w)) (chess_to_coord pos) (Some val)); simpl]|];
    intros Hrun; inversion Hrun; subst; simpl; auto.
Qed.

Section Blind.
Context (P : World -> Prop) (Hblind : squares_blind P).

Lemma blind_remove (pos : Position) : preserves P (remove pos).
Proof. intros w res w' HP Hrun. eapply Hblind; [eapply remove_squares|]; eauto. Qed.

Lemma blind_setitem (pos : Coord) (val : ref) : preserves P (__setitem__ pos val).
Proof. intros w res w' HP Hrun. eapply Hblind; [eapply setitem_squares|]; eauto. Qed.

Lemma closed_modify_piece (r : ref) (f : Piece -> Piece) :
  update_closed P r f -> preserves P (modify_piece r f).
Proof. intros Hf w res w' HP Hrun. inversion Hrun; subst. apply Hf, HP. Qed.

Lemma blind_destroy (piece : ref) :
  update_closed P piece piece_destroy -> preserves P (destroy piece).
Proof.
  intros Hf. unfold destroy. apply preserves_get_world_any. intros w.
  apply preserves_bind; [apply blind_remove|].
  intros _. apply closed_modify_piece, Hf.
Qed.

Lemma blind_move_place (piece : ref) (new_position : Coord) (npos : Position) :
  update_closed P piece (piece_set_position npos) ->
  preserves P (move_place piece new_position npos).
Proof.
  intros Hf. unfold move_place. apply preserves_get_world_any. intros w.
  apply preserves_bind; [apply blind_remove|]. intros _.
  apply preserves_bind; [apply closed_modify_piece, Hf|]. intros _.
  apply blind_setitem.
Qed.

End Blind.
End Frames.

(** ** The two representations of the board agree *)

Lemma dual_repr_new_board : dual_repr new_board.
Proof. split; simpl; intros pos; [apply lookup_empty | congruence]. Qed.

Section DualRepresentation.
Context `{Misc} `{Pieces}.

Lemma dual_repr_board_with (b : Board) (cr : Position) (val : ref) :
  on_board cr -> dual_repr b -> dual_repr (board_with b cr val).
Proof.
  intros Hon [Hag Hkeys]. split; simpl; intros pos.
  - rewrite lookup_insert, dict_get_set.
    destruct (decide (cr = pos)); [reflexivity | apply Hag].
  - rewrite dict_get_set. destruct (decide (cr = pos)) as [<-|]; auto.
Qed.

Lemma dual_repr_board_without (b : Board) (pos : Position) :
  dual_repr b -> dual_repr (board_without b pos).
Proof.
  intros [Hag Hkeys]. split; simpl; intros pos'.
  - rewrite lookup_delete, dict_get_del.
    destruct (decide (pos = pos')); [reflexivity | apply Hag].
  - rewrite dict_get_del. destruct (decide (pos = pos')); [congruence | auto].
Qed.

Lemma dual_modify_piece (r : ref) (f : Piece -> Piece) :
  preserves dual_ok (modify_piece r f).
Proof. intros w res w' HP Hrun. inversion Hrun; subst. exact HP. Qed.

Lemma dual_alloc (p : Piece) : preserves dual_ok (alloc p).
Proof. intros w res w' HP Hrun. inversion Hrun; subst. exact HP. Qed.

Lemma dual_set_en_passant ep : preserves dual_ok (set_en_passant ep).
Proof. intros w res w' HP Hrun. unfold_monad. inversion Hrun; subst. exact HP. Qed.

Lemma dual_setitem (pos : Coord) (val : ref) :
  on_board (chess_to_coord pos) -> preserves dual_ok (__setitem__ pos val).
Proof.
  intros Hon w res w' HP. rewrite setitem_run by assumption.
  destruct (bool_decide _ || bool_decide _); intros Hrun; inversion Hrun; subst.
  - exact HP.
  - apply dual_repr_board_with; assumption.
Qed.

Lemma dual_remove (pos : Position) : preserves dual_ok (remove pos).
Proof.
  intros w res w' HP.
  destruct (dict_get (_pieces (brd w)) pos) as [v|] eqn:Hg.
  - rewrite remove_run by (apply HP; congruence). rewrite Hg.
    intros Hrun; inversion Hrun; subst.
    apply dual_repr_board_without, HP.
  - rewrite remove_absent by assumption.
    intros Hrun; inversion Hrun; subst. exact HP.
Qed.

Lemma dual_destroy (piece : ref) : preserves dual_ok (destroy piece).
Proof.
  unfold destroy. apply preserves_get_world_any. intros w.
  apply preserves_bind; [apply dual_remove|].
  intros _. apply dual_modify_piece.
Qed.

Lemma dual_destroy_opt (piece : option ref) : preserves dual_ok (destroy_opt piece).
Proof. destruct piece; [apply dual_destroy | apply preserves_raise]. Qed.

Lemma dual_record_en_passant (piece : ref) :
  preserves dual_ok (record_en_passant piece).
Proof.
  unfold record_en_passant. apply preserves_get_world_any. intros w.
  apply preserves_bind; [apply preserves_lift_opt|].
  intros ms. apply dual_set_en_passant.
Qed.

Lemma dual_move_capture (piece : ref) (npos : Position) :
  preserves dual_ok (move_capture piece npos).
Proof.
  unfold move_capture. apply preserves_get_world_any. intros w.
  destruct (decide (kind (heap w piece) = Pawn)).
  - apply preserves_bind; [|intros _; apply dual_record_en_passant].
    destruct (decide _); [apply dual_destroy_opt | apply preserves_ret].
  - apply preserves_bind; [apply dual_set_en_passant|]. intros _.
    destruct (dict_get _ npos); [apply dual_destroy | apply preserves_ret].
Qed.

Lemma dual_move_place (piece : ref) (new_position : Coord) (npos : Position) :
  on_board (chess_to_coord new_position) ->
  preserves dual_ok (move_place piece new_position npos).
Proof.
  intros Hon. unfold move_place. apply preserves_get_world_any. intros w.
  apply preserves_bind; [apply dual_remove|]. intros _.
  apply preserves_bind; [apply dual_modify_piece|]. intros _.
  apply dual_setitem, Hon.
Qed.

Lemma dual_move (piece : ref) (new_position : Coord) :
  on_board (chess_to_coord new_position) ->
  preserves dual_ok (move piece new_position).
Proof.
  intros Hon. unfold move.
  apply preserves_bind; [apply dual_move_capture|]. intros _.
  apply dual_move_place, Hon.
Qed.

Lemma dual_put_piece (c : Coord) (k : Kind) (t : Team) :
  on_board (chess_to_coord (to_both_coord c).1) ->
  preserves dual_ok (put_piece c k t).
Proof.
  unfold put_piece. destruct (to_both_coord c) as [cxy pxy]. simpl. intros Hon.
  apply preserves_bind; [apply dual_alloc|]. intros r.
  apply dual_setitem, Hon.
Qed.

Lemma dual_place_king (c : Coord) (t : Team) :
  on_board (chess_to_coord (to_both_coord c).1) ->
  preserves dual_ok (place_king c t).
Proof.
  unfold place_king. destruct (to_both_coord c) as [cxy pxy]. simpl. intros Hon.
  apply preserves_bind; [apply dual_alloc|]. intros r.
  apply preserves_bind; [apply dual_setitem, Hon|]. intros _.
  apply preserves_get_world.
  intros w res w' HP Hrun. unfold_monad. inversion Hrun; subst. exact HP.
Qed.

(** Why the placement square has to be on the board: numpy takes a negative
    index from the end of the axis while the dictionary keeps the key as it
    is, so a placement at column -1 of an empty board writes the grid cell of
    column 7 and the map entry of column -1. *)
Lemma setitem_negative_index_wraps (h : ref -> Piece) (n : ref) (pos : Coord)
    (val : ref) (row : Z) :
  chess_to_coord pos = (-1, row) -> 0 <= row < 8 ->
  exists w', __setitem__ pos val (mkWorld new_board h n) = (Ok tt, w') /\
    board (brd w') !! (7, row) = Some val /\
    dict_get (_pieces (brd w')) (7, row) = None /\
    dict_get (_pieces (brd w')) (-1, row) = Some val /\
    ~ dual_repr (brd w').
Proof.
  intros Hcr Hrow. unfold __setitem__. unfold_monad. rewrite Hcr.
  unfold grid_get, grid_set, np_index2, np_index. simpl.
  destruct (decide (0 <= row < 8)); [|lia]. simpl.
  eexists. split; [reflexivity|]. simpl.
  assert (board_get : (<[(7, row) := val]> (∅ : gmap (Z * Z) nat)) !! (7, row)
                      = Some val) by apply lookup_insert_eq.
  split; [exact board_get|].
  split; [destruct (decide ((-1, row) = (7, row))); congruence|].
  split; [destruct (decide ((-1, row) = (-1, row))); congruence|].
  intros [Hag _]. specialize (Hag (7, row)). simpl in Hag.
  change (<[(7, row) := val]> (∅ : gmap (Z * Z) nat) !! (7, row)
          = (if decide ((-1, row) = (7, row)) then Some val else None)) in Hag.
  rewrite board_get in Hag.
  destruct (decide ((-1, row) = (7, row))); congruence.
Qed.

Lemma dual_run_mutation (m : Mutation) :
  (forall sq, placement_square m = Some sq -> on_board sq) ->
  preserves dual_ok (run_mutation m).
Proof.
  intros Hsq. destruct m; simpl in *.
  - apply dual_setitem; auto.
  - apply dual_put_piece; auto.
  - apply dual_place_king; auto.
  - apply dual_remove.
  - apply dual_move; auto.
Qed.

(** C7. The grid and the piece map agree after every successful mutation
    (placement, [place_king], [remove], [move]) of a board on which they
    agree, when the mutation places its piece on a square of the board: a
    position holds a piece in the grid if and only if the piece map has an
    entry for it, and the entry is that piece. *)
Theorem mutations_keep_dual_representation (m : Mutation) (w w' : World) :
  dual_repr (brd w) ->
  (forall sq, placement_square m = Some sq -> on_board sq) ->
  run_mutation m w = (Ok tt, w') ->
  dual_repr (brd w') /\
  forall pos r, board (brd w') !! pos = Some r <->
                dict_get (_pieces (brd w')) pos = Some r.
Proof.
  intros HP Hsq Hrun.
  assert (dual_repr (brd w')) as HP'
    by exact (dual_run_mutation m Hsq w (Ok tt) w' HP Hrun).
  split; [exact HP'|]. intros pos r. destruct HP' as [Hag _].
  rewrite Hag. reflexivity.
Qed.

End DualRepresentation.

(** ** [move]: the en-passant record *)

Section EnPassantRecord.
Context `{Misc} `{Pieces}.

Lemma ep_is_blind X : squares_blind (ep_is X).
Proof. intros w w' (_ & _ & _ & Hep) HP. unfold ep_is in *. congruence. Qed.

Lemma ep_is_closed X r f : update_closed (ep_is X) r f.
Proof. intros w HP. exact HP. Qed.

Lemma attrs_are_blind p k pos ms : squares_blind (attrs_are p k pos ms).
Proof. intros w w' (Hh & _) HP. unfold attrs_are in *. rewrite Hh. exact HP. Qed.

Lemma attrs_are_destroy p k pos ms r :
  update_closed (attrs_are p k pos ms) r piece_destroy.
Proof.
  intros w HP. unfold attrs_are, heap_upd in *. simpl.
  destruct (decide (p = r)) as [->|]; simpl; exact HP.
Qed.

Lemma set_en_passant_run ep (w : World) :
  set_en_passant ep w =
    (Ok tt, mkWorld (mkBoard (board (brd w)) (_pieces (brd w)) (kings (brd w)) ep)
                    (heap w) (next_ref w)).
Proof. reflexivity. Qed.

Lemma record_en_passant_run (p : ref) (w : World) :
  record_en_passant p w =
    match move_set (heap w p) (position (heap w p)) with
    | Some ms =>
        (Ok tt, mkWorld (mkBoard (board (brd w)) (_pieces (brd w)) (kings (brd w))
                           (head ms, Some p))
                        (heap w) (next_ref w))
    | None => (Raise KeyError, w)
    end.
Proof.
  unfold record_en_passant. unfold_monad.
  destruct (move_set (heap w p) (position (heap w p))); reflexivity.
Qed.

(** After the first part of the move of a piece that is not a pawn the
    record is cleared. *)
Lemma move_capture_clears (p : ref) (npos : Position) (w : World) res w' :
  kind (heap w p) <> Pawn ->
  move_capture p npos w = (res, w') -> en_passant (brd w') = (None, None).
Proof.
  intros Hk. unfold move_capture. unfold bind at 1. unfold get_world at 1.
  destruct (decide (kind (heap w p) = Pawn)); [contradiction|].
  unfold bind at 1. rewrite set_en_passant_run.
  destruct (dict_get (_pieces (brd w)) npos) as [occ|]; intros Hrun.
  - eapply (blind_destroy (ep_is (None, None)));
      [apply ep_is_blind | apply ep_is_closed | | exact Hrun]. reflexivity.
  - inversion Hrun; subst. reflexivity.
Qed.

(** After the first part of a pawn's move, if it completes, the record holds
    the first square of the pawn's [move_set] entry for the square it is
    about to leave. *)
Lemma move_capture_records (p : ref) (npos : Position) (w w' : World) :
  kind (heap w p) = Pawn ->
  move_capture p npos w = (Ok tt, w') ->
  exists ms, move_set (heap w p) (position (heap w p)) = Some ms /\
             en_passant (brd w') = (head ms, Some p).
Proof.
  intros Hk. unfold move_capture. unfold bind at 1. unfold get_world at 1.
  destruct (decide (kind (heap w p) = Pawn)); [|contradiction].
  unfold bind at 1.
  destruct ((if decide (Some npos = (en_passant (brd w)).1)
             then destroy_opt (en_passant (brd w)).2 else ret tt) w)
    as [[[]|e1] w1] eqn:Hfirst; [|discriminate].
  assert (attrs_are p Pawn (position (heap w p)) (move_set (heap w p)) w1)
    as (_ & Hpos & Hms).
  { destruct (decide (Some npos = (en_passant (brd w)).1)).
    - destruct ((en_passant (brd w)).2) as [q|]; simpl in Hfirst; [|discriminate].
      eapply (blind_destroy _ (attrs_are_blind _ _ _ _) q);
        [apply attrs_are_destroy | | exact Hfirst].
      unfold attrs_are; auto.
    - inversion Hfirst; subst. unfold attrs_are; auto. }
  rewrite record_en_passant_run, Hpos, Hms.
  destruct (move_set (heap w p) (position (heap w p))) as [ms|]; [|discriminate].
  intros Hrun; inversion Hrun; subst. exists ms. auto.
Qed.

(** The second part of the move does not touch the record. *)
Lemma move_place_keeps_en_passant (p : ref) (dst : Coord) (npos : Position)
    (w : World) res w' :
  move_place p dst npos w = (res, w') -> en_passant (brd w') = en_passant (brd w).
Proof.
  intros Hrun.
  eapply (blind_move_place (ep_is (en_passant (brd w))));
    [apply ep_is_blind | apply ep_is_closed | | exact Hrun]. reflexivity.
Qed.

(** A completed move of a pawn leaves the record set from its [move_set]. *)
Lemma pawn_move_records (w w' : World) (p : ref) (dst : Coord) :
  kind (heap w p) = Pawn ->
  move p dst w = (Ok tt, w') ->
  exists ms, move_set (heap w p) (position (heap w p)) = Some ms /\
             en_passant (brd w') = (head ms, Some p).
Proof.
  intros Hk. unfold move, bind.
  destruct (move_capture p (to_coord dst) w) as [[[]|e] w1] eqn:Hc; [|discriminate].
  intros Hrun. apply move_place_keeps_en_passant in Hrun. rewrite Hrun.
  eapply move_capture_records; eauto.
Qed.

(** Two completed moves of the same pawn from the same state leave the same
    record, wherever they go. *)
Lemma en_passant_ignores_destination
    (w : World) (p : ref) (d1 d2 : Coord) (w1 w2 : World) :
  kind (heap w p) = Pawn ->
  move p d1 w = (Ok tt, w1) -> move p d2 w = (Ok tt, w2) ->
  en_passant (brd w1) = en_passant (brd w2).
Proof.
  intros Hk H1 H2.
  destruct (pawn_move_records w w1 p d1 Hk H1) as (ms1 & Hm1 & ->).
  destruct (pawn_move_records w w2 p d2 Hk H2) as (ms2 & Hm2 & ->).
  congruence.
Qed.

(** C3, as the code has it. [move] overwrites [en_passant] in the same
    operation: a move of a piece that is not a pawn leaves it cleared to
    [(None, None)], whether or not the move completes; a completed move of a
    pawn leaves in it the first square of the pawn's [move_set] entry for the
    square it left ([None] when that entry is empty) together with the pawn.
    The destination is not consulted. *)
Theorem move_overwrites_en_passant
    (w : World) (p : ref) (dst : Coord) (res : Res unit) (w' : World) :
  move p dst w = (res, w') ->
  (kind (heap w p) <> Pawn -> en_passant (brd w') = (None, None)) /\
  (kind (heap w p) = Pawn -> res = Ok tt ->
     exists ms, move_set (heap w p) (position (heap w p)) = Some ms /\
                en_passant (brd w') = (head ms, Some p)).
Proof.
  unfold move, bind.
  destruct (move_capture p (to_coord dst) w) as [[[]|e] w1] eqn:Hc; intros Hrun.
  - (* the first part completed; the second keeps the record *)
    apply move_place_keeps_en_passant in Hrun. rewrite Hrun. split.
    + intros Hk. eapply move_capture_clears; eauto.
    + intros Hk _. eapply move_capture_records; eauto.
  - (* the first part raised *)
    inversion Hrun; subst. split.
    + intros Hk. eapply move_capture_clears; eauto.
    + intros _ Hok. discriminate.
Qed.

End EnPassantRecord.

(** ** [move]: captures *)

Section Captures.
Context `{Misc} `{Pieces}.

Lemma dead_blind q : squares_blind (dead q).
Proof. intros w w' (Hh & _) HP. unfold dead in *. rewrite Hh. exact HP. Qed.

Lemma dead_destroy q r : update_closed (dead q) r piece_destroy.
Proof.
  intros w HP. unfold dead, heap_upd in *. simpl.
  destruct (decide (q = r)); [reflexivity | exact HP].
Qed.

Lemma dead_set_position q r npos : update_closed (dead q) r (piece_set_position npos).
Proof.
  intros w HP. unfold dead, heap_upd in *. simpl.
  destruct (decide (q = r)) as [->|]; simpl; exact HP.
Qed.

Lemma remove_map (pos : Position) (w : World) res w' :
  remove pos w = (res, w') ->
  _pieces (brd w') = _pieces (brd w) \/
  _pieces (brd w') = dict_del (_pieces (brd w)) pos.
Proof.
  unfold remove, dict_pop. unfold_monad.
  destruct (dict_get (_pieces (brd w)) pos); simpl;
    [destruct (grid_set (board (brd w)) pos None); simpl|];
    intros Hrun; inversion Hrun; subst; simpl; auto.
Qed.

Lemma setitem_map (pos : Coord) (val : ref) (w : World) res w' :
  __setitem__ pos val w = (res, w') ->
  _pieces (brd w') = _pieces (brd w) \/
  _pieces (brd w') = dict_set (_pieces (brd w)) (chess_to_coord pos) val.
Proof.
  unfold __setitem__. unfold_monad.
  destruct (grid_get (board (brd w)) (chess_to_coord pos)); simpl;
    [destruct (bool_decide _ || bool_decide _); simpl;
     [|destruct (grid_set (board (brd w)) (chess_to_coord pos) (Some val)); simpl]|];
    intros Hrun; inversion Hrun; subst; simpl; auto.
Qed.

Lemma absent_remove q pos : preserves (absent q) (remove pos).
Proof.
  intros w res w' HP Hrun pos'. apply remove_map in Hrun as [-> | ->]; [apply HP|].
  rewrite dict_get_del. destruct (decide (pos = pos')); [congruence | apply HP].
Qed.

Lemma absent_setitem q pos val : val <> q -> preserves (absent q) (__setitem__ pos val).
Proof.
  intros Hne w res w' HP Hrun pos'. apply setitem_map in Hrun as [-> | ->]; [apply HP|].
  rewrite dict_get_set. destruct (decide (_ = pos')); [congruence | apply HP].
Qed.

Lemma absent_same_map q (w w' : World) :
  _pieces (brd w') = _pieces (brd w) -> absent q w -> absent q w'.
Proof. intros Heq HP pos. rewrite Heq. apply HP. Qed.

Lemma absent_record_en_passant q p : preserves (absent q) (record_en_passant p).
Proof.
  intros w res w' HP. rewrite record_en_passant_run.
  destruct (move_set _ _); intros Hrun; inversion Hrun; subst; exact HP.
Qed.

Lemma absent_move_place q p dst npos :
  p <> q -> preserves (absent q) (move_place p dst npos).
Proof.
  intros Hne. unfold move_place. apply preserves_get_world_any. intros w.
  apply preserves_bind; [apply absent_remove|]. intros _.
  apply preserves_bind.
  - intros w0 res w' HP Hrun. inversion Hrun; subst. exact HP.
  - intros _. apply absent_setitem, Hne.
Qed.

Lemma destroy_run (q : ref) (w : World) :
  on_board (position (heap w q)) ->
  dict_get (_pieces (brd w)) (position (heap w q)) <> None ->
  destroy q w =
    (Ok tt, mkWorld (board_without (brd w) (position (heap w q)))
                    (heap_upd (heap w) q (piece_destroy (heap w q))) (next_ref w)).
Proof.
  intros Hon Hg. unfold destroy. unfold bind at 1. unfold get_world at 1.
  unfold bind. rewrite remove_run by assumption.
  destruct (dict_get (_pieces (brd w)) (position (heap w q))); [reflexivity | congruence].
Qed.

(** A piece that stands on no square cannot be moved: its removal raises. *)
Lemma move_place_off_board (p : ref) (dst : Coord) (npos : Position) (w : World) :
  dict_get (_pieces (brd w)) (position (heap w p)) = None ->
  move_place p dst npos w = (Raise KeyError, w).
Proof.
  intros Hg. unfold move_place. unfold bind at 1. unfold get_world at 1.
  unfold bind at 1. rewrite remove_absent by assumption. reflexivity.
Qed.

(** C5. A pawn [p] moves to the square recorded in [en_passant], and the
    recorded pawn [q] stands on the board: [move] first destroys [q] (it
    leaves the grid and the piece map and is no longer live, while [p] has
    not moved and [en_passant] is still as before), the rest of the move
    runs from that state, and whatever comes of it [q] stays destroyed and
    off the piece map, although [p] was not sent to [q]'s square. *)
Theorem en_passant_capture_destroys_recorded_pawn
    (w : World) (p q : ref) (dst : Coord) :
  kind (heap w p) = Pawn ->
  en_passant (brd w) = (Some (to_coord dst), Some q) ->
  dual_repr (brd w) ->
  positions_ok w ->
  dict_get (_pieces (brd w)) (position (heap w q)) = Some q ->
  exists w1,
    destroy q w = (Ok tt, w1) /\
    alive (heap w1 q) = false /\
    dict_get (_pieces (brd w1)) (position (heap w q)) = None /\
    board (brd w1) !! position (heap w q) = None /\
    position (heap w1 p) = position (heap w p) /\
    en_passant (brd w1) = en_passant (brd w) /\
    move p dst w =
      (record_en_passant p ;;; move_place p dst (to_coord dst)) w1 /\
    forall res w', move p dst w = (res, w') ->
      alive (heap w' q) = false /\
      forall pos, dict_get (_pieces (brd w')) pos <> Some q.
Proof.
  intros Hk Hep Hdual Hpos Hq.
  assert (on_board (position (heap w q))) as Hon
    by (apply Hdual; congruence).
  pose (w1 := mkWorld (board_without (brd w) (position (heap w q)))
                      (heap_upd (heap w) q (piece_destroy (heap w q))) (next_ref w)).
  assert (destroy q w = (Ok tt, w1))
    as Hd by (apply destroy_run; [assumption | congruence]).
  exists w1. split; [exact Hd|].
  assert (move p dst w =
      (record_en_passant p ;;; move_place p dst (to_coord dst)) w1)
    as Hmove.
  { unfold move. unfold bind at 1. unfold move_capture. unfold bind at 1.
    unfold get_world at 1.
    destruct (decide (kind (heap w p) = Pawn)); [|contradiction].
    unfold bind at 1. rewrite Hep. simpl.
    destruct (decide (Some (to_coord dst) = Some (to_coord dst))); [|congruence].
    rewrite Hd. reflexivity. }
  assert (alive (heap w1 q) = false) as Hdead.
  { simpl. unfold heap_upd. destruct (decide (q = q)); [reflexivity | congruence]. }
  assert (position (heap w1 p) = position (heap w p)) as Hp.
  { simpl. unfold heap_upd. destruct (decide (p = q)) as [->|]; reflexivity. }
  assert (dict_get (_pieces (brd w1)) (position (heap w q)) = None) as Hgone.
  { simpl. rewrite dict_get_del. case_decide; congruence. }
  assert (absent q w1) as Habs.
  { intros pos. simpl. rewrite dict_get_del.
    destruct (decide (position (heap w q) = pos)) as [<-|Hpq]; [congruence|].
    intros Hc. apply Hpos in Hc. congruence. }
  split; [exact Hdead|].
  split; [exact Hgone|].
  split; [simpl; apply lookup_delete_eq|].
  split; [exact Hp|].
  split; [reflexivity|].
  split; [exact Hmove|].
  intros res w' Hrun. rewrite Hmove in Hrun.
  destruct (decide (p = q)) as [->|Hne].
  - (* the recorded pawn itself: once destroyed it cannot be placed *)
    unfold bind in Hrun. rewrite record_en_passant_run in Hrun.
    destruct (move_set (heap w1 q) (position (heap w1 q))).
    + rewrite move_place_off_board in Hrun
        by (change (dict_get (_pieces (brd w1)) (position (heap w1 q)) = None);
            rewrite Hp; exact Hgone).
      inversion Hrun; subst. split; [exact Hdead | exact Habs].
    + inversion Hrun; subst. split; [exact Hdead | exact Habs].
  - split.
    + eapply (preserves_bind (dead q)); [| | | exact Hrun].
      * intros w0 res0 w0' HP. rewrite record_en_passant_run.
        destruct (move_set _ _); intros Hr; inversion Hr; subst; exact HP.
      * intros ?. apply (blind_move_place (dead q) (dead_blind q)), dead_set_position.
      * exact Hdead.
    + eapply (preserves_bind (absent q)); [| | | exact Hrun].
      * apply absent_record_en_passant.
      * intros ?. apply absent_move_place, Hne.
      * exact Habs.
Qed.

End Captures.

(** ** [move]: where the piece ends up *)

Section MoveResult.
Context `{Misc} `{Pieces}.

Lemma attrs_are_set_en_passant p k pos ms ep :
  preserves (attrs_are p k pos ms) (set_en_passant ep).
Proof. intros w res w' HP Hrun. inversion Hrun; subst. exact HP. Qed.

(** The first part of [move] changes no attribute that the second part
    reads. *)
Lemma attrs_are_move_capture p k pos ms piece npos :
  preserves (attrs_are p k pos ms) (move_capture piece npos).
Proof.
  unfold move_capture. apply preserves_get_world_any. intros w.
  destruct (decide (kind (heap w piece) = Pawn)).
  - apply preserves_bind.
    + destruct (decide _); [|apply preserves_ret].
      destruct ((en_passant (brd w)).2); [|apply preserves_raise].
      apply blind_destroy; [apply attrs_are_blind | apply attrs_are_destroy].
    + intros _. unfold record_en_passant. apply preserves_get_world_any. intros w0.
      apply preserves_bind; [apply preserves_lift_opt|].
      intros ms0. apply attrs_are_set_en_passant.
  - apply preserves_bind; [apply attrs_are_set_en_passant|]. intros _.
    destruct (dict_get _ npos); [|apply preserves_ret].
    apply blind_destroy; [apply attrs_are_blind | apply attrs_are_destroy].
Qed.

(** The second part of [move], when it completes on a well-formed board. *)
Lemma move_place_completed (p : ref) (dst : Coord) (npos : Position) (w w' : World) :
  dual_repr (brd w) ->
  on_board (chess_to_coord dst) ->
  move_place p dst npos w = (Ok tt, w') ->
  w' = mkWorld
         (board_with (board_without (brd w) (position (heap w p)))
                     (chess_to_coord dst) p)
         (heap_upd (heap w) p (piece_set_position npos (heap w p)))
         (next_ref w).
Proof.
  intros Hdual Hon. unfold move_place. unfold bind at 1. unfold get_world at 1.
  unfold bind at 1.
  destruct (dict_get (_pieces (brd w)) (position (heap w p))) as [v|] eqn:Hg.
  - rewrite remove_run by (apply Hdual; congruence). rewrite Hg.
    unfold bind at 1. unfold modify_piece at 1.
    rewrite setitem_run by assumption.
    destruct (bool_decide _ || bool_decide _); intros Hrun; inversion Hrun.
    reflexivity.
  - rewrite remove_absent by assumption. discriminate.
Qed.

(** Whenever [move] completes on a well-formed board, for a destination on
    the board on which the two conversions agree and which is not the
    piece's own square: the piece's position is the destination, it holds
    the destination in the grid and in the piece map, and its old square is
    empty in both. *)
Lemma move_completed_places_piece (w w' : World) (p : ref) (dst : Coord) :
  dual_repr (brd w) ->
  chess_to_coord dst = to_coord dst ->
  on_board (to_coord dst) ->
  position (heap w p) <> to_coord dst ->
  move p dst w = (Ok tt, w') ->
  position (heap w' p) = to_coord dst /\
  board (brd w') !! to_coord dst = Some p /\
  dict_get (_pieces (brd w')) (to_coord dst) = Some p /\
  board (brd w') !! position (heap w p) = None /\
  dict_get (_pieces (brd w')) (position (heap w p)) = None.
Proof.
  intros Hdual Hconv Hon Hne. unfold move, bind.
  destruct (move_capture p (to_coord dst) w) as [[[]|e] w1] eqn:Hc; [|discriminate].
  intros Hrun.
  assert (dual_ok w1) as Hdual1 by (eapply dual_move_capture; eauto).
  assert (attrs_are p (kind (heap w p)) (position (heap w p)) (move_set (heap w p)) w1)
    as (_ & Hpos & _).
  { eapply attrs_are_move_capture; [|exact Hc]. unfold attrs_are; auto. }
  apply move_place_completed in Hrun; [|assumption|rewrite Hconv; assumption].
  subst w'. simpl. rewrite Hconv, Hpos. unfold heap_upd.
  destruct (decide (p = p)); [|congruence]. simpl.
  rewrite lookup_insert_eq, dict_get_set_eq.
  rewrite lookup_insert_ne, dict_get_set_ne by congruence.
  rewrite lookup_delete_eq, dict_get_del.
  destruct (decide (position (heap w p) = position (heap w p))); [|congruence].
  auto.
Qed.

(** A capture by a piece that is not a pawn completes: the occupant is
    destroyed first, then the piece is moved. *)
Lemma non_pawn_capture_completes (w : World) (p q : ref) (dst : Coord) :
  kind (heap w p) <> Pawn ->
  dual_repr (brd w) ->
  chess_to_coord dst = to_coord dst ->
  dict_get (_pieces (brd w)) (position (heap w p)) = Some p ->
  dict_get (_pieces (brd w)) (to_coord dst) = Some q ->
  position (heap w q) = to_coord dst ->
  p <> q ->
  exists w',
    move p dst w = (Ok tt, w') /\
    alive (heap w' q) = false /\
    position (heap w' p) = to_coord dst /\
    board (brd w') !! to_coord dst = Some p /\
    dict_get (_pieces (brd w')) (to_coord dst) = Some p /\
    board (brd w') !! position (heap w p) = None /\
    dict_get (_pieces (brd w')) (position (heap w p)) = None.
Proof.
  intros Hk Hdual Hconv Hp Hq Hqpos Hne.
  assert (on_board (to_coord dst)) as Hon by (apply Hdual; congruence).
  assert (on_board (position (heap w p))) as Honp by (apply Hdual; congruence).
  assert (position (heap w p) <> to_coord dst) as Hsq by congruence.
  pose (w0 := mkWorld (mkBoard (board (brd w)) (_pieces (brd w)) (kings (brd w))
                         (None, None)) (heap w) (next_ref w)).
  pose (w1 := mkWorld (board_without (brd w0) (to_coord dst))
                (heap_upd (heap w) q (piece_destroy (heap w q))) (next_ref w)).
  assert (move_capture p (to_coord dst) w = (Ok tt, w1)) as Hc.
  { unfold move_capture. unfold bind at 1. unfold get_world at 1.
    destruct (decide (kind (heap w p) = Pawn)); [contradiction|].
    unfold bind at 1. rewrite set_en_passant_run. rewrite Hq.
    rewrite destroy_run; simpl; rewrite Hqpos; [reflexivity | assumption | congruence]. }
  pose (w' := mkWorld
                (board_with (board_without (brd w1) (position (heap w p)))
                            (to_coord dst) p)
                (heap_upd (heap w1) p (piece_set_position (to_coord dst) (heap w1 p)))
                (next_ref w)).
  assert (heap w1 p = heap w p) as Hhp.
  { simpl. unfold heap_upd. destruct (decide (p = q)); [contradiction | reflexivity]. }
  assert (move p dst w = (Ok tt, w')) as Hm.
  { unfold move. unfold bind at 1. rewrite Hc.
    unfold move_place. unfold bind at 1. unfold get_world at 1.
    unfold bind at 1. rewrite Hhp.
    rewrite remove_run by assumption.
    replace (dict_get (_pieces (brd w1)) (position (heap w p))) with (Some p)
      by (simpl; rewrite dict_get_del; case_decide; congruence).
    unfold bind at 1. unfold modify_piece at 1.
    rewrite setitem_run by (rewrite Hconv; assumption).
    rewrite Hconv. simpl.
    rewrite lookup_delete_ne by congruence. rewrite lookup_delete_eq.
    rewrite !dict_get_del.
    destruct (decide (position (heap w p) = to_coord dst)); [contradiction|].
    destruct (decide (to_coord dst = to_coord dst)); [|congruence].
    reflexivity. }
  exists w'. split; [exact Hm|].
  split.
  { simpl. unfold heap_upd. destruct (decide (q = p)); [congruence|].
    destruct (decide (q = q)); [reflexivity | congruence]. }
  eapply move_completed_places_piece; eauto.
Qed.

(** A capture by a pawn, other than of the pawn standing on the recorded
    en-passant square, never completes: the occupant is not destroyed, and
    the placement on its square raises. *)
Lemma pawn_capture_raises (w : World) (p q : ref) (dst : Coord) res w' :
  kind (heap w p) = Pawn ->
  (en_passant (brd w)).1 <> Some (to_coord dst) ->
  on_board (chess_to_coord dst) ->
  dict_get (_pieces (brd w)) (chess_to_coord dst) = Some q ->
  position (heap w p) <> chess_to_coord dst ->
  move p dst w = (res, w') ->
  res <> Ok tt /\
  dict_get (_pieces (brd w')) (chess_to_coord dst) = Some q /\
  alive (heap w' q) = alive (heap w q).
Proof.
  intros Hk Hep Hon Hq Hsq.
  unfold move. unfold bind at 1. unfold move_capture. unfold bind at 1.
  unfold get_world at 1.
  destruct (decide (kind (heap w p) = Pawn)); [|contradiction].
  unfold bind at 1.
  destruct (decide (Some (to_coord dst) = (en_passant (brd w)).1)); [congruence|].
  unfold ret at 1. rewrite record_en_passant_run.
  destruct (move_set (heap w p) (position (heap w p))) as [ms|].
  2:{ intros Hrun; inversion Hrun; subst. split; [discriminate | auto]. }
  unfold move_place. unfold bind at 1. unfold get_world at 1. simpl.
  unfold bind at 1.
  match goal with |- context [remove ?pos ?w0] =>
    destruct (remove pos w0) as [[[]|e1] w2] eqn:Hr end.
  2:{ intros Hrun; inversion Hrun; subst. split; [discriminate|].
      pose proof (remove_squares _ _ _ _ Hr) as (Hh & _).
      apply remove_map in Hr as [-> | ->]; simpl; rewrite Hh; simpl.
      - auto.
      - rewrite dict_get_del. case_decide; [contradiction | auto]. }
  pose proof (remove_squares _ _ _ _ Hr) as (Hh & _). simpl in Hh.
  assert (dict_get (_pieces (brd w2)) (chess_to_coord dst) = Some q) as Hq2.
  { apply remove_map in Hr as [-> | ->]; simpl; [assumption|].
    rewrite dict_get_del. case_decide; [contradiction | assumption]. }
  unfold bind at 1. unfold modify_piece at 1.
  rewrite setitem_occupied; [| assumption | right; simpl; congruence].
  intros Hrun; inversion Hrun; subst. simpl.
  split; [discriminate|]. split; [assumption|].
  rewrite Hh. unfold heap_upd.
  destruct (decide (q = p)) as [->|]; reflexivity.
Qed.

End MoveResult.

(** ** [get_attackers] *)

Section Attackers.
Context `{Pieces}.

(** What the loop body appends: the piece of the entry, and for a Knight or
    a Pawn the singleton of the entry's key. *)
Lemma attacker_entry_inv (w : World) (tm : Team) (ph : Phantoms)
    (pos : Position) (r r' : ref) (s : PosSet) :
  attacker_entry w tm ph pos r = Some (r', s) ->
  r' = r /\
  (kind (heap w r) = Knight \/ kind (heap w r) = Pawn -> s = {[pos]}).
Proof.
  unfold attacker_entry.
  repeat (match goal with
          | |- context [bool_decide ?P && _] =>
              destruct (bool_decide_reflect P); simpl
          | |- context [if bool_decide ?P then _ else _] =>
              destruct (bool_decide_reflect P); simpl
          end);
    intros Hs; inversion Hs; subst; (split; [reflexivity|]);
    intros [Hk|Hk]; try reflexivity;
    repeat match goal with
           | Ho : _ \/ _ |- _ => destruct Ho
           end; congruence.
Qed.

Lemma attackers_loop_ok (w : World) (tm : Team) (ph : Phantoms)
    (entries : dict ref) (acc : list (ref * PosSet)) :
  (forall e, e ∈ entries -> e ∈ _pieces (brd w)) ->
  (length acc < 2)%nat -> Forall (attacker_ok w) acc ->
  let l := attackers_loop w tm ph entries acc in
  (length l <= 2)%nat /\ Forall (attacker_ok w) l.
Proof.
  revert acc. induction entries as [|[pos r] rest IH]; intros acc Hsub Hlen Hacc; simpl.
  - split; [lia | assumption].
  - assert (forall e, e ∈ rest -> e ∈ _pieces (brd w)) as Hsub'
      by (intros e He; apply Hsub; right; exact He).
    destruct (bool_decide_reflect (team (heap w r) = tm)) as [|Hteam]; simpl;
      [apply IH; assumption|].
    destruct (bool_decide_reflect (kind (heap w r) = King)) as [|Hking]; simpl;
      [apply IH; assumption|].
    destruct (attacker_entry w tm ph pos r) as [[r' s]|] eqn:Ha.
    + apply attacker_entry_inv in Ha as [-> Hs].
      assert (Forall (attacker_ok w) (acc ++ [(r, s)])) as Hacc'.
      { apply Forall_app. split; [assumption|]. apply Forall_singleton.
        split; [exact Hking|]. exists pos. split; [apply Hsub; left | exact Hs]. }
      destruct (decide (2 <= length (acc ++ [(r, s)]))%nat) as [Hge|Hlt].
      * split; [|assumption]. rewrite length_app in *. simpl in *. lia.
      * apply IH; [assumption | lia | assumption].
    + destruct (decide (2 <= length acc)%nat); [lia|].
      apply IH; assumption.
Qed.

(** The early [return]: once two attackers have been found in a prefix of
    the dictionary, what follows is not looked at. *)
Lemma attackers_loop_short_circuit (w : World) (tm : Team) (ph : Phantoms)
    (seen rest : dict ref) (acc : list (ref * PosSet)) :
  (length acc < 2)%nat ->
  length (attackers_loop w tm ph seen acc) = 2%nat ->
  attackers_loop w tm ph (seen ++ rest) acc = attackers_loop w tm ph seen acc.
Proof.
  revert acc. induction seen as [|[pos r] seen IH]; intros acc Hlen; simpl.
  - intros Hl. lia.
  - destruct (bool_decide (team (heap w r) = tm) || bool_decide (kind (heap w r) = King));
      [apply IH; assumption|].
    destruct (attacker_entry w tm ph pos r) as [a|].
    + destruct (decide (2 <= length (acc ++ [a]))%nat) as [Hge|Hlt]; [reflexivity|].
      apply IH. lia.
    + destruct (decide (2 <= length acc)%nat); [reflexivity|]. apply IH. assumption.
Qed.

(** C9. When [kings[team]] is set, [get_attackers(team)] returns a list of
    at most two entries; no entry is a King; and a Knight or Pawn among them
    is paired with exactly the singleton of the square it stands on in the
    piece map, which is its own [position] when every piece of the map
    stands on the square its [position] names. *)
Theorem get_attackers_at_most_two (w : World) (tm : Team) (k : ref) :
  kings (brd w) tm = Some k ->
  exists l, get_attackers w tm = Ok l /\
    (length l <= 2)%nat /\
    forall r s, (r, s) ∈ l ->
      kind (heap w r) <> King /\
      (kind (heap w r) = Knight \/ kind (heap w r) = Pawn ->
         (exists pos, (pos, r) ∈ _pieces (brd w) /\ s = {[pos]}) /\
         ((forall pos' r', (pos', r') ∈ _pieces (brd w) ->
             position (heap w r') = pos') ->
          s = {[position (heap w r)]})).
Proof.
  intros Hk. unfold get_attackers. rewrite Hk. simpl.
  eexists. split; [reflexivity|].
  pose proof (attackers_loop_ok w tm (phantoms w tm (position (heap w k)))
                (_pieces (brd w)) [] (fun e He => He)
                ltac:(simpl; lia) (Forall_nil_2 _)) as [Hlen Hall].
  split; [exact Hlen|].
  intros r s Hin. rewrite Forall_forall in Hall.
  destruct (Hall _ Hin) as [Hking (pos & Hpos & Hs)]. simpl in *.
  split; [exact Hking|]. intros Hkind. specialize (Hs Hkind). split.
  - exists pos. auto.
  - intros Hown. rewrite (Hown _ _ Hpos). exact Hs.
Qed.

End Attackers.

(** ** [legal_moves] *)

Section LegalMoves.
Context `{Pieces}.

Lemma team_ne_inv (t tm : Team) : t <> tm <-> t = team_inv tm.
Proof. destruct t, tm; simpl; split; congruence. Qed.

(** The danger zone gathered by the first loop of [legal_moves] is
    [get_danger_zone] of the other team. *)
Lemma raw_moves_danger_zone (w : World) (tm : Team) :
  (raw_moves w tm).2 = get_danger_zone w (team_inv tm).
Proof.
  unfold raw_moves, get_danger_zone.
  match goal with
  | |- (fold_left ?f ?l ?a).2 = fold_left ?g _ _ =>
      set (F := f); set (G := g);
      cut (forall entries acc, (fold_left F entries acc).2 = fold_left G entries acc.2);
      [intros Hc; apply (Hc l a)|]
  end.
  induction entries as [|e entries IH]; intros acc; simpl; [reflexivity|].
  rewrite IH. f_equal. unfold F, G.
  destruct (decide (team (heap w e.2) <> tm)) as [Hne|Heq];
    destruct (decide (team (heap w e.2) = team_inv tm)) as [Hi|Hi]; simpl;
    try reflexivity.
  - apply team_ne_inv in Hne. contradiction.
  - apply team_ne_inv in Hi. contradiction.
Qed.

(** The dictionaries built by [legal_moves] have every key once. *)
Lemma raw_moves_NoDup (w : World) (tm : Team) :
  NoDup (dict_keys (raw_moves w tm).1).
Proof.
  unfold raw_moves.
  match goal with
  | |- NoDup (dict_keys (fold_left ?f ?l ?a).1) =>
      set (F := f);
      cut (forall entries acc, NoDup (dict_keys acc.1) ->
             NoDup (dict_keys (fold_left F entries acc).1));
      [intros Hc; apply (Hc l a); constructor|]
  end.
  induction entries as [|e entries IH]; intros acc Hnd; simpl; [exact Hnd|].
  apply IH. unfold F.
  destruct (decide (team (heap w e.2) <> tm)); simpl;
    [assumption | apply dict_keys_set_NoDup, Hnd].
Qed.

Lemma apply_pins_keys (h : ref -> Piece) (pins : list (ref * PosSet))
    (pm pm' : dict PosSet) :
  apply_pins h pins pm = Ok pm' -> dict_keys pm' = dict_keys pm.
Proof.
  revert pm. induction pins as [|[p rs] pins IH]; intros pm; simpl.
  - intros Hrun; inversion Hrun; reflexivity.
  - destruct (dict_get pm (position (h p))) as [s|] eqn:Hg; [|discriminate].
    intros Hrun. apply IH in Hrun. rewrite Hrun.
    apply dict_keys_set_present. congruence.
Qed.

Lemma pinned_moves_NoDup (w : World) (tm : Team) (pm : dict PosSet) :
  pinned_moves w tm = Ok pm -> NoDup (dict_keys pm).
Proof.
  unfold pinned_moves. destruct (kings (brd w) tm); simpl; [|discriminate].
  intros Hrun. apply apply_pins_keys in Hrun. rewrite Hrun.
  apply raw_moves_NoDup.
Qed.

Lemma restrict_to_check_get (w : World) (kingpos : Position) (blocks : PosSet)
    (keys : list Position) (pm pm' : dict PosSet) :
  NoDup keys ->
  restrict_to_check w kingpos blocks keys pm = Ok pm' ->
  forall pos,
    dict_get pm' pos =
      if decide (pos ∈ keys /\ pos <> kingpos)
      then restricted w blocks pos <$> dict_get pm pos
      else dict_get pm pos.
Proof.
  revert pm. induction keys as [|k keys IH]; intros pm Hnd; simpl.
  - intros Hrun pos. inversion Hrun; subst.
    destruct (decide (pos ∈ @nil Position /\ pos <> kingpos)) as [[Hin _]|];
      [|reflexivity].
    apply elem_of_nil in Hin. contradiction.
  - apply NoDup_cons in Hnd as [Hk Hnd].
    assert (forall pm1 s2,
      restrict_to_check w kingpos blocks keys pm1 = Ok pm' ->
      k <> kingpos ->
      (forall pos, dict_get pm1 pos =
         if decide (k = pos) then Some s2 else dict_get pm pos) ->
      (forall s, dict_get pm k = Some s -> s2 = restricted w blocks k s) ->
      dict_get pm k <> None ->
      forall pos,
        dict_get pm' pos =
          if decide (pos ∈ k :: keys /\ pos <> kingpos)
          then restricted w blocks pos <$> dict_get pm pos
          else dict_get pm pos) as Hstep.
    { intros pm1 s2 Hrun Hkk Hpm1 Hs2 Hsome pos.
      rewrite (IH pm1 Hnd Hrun pos), Hpm1.
      destruct (decide (k = pos)) as [<-|Hne].
      - destruct (decide (k ∈ keys /\ k <> kingpos)) as [[? _]|]; [contradiction|].
        destruct (decide (k ∈ k :: keys /\ k <> kingpos)) as [|Hn].
        + destruct (dict_get pm k) as [s|]; [|congruence].
          simpl. f_equal. auto.
        + exfalso. apply Hn. split; [left | assumption].
      - destruct (decide (pos ∈ keys /\ pos <> kingpos)) as [[Hin Hp]|Hn];
          destruct (decide (pos ∈ k :: keys /\ pos <> kingpos)) as [[Hin' Hp']|Hn'];
          try reflexivity.
        + exfalso. apply Hn'. split; [right|]; assumption.
        + exfalso. apply Hn. split; [|assumption].
          apply elem_of_cons in Hin' as [->|]; [congruence | assumption]. }
    destruct (decide (k <> kingpos)) as [Hkk|Hkk].
    + destruct (dict_get pm k) as [s|] eqn:Hg; [|discriminate].
      unfold restricted, en_passant_added in *.
      destruct ((en_passant (brd w)).1) as [e|].
      * destruct (dict_get (_pieces (brd w)) k) as [r|]; [|discriminate].
        intros Hrun. eapply Hstep; [exact Hrun | assumption | | | congruence].
        -- intros pos. apply dict_get_set.
        -- intros s0 Hs0. inversion Hs0; subst.
           destruct (decide (kind (heap w r) = Pawn)); [reflexivity|].
           rewrite union_empty_r_L. reflexivity.
      * intros Hrun. eapply Hstep; [exact Hrun | assumption | | | congruence].
        -- intros pos. apply dict_get_set.
        -- intros s0 Hs0. inversion Hs0; subst.
           destruct (dict_get (_pieces (brd w)) k); rewrite union_empty_r_L;
             reflexivity.
    + intros Hrun pos. rewrite (IH pm Hnd Hrun pos).
      assert (k = kingpos) as -> by (destruct (decide (k = kingpos)); tauto).
      destruct (decide (pos ∈ keys /\ pos <> kingpos)) as [[Hin Hp]|Hn];
        destruct (decide (pos ∈ kingpos :: keys /\ pos <> kingpos)) as [[Hin' Hp']|Hn'];
        try reflexivity.
      * exfalso. apply Hn'. split; [right|]; assumption.
      * exfalso. apply Hn. split; [|assumption].
        apply elem_of_cons in Hin' as [->|]; [congruence | assumption].
Qed.

(** The result of [legal_moves], entry by entry, in terms of the move sets
    after the pins: with an attacker, every entry but the king's is cut down
    to the blocking and capturing squares and gets the en-passant square
    added if it is a pawn's; the king's entry loses the danger zone. *)
Lemma legal_moves_entries (w : World) (tm : Team) (pm : dict PosSet) :
  legal_moves w tm = Ok pm ->
  exists king pinned attackers,
    kings (brd w) tm = Some king /\
    pinned_moves w tm = Ok pinned /\
    get_attackers w tm = Ok attackers /\
    (forall pos, pos <> position (heap w king) ->
       dict_get pm pos =
         if decide (0 < length attackers)%nat
         then restricted w (block_moves w attackers) pos <$> dict_get pinned pos
         else dict_get pinned pos) /\
    exists s, dict_get pinned (position (heap w king)) = Some s /\
      dict_get pm (position (heap w king)) =
        Some (s ∖ get_danger_zone w (team_inv tm)).
Proof.
  unfold legal_moves.
  destruct (kings (brd w) tm) as [king|] eqn:Hk; simpl; [|discriminate].
  destruct (pinned_moves w tm) as [pinned|] eqn:Hp; simpl; [|discriminate].
  destruct (get_attackers w tm) as [attackers|] eqn:Ha; simpl; [|discriminate].
  pose proof (pinned_moves_NoDup _ _ _ Hp) as Hnd.
  destruct (decide (0 < length attackers)%nat) as [Hlen|Hlen].
  - destruct (restrict_to_check w (position (heap w king)) (block_moves w attackers)
                (dict_keys pinned) pinned) as [pm1|] eqn:Hr; simpl; [|discriminate].
    pose proof (restrict_to_check_get _ _ _ _ _ _ Hnd Hr) as Hget.
    destruct (dict_get pm1 (position (heap w king))) as [s|] eqn:Hs; simpl;
      [|discriminate].
    intros Hrun; inversion Hrun; subst. exists king, pinned, attackers.
    repeat (split; [reflexivity|]).
    destruct (decide (0 < length attackers)%nat); [|contradiction]. split.
    + intros pos Hpos. rewrite dict_get_set_ne by congruence. rewrite Hget.
      destruct (decide (pos ∈ dict_keys pinned /\ pos <> position (heap w king)))
        as [|Hn]; [reflexivity|].
      assert (pos ∉ dict_keys pinned) as Hout by tauto.
      apply dict_get_None_keys in Hout. rewrite Hout. reflexivity.
    + exists s. rewrite Hget in Hs.
      destruct (decide (position (heap w king) ∈ dict_keys pinned /\
                        position (heap w king) <> position (heap w king)))
        as [[_ ?]|]; [congruence|].
      split; [exact Hs|].
      rewrite dict_get_set_eq, raw_moves_danger_zone. reflexivity.
  - simpl.
    destruct (dict_get pinned (position (heap w king))) as [s|] eqn:Hs; simpl;
      [|discriminate].
    intros Hrun; inversion Hrun; subst. exists king, pinned, attackers.
    repeat (split; [reflexivity|]).
    destruct (decide (0 < length attackers)%nat); [contradiction|]. split.
    + intros pos Hpos. rewrite dict_get_set_ne by congruence. reflexivity.
    + exists s. split; [exact Hs|].
      rewrite dict_get_set_eq, raw_moves_danger_zone. reflexivity.
Qed.

(** With two attackers [block_moves] is empty: an entry other than the
    king's is what the check loop adds to it, the recorded en-passant square
    for a pawn and nothing for another piece. *)
Lemma legal_moves_double_check (w : World) (tm : Team) (pm : dict PosSet)
    (king : ref) (a1 a2 : ref * PosSet) (pos : Position) :
  legal_moves w tm = Ok pm ->
  kings (brd w) tm = Some king ->
  get_attackers w tm = Ok [a1; a2] ->
  pos <> position (heap w king) ->
  dict_get pm pos <> None ->
  dict_get pm pos = Some (en_passant_added w pos).
Proof.
  intros Hrun Hk Ha Hpos Hsome.
  destruct (legal_moves_entries w tm pm Hrun)
    as (king' & pinned & attackers & Hk' & _ & Ha' & Hent & _).
  rewrite Hk in Hk'. injection Hk' as <-.
  rewrite Ha in Ha'. injection Ha' as <-.
  rewrite (Hent pos Hpos) in *. simpl in *.
  destruct (dict_get pinned pos) as [s|]; simpl in *; [|congruence].
  unfold restricted. f_equal.
  rewrite intersection_empty_r_L, union_empty_l_L. reflexivity.
Qed.

(** With one attacker, an entry other than the king's is the move set after
    the pins, cut down to the attacker's blocking squares and its own
    square, with the recorded en-passant square added for a pawn. *)
Lemma legal_moves_single_check (w : World) (tm : Team) (pm pinned : dict PosSet)
    (king : ref) (a : ref * PosSet) (pos : Position) (s : PosSet) :
  legal_moves w tm = Ok pm ->
  kings (brd w) tm = Some king ->
  get_attackers w tm = Ok [a] ->
  pinned_moves w tm = Ok pinned ->
  pos <> position (heap w king) ->
  dict_get pinned pos = Some s ->
  dict_get pm pos =
    Some (s ∩ (a.2 ∪ {[position (heap w a.1)]}) ∪ en_passant_added w pos).
Proof.
  intros Hrun Hk Ha Hp Hpos Hs.
  destruct (legal_moves_entries w tm pm Hrun)
    as (king' & pinned' & attackers & Hk' & Hp' & Ha' & Hent & _).
  rewrite Hk in Hk'. injection Hk' as <-.
  rewrite Ha in Ha'. injection Ha' as <-.
  rewrite Hp in Hp'. injection Hp' as <-.
  rewrite (Hent pos Hpos), Hs. reflexivity.
Qed.

(** *** When [legal_moves] returns *)

Lemma dict_set_keeps_entry {V} (d : dict V) (k k' : Position) (v : V) :
  dict_get d k' <> None -> dict_get (dict_set d k v) k' <> None.
Proof. rewrite dict_get_set. destruct (decide (k = k')); congruence. Qed.

(** The first loop gives an entry to every square held by a piece of the
    team, and only to squares of the piece map. *)
Lemma raw_moves_entries (w : World) (tm : Team) (pos : Position) :
  dict_get (raw_moves w tm).1 pos <> None <->
  exists r, (pos, r) ∈ _pieces (brd w) /\ team (heap w r) = tm.
Proof.
  unfold raw_moves.
  match goal with
  | |- dict_get (fold_left ?f ?l ?a).1 _ <> None <-> _ =>
      set (F := f);
      cut (forall entries acc,
             dict_get (fold_left F entries acc).1 pos <> None <->
             dict_get acc.1 pos <> None \/
             exists r, (pos, r) ∈ entries /\ team (heap w r) = tm);
      [intros Hc; rewrite (Hc l a); simpl; split;
         [intros [Hn|Hr]; [congruence | exact Hr] | intros Hr; right; exact Hr]|]
  end.
  induction entries as [|[k r] entries IH]; intros acc; simpl.
  - split; [intros Hn; left; exact Hn|].
    intros [Hn|(r & Hin & _)]; [exact Hn | apply elem_of_nil in Hin; contradiction].
  - rewrite IH. unfold F. simpl.
    destruct (decide (team (heap w r) <> tm)) as [Hne|Heq]; simpl.
    + split; (intros [Hn|(r' & Hin & Ht)]; [left; exact Hn|]).
      * right. exists r'. split; [right; exact Hin | exact Ht].
      * apply elem_of_cons in Hin as [Hhd|Htl].
        -- injection Hhd as -> ->. contradiction.
        -- right. exists r'. auto.
    + assert (team (heap w r) = tm) as Ht
        by (destruct (decide (team (heap w r) = tm)); tauto).
      rewrite dict_get_set. split.
      * intros [Hn|(r' & Hin & Ht')].
        -- destruct (decide (k = pos)) as [->|]; [|left; exact Hn].
           right. exists r. split; [left | exact Ht].
        -- right. exists r'. split; [right; exact Hin | exact Ht'].
      * intros [Hn|(r' & Hin & Ht')].
        -- left. destruct (decide (k = pos)); congruence.
        -- apply elem_of_cons in Hin as [Hhd|Htl].
           ++ injection Hhd as -> ->. left.
              destruct (decide (k = k)); congruence.
           ++ right. exists r'. auto.
Qed.

Lemma apply_pins_returns (h : ref -> Piece) (pins : list (ref * PosSet))
    (pm : dict PosSet) :
  (forall p rs, (p, rs) ∈ pins -> dict_get pm (position (h p)) <> None) ->
  exists pm', apply_pins h pins pm = Ok pm'.
Proof.
  revert pm. induction pins as [|[p rs] pins IH]; intros pm Hpins; simpl.
  - eexists. reflexivity.
  - destruct (dict_get pm (position (h p))) as [s|] eqn:Hg.
    + apply IH. intros p' rs' Hin. apply dict_set_keeps_entry.
      apply (Hpins p' rs'). right. exact Hin.
    + exfalso. apply (Hpins p rs); [left | exact Hg].
Qed.

Lemma restrict_to_check_returns (w : World) (kingpos : Position) (blocks : PosSet)
    (keys : list Position) (pm : dict PosSet) :
  (forall k, k ∈ keys ->
     dict_get pm k <> None /\ dict_get (_pieces (brd w)) k <> None) ->
  exists pm', restrict_to_check w kingpos blocks keys pm = Ok pm'.
Proof.
  revert pm. induction keys as [|k keys IH]; intros pm Hkeys; simpl.
  - eexists. reflexivity.
  - assert (forall pm1, (forall k', dict_get pm k' <> None -> dict_get pm1 k' <> None) ->
              exists pm', restrict_to_check w kingpos blocks keys pm1 = Ok pm') as Hnext.
    { intros pm1 Hkeep. apply IH. intros k' Hin.
      destruct (Hkeys k') as [Ha Hb]; [right; exact Hin|]. auto. }
    destruct (Hkeys k) as [Hpm Hps]; [left|].
    destruct (decide (k <> kingpos)); [|apply Hnext; auto].
    destruct (dict_get pm k) as [s|]; [|congruence].
    destruct ((en_passant (brd w)).1).
    + destruct (dict_get (_pieces (brd w)) k) as [r|]; [|congruence].
      apply Hnext. intros k'. apply dict_set_keeps_entry.
    + apply Hnext. intros k'. apply dict_set_keeps_entry.
Qed.

(** [legal_moves(team)] returns a mapping when the team's king is set, the
    king's square is held by a piece of the team, and the pinned pieces that
    [check_pins] reports stand on squares held by pieces of the team. *)
Lemma legal_moves_returns (w : World) (tm : Team) (king : ref) :
  kings (brd w) tm = Some king ->
  (exists r, (position (heap w king), r) ∈ _pieces (brd w) /\ team (heap w r) = tm) ->
  (forall p rs, (p, rs) ∈ check_pins (heap w) (heap w king) (_pieces (brd w)) ->
     exists r, (position (heap w p), r) ∈ _pieces (brd w) /\ team (heap w r) = tm) ->
  exists pm, legal_moves w tm = Ok pm.
Proof.
  intros Hk Hking Hpins.
  destruct (apply_pins_returns (heap w)
              (check_pins (heap w) (heap w king) (_pieces (brd w)))
              (raw_moves w tm).1) as [pinned Hpinned].
  { intros p rs Hin. apply raw_moves_entries. eauto. }
  assert (pinned_moves w tm = Ok pinned) as Hp
    by (unfold pinned_moves; rewrite Hk; exact Hpinned).
  assert (forall pos, dict_get pinned pos <> None <->
            dict_get (raw_moves w tm).1 pos <> None) as Hsame.
  { intros pos. rewrite !(not_iff_compat (dict_get_None_keys _ _)).
    rewrite (apply_pins_keys _ _ _ _ Hpinned). reflexivity. }
  assert (exists l, get_attackers w tm = Ok l) as [attackers Ha]
    by (unfold get_attackers; rewrite Hk; simpl; eauto).
  unfold legal_moves. rewrite Hk, Hp, Ha. simpl.
  assert (dict_get pinned (position (heap w king)) <> None) as Hkp
    by (apply Hsame, raw_moves_entries, Hking).
  destruct (decide (0 < length attackers)%nat).
  - destruct (restrict_to_check_returns w (position (heap w king))
                (block_moves w attackers) (dict_keys pinned) pinned) as [pm1 Hr].
    { intros k Hin. assert (dict_get pinned k <> None) as Hkk.
      { intros Hn. apply dict_get_None_keys in Hn. contradiction. }
      split; [exact Hkk|].
      apply Hsame, raw_moves_entries in Hkk as (r & Hin' & _).
      intros Hn. apply dict_get_None_keys in Hn. apply Hn.
      apply list_elem_of_fmap. exists (k, r). auto. }
    rewrite Hr. simpl.
    rewrite (restrict_to_check_get _ _ _ _ _ _ (pinned_moves_NoDup _ _ _ Hp) Hr).
    destruct (decide (position (heap w king) ∈ dict_keys pinned /\
                      position (heap w king) <> position (heap w king)))
      as [[_ ?]|]; [congruence|].
    destruct (dict_get pinned (position (heap w king))); [|congruence].
    simpl. eauto.
  - simpl. destruct (dict_get pinned (position (heap w king))); [|congruence].
    simpl. eauto.
Qed.

(** C8. In the mapping returned by [legal_moves(team)] the entry of the
    King's square has no square in common with the danger zone of the
    opposing team, whatever the number of attackers. *)
Theorem king_moves_avoid_danger_zone (w : World) (tm : Team) (pm : dict PosSet) :
  legal_moves w tm = Ok pm ->
  exists king s,
    kings (brd w) tm = Some king /\
    dict_get pm (position (heap w king)) = Some s /\
    s ## get_danger_zone w (team_inv tm).
Proof.
  intros Hrun.
  destruct (legal_moves_entries w tm pm Hrun)
    as (king & pinned & attackers & Hk & _ & _ & _ & s & _ & Hs).
  exists king, (s ∖ get_danger_zone w (team_inv tm)).
  split; [exact Hk|]. split; [exact Hs|].
  apply disjoint_difference_l1. reflexivity.
Qed.

End LegalMoves.

(** ** Checking a concrete board *)

(** The two representations agree as soon as every entry of the piece map
    is in the grid, on the board, and every entry of the grid is in the
    piece map. *)
Lemma dual_repr_by_entries (b : Board) :
  Forall (fun e => board b !! e.1 = Some e.2 /\ on_board e.1) (_pieces b) ->
  Forall (fun e => dict_get (_pieces b) e.1 = Some e.2) (map_to_list (board b)) ->
  dual_repr b.
Proof.
  rewrite !Forall_forall. intros Hmap Hgrid.
  assert (forall pos v, dict_get (_pieces b) pos = Some v ->
            board b !! pos = Some v /\ on_board pos) as Hm.
  { intros pos v Hg. apply dict_get_Some_elem in Hg. exact (Hmap _ Hg). }
  split; intros pos.
  - destruct (board b !! pos) as [v|] eqn:Hb.
    + symmetry. apply elem_of_map_to_list in Hb. exact (Hgrid _ Hb).
    + destruct (dict_get (_pieces b) pos) as [v|] eqn:Hg; [|reflexivity].
      apply Hm in Hg as [Hg _]. congruence.
  - destruct (dict_get (_pieces b) pos) as [v|] eqn:Hg; [|congruence].
    intros _. apply (Hm _ _ Hg).
Qed.

Lemma positions_ok_by_entries (w : World) :
  Forall (fun e => position (heap w e.2) = e.1) (_pieces (brd w)) ->
  positions_ok w.
Proof.
  rewrite Forall_forall. intros Hall pos r Hg.
  apply dict_get_Some_elem in Hg. exact (Hall _ Hg).
Qed.

(** A decidable statement about concrete data, settled by evaluation. *)
Ltac check_entries :=
  match goal with |- ?P => refine (bool_decide_unpack P _) end;
  vm_compute; exact I.

Ltac check_dual_repr := apply dual_repr_by_entries; check_entries.

(** * The code on concrete boards *)

Module Scenarios.
Import SpecModel Boards.

(** ** Placement *)

(** C6 on the board with a pawn on e4: placing the knight on e4 raises and
    changes nothing, placing it on d4 puts it in the grid and in the map. *)
Lemma placement_witness :
  (exists w', __setitem__ (Alg "e" 4) 1%nat one_pawn = (Raise ValueError, w') /\
     board (brd w') = board (brd one_pawn) /\
     _pieces (brd w') = _pieces (brd one_pawn) /\
     kings (brd w') = kings (brd one_pawn) /\
     en_passant (brd w') = en_passant (brd one_pawn))
  /\
  (exists w', __setitem__ (Alg "d" 4) 1%nat one_pawn = (Ok tt, w') /\
     board (brd w') !! (3, 4) = Some 1%nat /\
     dict_get (_pieces (brd w')) (3, 4) = Some 1%nat).
Proof.
  split.
  - refine (proj1 (placement_occupied_fails_empty_inserts
                     one_pawn (Alg "e" 4) 1%nat _) _).
    + check_entries.
    + right. vm_compute. discriminate.
  - refine (proj2 (placement_occupied_fails_empty_inserts
                     one_pawn (Alg "d" 4) 1%nat _) _).
    + check_entries.
    + intros [Ho|Ho]; vm_compute in Ho; congruence.
Defined.

(** C10 on the same board: a king for e4 is refused and [kings] is as
    before, a king for e8 is placed and recorded. *)
Lemma place_king_witness :
  (exists w', place_king (Alg "e" 4) Black one_pawn = (Raise ValueError, w') /\
     kings (brd w') = kings (brd one_pawn) /\
     board (brd w') = board (brd one_pawn) /\
     _pieces (brd w') = _pieces (brd one_pawn))
  /\
  (exists w' r, place_king (Alg "e" 8) Black one_pawn = (Ok tt, w') /\
     kings (brd w') Black = Some r /\
     kings (brd w') White = kings (brd one_pawn) White /\
     board (brd w') !! (4, 0) = Some r /\
     dict_get (_pieces (brd w')) (4, 0) = Some r /\
     heap w' r = new_piece King Black (4, 0)).
Proof.
  split.
  - refine (proj1 (place_king_occupied_fails_empty_sets_king
                     one_pawn (Alg "e" 4) Black _) _).
    + check_entries.
    + right. vm_compute. discriminate.
  - refine (proj2 (place_king_occupied_fails_empty_sets_king
                     one_pawn (Alg "e" 8) Black _) _).
    + check_entries.
    + intros [Ho|Ho]; vm_compute in Ho; congruence.
Defined.

(** ** The en-passant example of [board4] *)

(** C7 for the advance d2-d4: the grid and the map agree before it, and
    after it. *)
Lemma dual_repr_witness :
  dual_repr (brd board4) /\
  forall pos r, board (brd board4) !! pos = Some r <->
                dict_get (_pieces (brd board4)) pos = Some r.
Proof.
  apply (mutations_keep_dual_representation
           (MMove 3%nat (Alg "d" 4)) board4_placed board4).
  - check_dual_repr.
  - intros sq Hsq. vm_compute in Hsq. injection Hsq as <-. check_entries.
  - vm_compute. reflexivity.
Defined.

(** C3, as the code has it, for the advance d2-d4: the record is the first
    square of the pawn's [move_set] entry for d2, with the pawn. *)
Lemma en_passant_record_witness :
  exists ms, move_set (heap board4_placed 3%nat) (position (heap board4_placed 3%nat))
             = Some ms /\
             en_passant (brd board4) = (head ms, Some 3%nat).
Proof.
  apply (move_overwrites_en_passant board4_placed 3%nat (Alg "d" 4) (Ok tt) board4).
  - vm_compute. reflexivity.
  - vm_compute. reflexivity.
  - reflexivity.
Defined.

(** C3 as stated fails: a white pawn alone on d2 advances one square to d3,
    and the en-passant square is set (to d3) although the move is not a
    two-square advance. *)
Lemma single_advance_sets_en_passant :
  kind (heap lone_pawn 0%nat) = Pawn /\
  position (heap lone_pawn 0%nat) = (3, 6) /\
  to_coord (Alg "d" 3) = (3, 5) /\
  (move 0%nat (Alg "d" 3) lone_pawn).1 = Ok tt /\
  (en_passant (brd (move 0%nat (Alg "d" 3) lone_pawn).2)).1 = Some (3, 5) /\
  (en_passant (brd (move 0%nat (Alg "d" 3) lone_pawn).2)).1 <> None.
Proof. vm_compute. repeat split; discriminate. Qed.

(** Whatever the pawn's [move_set] holds, the one-move flag cannot come out
    right for both advances from d2: the record does not depend on the
    destination. *)
Lemma no_move_set_makes_the_flag_right (ms : Position -> option (list Position)) :
  let w := mkWorld (brd lone_pawn)
             (fun _ => mkPiece Pawn White (3, 6) true ms) 1%nat in
  ~ ((move 0%nat (Alg "d" 4) w).1 = Ok tt /\
     (en_passant (brd (move 0%nat (Alg "d" 4) w).2)).1 = Some (3, 5) /\
     (move 0%nat (Alg "d" 3) w).1 = Ok tt /\
     (en_passant (brd (move 0%nat (Alg "d" 3) w).2)).1 = None).
Proof.
  intros w (H4 & E4 & H3 & E3).
  assert (en_passant (brd (move 0%nat (Alg "d" 4) w).2) =
          en_passant (brd (move 0%nat (Alg "d" 3) w).2)) as Heq.
  { apply (en_passant_ignores_destination w 0%nat (Alg "d" 4) (Alg "d" 3));
      [reflexivity | |].
    - destruct (move 0%nat (Alg "d" 4) w) as [r w4]. simpl in *. congruence.
    - destruct (move 0%nat (Alg "d" 3) w) as [r w3]. simpl in *. congruence. }
  rewrite Heq in E4. congruence.
Qed.

(** The record after d2-d4 is d3, the square passed over. *)
Lemma board4_en_passant : en_passant (brd board4) = (Some (3, 5), Some 3%nat).
Proof. vm_compute. reflexivity. Qed.

(** C5 on [board4]: the black pawn e4 captures en passant on d3, and the
    white pawn on d4 is destroyed first. *)
Lemma en_passant_capture_witness :
  exists w1,
    destroy 3%nat board4 = (Ok tt, w1) /\
    alive (heap w1 3%nat) = false /\
    dict_get (_pieces (brd w1)) (position (heap board4 3%nat)) = None /\
    board (brd w1) !! position (heap board4 3%nat) = None /\
    position (heap w1 2%nat) = position (heap board4 2%nat) /\
    en_passant (brd w1) = en_passant (brd board4) /\
    move 2%nat (Alg "d" 3) board4 =
      (record_en_passant 2%nat ;;; move_place 2%nat (Alg "d" 3) (to_coord (Alg "d" 3))) w1 /\
    forall res w', move 2%nat (Alg "d" 3) board4 = (res, w') ->
      alive (heap w' 3%nat) = false /\
      forall pos, dict_get (_pieces (brd w')) pos <> Some 3%nat.
Proof.
  apply (en_passant_capture_destroys_recorded_pawn board4 2%nat 3%nat (Alg "d" 3)).
  - vm_compute. reflexivity.
  - vm_compute. reflexivity.
  - check_dual_repr.
  - apply positions_ok_by_entries. check_entries.
  - vm_compute. reflexivity.
Defined.

(** The capture completes, and the capturing pawn stands on d3, not on d4. *)
Lemma en_passant_capture_completes :
  (move 2%nat (Alg "d" 3) board4).1 = Ok tt /\
  position (heap board4 3%nat) = (3, 4) /\
  position (heap (move 2%nat (Alg "d" 3) board4).2 2%nat) = (3, 5) /\
  _pieces (brd (move 2%nat (Alg "d" 3) board4).2)
    = [((2, 3), 0%nat); ((0, 7), 1%nat); ((3, 5), 2%nat)].
Proof. vm_compute. repeat split. Qed.

(** ** Captures *)

(** C1 fails for a pawn: e4 takes d5, a destination held by another piece
    with no en-passant square recorded. The knight is not destroyed, the
    placement raises [ValueError], and the pawn is left off the board. *)
Lemma pawn_capture_raises_on_board :
  kind (heap pawn_takes 0%nat) = Pawn /\
  dict_get (_pieces (brd pawn_takes)) (to_coord (Alg "d" 5)) = Some 1%nat /\
  (en_passant (brd pawn_takes)).1 = None /\
  let w' := (move 0%nat (Alg "d" 5) pawn_takes).2 in
  (move 0%nat (Alg "d" 5) pawn_takes).1 = Raise ValueError /\
  alive (heap w' 1%nat) = true /\
  _pieces (brd w') = [((3, 3), 1%nat)] /\
  map_to_list (board (brd w')) = [((3, 3), 1%nat)].
Proof. vm_compute. repeat split. Qed.

(** A capture by a piece that is not a pawn completes: the rook on e4 takes
    the knight on e7. *)
Lemma rook_capture_completes :
  exists w',
    move 0%nat (Alg "e" 7) rook_takes = (Ok tt, w') /\
    alive (heap w' 1%nat) = false /\
    position (heap w' 0%nat) = to_coord (Alg "e" 7) /\
    board (brd w') !! to_coord (Alg "e" 7) = Some 0%nat /\
    dict_get (_pieces (brd w')) (to_coord (Alg "e" 7)) = Some 0%nat /\
    board (brd w') !! position (heap rook_takes 0%nat) = None /\
    dict_get (_pieces (brd w')) (position (heap rook_takes 0%nat)) = None.
Proof.
  apply (non_pawn_capture_completes rook_takes 0%nat 1%nat (Alg "e" 7)).
  - vm_compute. discriminate.
  - check_dual_repr.
  - reflexivity.
  - vm_compute. reflexivity.
  - vm_compute. reflexivity.
  - vm_compute. reflexivity.
  - discriminate.
Defined.

(** ** Checks *)

(** C9 on the board of the double check. *)
Lemma get_attackers_witness :
  exists l, get_attackers double_check Black = Ok l /\
    (length l <= 2)%nat /\
    forall r s, (r, s) ∈ l ->
      kind (heap double_check r) <> King /\
      (kind (heap double_check r) = Knight \/ kind (heap double_check r) = Pawn ->
         (exists pos, (pos, r) ∈ _pieces (brd double_check) /\ s = {[pos]}) /\
         ((forall pos' r', (pos', r') ∈ _pieces (brd double_check) ->
             position (heap double_check r') = pos') ->
          s = {[position (heap double_check r)]})).
Proof.
  apply (get_attackers_at_most_two double_check Black 0%nat).
  vm_compute. reflexivity.
Defined.

(** The rook and the knight are found; the knight comes with its own
    square f6. *)
Lemma double_check_attackers :
  get_attackers double_check Black
  = Ok [(2%nat, {[(4, 1); (4, 2); (4, 3); (4, 4); (4, 5); (4, 6)]});
        (3%nat, {[(5, 2)]})].
Proof. vm_compute. reflexivity. Qed.

(** C2 fails here: with two attackers the black pawn on h7, which is not
    the King, keeps a move, to the recorded en-passant square a3. *)
Lemma double_check_pawn_keeps_a_move :
  length (result_of [] (get_attackers double_check Black)) = 2%nat /\
  dict_get (_pieces (brd double_check)) (7, 1) = Some 4%nat /\
  kind (heap double_check 4%nat) = Pawn /\
  team (heap double_check 4%nat) = Black /\
  (en_passant (brd double_check)).1 = Some (0, 5) /\
  exists pm, legal_moves double_check Black = Ok pm /\
    dict_get pm (7, 1) = Some {[(0, 5)]}.
Proof.
  repeat (split; [vm_compute; reflexivity|]).
  eexists. split; vm_compute; reflexivity.
Qed.

(** C8 on the board of the discovered check. *)
Lemma king_moves_witness :
  exists king s,
    kings (brd discovered_check) Black = Some king /\
    dict_get (result_of [] (legal_moves discovered_check Black))
             (position (heap discovered_check king)) = Some s /\
    s ## get_danger_zone discovered_check (team_inv Black).
Proof.
  apply (king_moves_avoid_danger_zone discovered_check Black
           (result_of [] (legal_moves discovered_check Black))).
  vm_compute. reflexivity.
Defined.

(** C4 fails here: the only attacker is the bishop on b1, so no en-passant
    capture removes the attacker; the move sets of the two black pawns,
    cut down to the bishop's line and square, are [{d3}] and the empty set;
    yet both come back with the en-passant square c3 added, also the pawn on
    a7, which cannot reach it. *)
Lemma single_check_pawns_get_en_passant_square :
  (exists blocks, get_attackers discovered_check Black = Ok [(2%nat, blocks)] /\
     kind (heap discovered_check 2%nat) = Bishop /\
     (en_passant (brd discovered_check)) = (Some (2, 5), Some 5%nat) /\
     (2, 5) ∉ blocks ∪ {[position (heap discovered_check 2%nat)]}) /\
  (exists pinned, pinned_moves discovered_check Black = Ok pinned /\
     dict_get pinned (3, 4) = Some {[(3, 5); (2, 5)]} /\
     dict_get pinned (0, 1) = Some {[(0, 2); (0, 3)]}) /\
  (exists pm, legal_moves discovered_check Black = Ok pm /\
     dict_get pm (3, 4) = Some {[(3, 5); (2, 5)]} /\
     dict_get pm (0, 1) = Some {[(2, 5)]}).
Proof.
  split; [|split].
  - eexists. split; [vm_compute; reflexivity|].
    repeat (split; [vm_compute; reflexivity|]).
    check_entries.
  - eexists. split; [vm_compute; reflexivity|].
    split; vm_compute; reflexivity.
  - eexists. split; [vm_compute; reflexivity|].
    split; vm_compute; reflexivity.
Qed.

End Scenarios.

(** * More properties of the board *)

(** ** [remove], [__getitem__] and [destroy] *)

Section RemoveLookup.
Context `{Misc} `{Pieces}.

Lemma dict_del_set_absent {V} (d : dict V) (k : Position) (v : V) :
  dict_get d k = None -> dict_del (dict_set d k v) k = d.
Proof.
  induction d as [|[k0 v0] d IH]; simpl.
  - intros _. destruct (decide (k = k)); congruence.
  - destruct (decide (k0 = k)) as [->|Hne]; [discriminate|]. simpl.
    destruct (decide (k0 = k)); [contradiction|]. intros Hg. f_equal. auto.
Qed.

Lemma dict_set_absent_app {V} (d : dict V) (k : Position) (v : V) :
  dict_get d k = None -> dict_set d k v = d ++ [(k, v)].
Proof.
  induction d as [|[k0 v0] d IH]; simpl; [reflexivity|].
  destruct (decide (k0 = k)); [discriminate|]. intros Hg. f_equal. auto.
Qed.

(** X1. On a board whose grid and map agree, [remove(pos)] raises [KeyError]
    and changes nothing when no piece stands on [pos]; otherwise it empties
    that square in the grid and in the map and leaves everything else as it
    was: the other squares, [kings], [en_passant] and the piece objects (the
    removed piece is not marked as destroyed). *)
Theorem remove_empties_one_square (w : World) (pos : Position) :
  dual_repr (brd w) ->
  (dict_get (_pieces (brd w)) pos = None -> remove pos w = (Raise KeyError, w)) /\
  (dict_get (_pieces (brd w)) pos <> None ->
     exists w', remove pos w = (Ok tt, w') /\
       board (brd w') !! pos = None /\
       dict_get (_pieces (brd w')) pos = None /\
       (forall pos', pos' <> pos ->
          board (brd w') !! pos' = board (brd w) !! pos' /\
          dict_get (_pieces (brd w')) pos' = dict_get (_pieces (brd w)) pos') /\
       kings (brd w') = kings (brd w) /\
       en_passant (brd w') = en_passant (brd w) /\
       heap w' = heap w).
Proof.
  intros Hdual. split; [apply remove_absent|].
  intros Hg. rewrite remove_run by (apply Hdual; exact Hg).
  destruct (dict_get (_pieces (brd w)) pos) as [r|] eqn:Hr; [|congruence].
  eexists. split; [reflexivity|]. simpl.
  rewrite lookup_delete_eq, dict_get_del.
  destruct (decide (pos = pos)); [|congruence].
  repeat (split; [reflexivity|]). split; [|auto].
  intros pos' Hne. rewrite lookup_delete_ne, dict_get_del by congruence.
  destruct (decide (pos = pos')); [congruence | auto].
Qed.

(** X2. Placing a piece on an empty square of the board and removing it
    again gives back the state one started from, the order of the piece map
    included. *)
Theorem setitem_then_remove_restores (w : World) (pos : Coord) (val : ref) :
  on_board (chess_to_coord pos) ->
  ~ occupied (brd w) (chess_to_coord pos) ->
  (__setitem__ pos val ;;; remove (chess_to_coord pos)) w = (Ok tt, w).
Proof.
  intros Hon Hfree. unfold bind. rewrite setitem_empty by assumption.
  rewrite remove_run by assumption. simpl. rewrite dict_get_set_eq.
  assert (board (brd w) !! chess_to_coord pos = None) as Hb.
  { destruct (board (brd w) !! chess_to_coord pos) eqn:E; [|reflexivity].
    exfalso. apply Hfree. left. congruence. }
  assert (dict_get (_pieces (brd w)) (chess_to_coord pos) = None) as Hd.
  { destruct (dict_get (_pieces (brd w)) (chess_to_coord pos)) eqn:E; [|reflexivity].
    exfalso. apply Hfree. right. congruence. }
  unfold board_without, board_with. simpl.
  rewrite delete_insert_id by exact Hb.
  rewrite dict_del_set_absent by exact Hd.
  destruct w as [[g d ks ep] h n]. reflexivity.
Qed.

Lemma getitem_run (w : World) (pos : Coord) :
  on_board (chess_to_coord pos) ->
  __getitem__ pos w = (Ok (board (brd w) !! chess_to_coord pos), w).
Proof.
  intros Hon. unfold __getitem__. unfold_monad.
  rewrite grid_get_on_board by assumption. reflexivity.
Qed.

(** X3. [__getitem__] reads back what [__setitem__] wrote: after a placement
    on an empty square of the board the square reads as the placed piece,
    every other square of the board reads as before, and reading changes
    nothing. *)
Theorem getitem_reads_what_setitem_wrote
    (w : World) (pos : Coord) (val : ref) :
  on_board (chess_to_coord pos) ->
  ~ occupied (brd w) (chess_to_coord pos) ->
  exists w', __setitem__ pos val w = (Ok tt, w') /\
    __getitem__ pos w' = (Ok (Some val), w') /\
    forall pos', on_board (chess_to_coord pos') ->
      chess_to_coord pos' <> chess_to_coord pos ->
      __getitem__ pos' w' = ((__getitem__ pos' w).1, w').
Proof.
  intros Hon Hfree. eexists. split; [apply setitem_empty; assumption|]. split.
  - rewrite getitem_run by assumption. simpl. rewrite lookup_insert_eq. reflexivity.
  - intros pos' Hon' Hne. rewrite !getitem_run by assumption. simpl.
    rewrite lookup_insert_ne by congruence. reflexivity.
Qed.

(** X4. [destroy(piece)] removes whatever stands on the square that
    [piece.position] names and only then marks [piece]: with no piece on
    that square it raises [KeyError] and [piece] stays live; with another
    piece [r] on it, [r] is taken off the board (and stays live) while
    [piece] is the one marked as destroyed. *)
Theorem destroy_goes_by_the_position_attribute (w : World) (q : ref) :
  dual_repr (brd w) ->
  (dict_get (_pieces (brd w)) (position (heap w q)) = None ->
     destroy q w = (Raise KeyError, w)) /\
  (forall r, dict_get (_pieces (brd w)) (position (heap w q)) = Some r ->
     exists w', destroy q w = (Ok tt, w') /\
       dict_get (_pieces (brd w')) (position (heap w q)) = None /\
       board (brd w') !! position (heap w q) = None /\
       alive (heap w' q) = false /\
       (r <> q -> heap w' r = heap w r)).
Proof.
  intros Hdual. split.
  - intros Hg. unfold destroy. unfold bind at 1. unfold get_world at 1.
    unfold bind. rewrite remove_absent by assumption. reflexivity.
  - intros r Hr. rewrite destroy_run; [|apply Hdual; congruence | congruence].
    eexists. split; [reflexivity|]. simpl.
    rewrite dict_get_del, lookup_delete_eq. unfold heap_upd.
    destruct (decide (position (heap w q) = position (heap w q))); [|congruence].
    destruct (decide (q = q)); [|congruence].
    repeat (split; [reflexivity|]).
    intros Hne. destruct (decide (r = q)); [contradiction | reflexivity].
Qed.

End RemoveLookup.

(** ** [move]: edge cases *)

Section MoveEdges.
Context `{Misc} `{Pieces}.

(** X5. A piece that is not a pawn and is moved to the square it stands on
    captures itself: [move] destroys the occupant of the destination, which
    is the piece, and then fails to remove it from its old square. The call
    raises [KeyError], and the piece is left destroyed and off the board,
    with [en_passant] cleared. *)
Theorem move_onto_own_square_destroys_the_piece
    (w : World) (p : ref) (dst : Coord) :
  kind (heap w p) <> Pawn ->
  dual_repr (brd w) ->
  dict_get (_pieces (brd w)) (position (heap w p)) = Some p ->
  to_coord dst = position (heap w p) ->
  exists w', move p dst w = (Raise KeyError, w') /\
    alive (heap w' p) = false /\
    dict_get (_pieces (brd w')) (position (heap w p)) = None /\
    board (brd w') !! position (heap w p) = None /\
    en_passant (brd w') = (None, None).
Proof.
  intros Hk Hdual Hp Hdst.
  assert (on_board (position (heap w p))) as Hon by (apply Hdual; congruence).
  pose (w0 := mkWorld (mkBoard (board (brd w)) (_pieces (brd w)) (kings (brd w))
                         (None, None)) (heap w) (next_ref w)).
  pose (w1 := mkWorld (board_without (brd w0) (position (heap w p)))
                (heap_upd (heap w) p (piece_destroy (heap w p))) (next_ref w)).
  assert (move_capture p (to_coord dst) w = (Ok tt, w1)) as Hc.
  { unfold move_capture. unfold bind at 1. unfold get_world at 1.
    destruct (decide (kind (heap w p) = Pawn)); [contradiction|].
    unfold bind at 1. rewrite set_en_passant_run. rewrite Hdst, Hp.
    rewrite destroy_run; simpl; [reflexivity | assumption | congruence]. }
  assert (position (heap w1 p) = position (heap w p)) as Hpos.
  { simpl. unfold heap_upd. destruct (decide (p = p)); [reflexivity | congruence]. }
  assert (dict_get (_pieces (brd w1)) (position (heap w p)) = None) as Hgone.
  { simpl. rewrite dict_get_del. case_decide; congruence. }
  exists w1. split.
  - unfold move. unfold bind at 1. rewrite Hc.
    apply move_place_off_board. rewrite Hpos. exact Hgone.
  - split; [simpl; unfold heap_upd; destruct (decide (p = p)); [reflexivity | congruence]|].
    split; [exact Hgone|].
    split; [simpl; apply lookup_delete_eq | reflexivity].
Qed.

(** X6. On a board whose grid and map agree, a move of a piece standing on
    its square to an empty square of the board completes (for a pawn: when
    the square is not the recorded en-passant square and its [move_set] has
    an entry for the square it leaves). The piece's entry leaves its place in
    the piece map and is appended at the end, only the moved piece's
    [position] changes in the store, and [kings] and every other square are
    as before. *)
Theorem move_to_empty_square_completes (w : World) (p : ref) (dst : Coord) :
  dual_repr (brd w) ->
  chess_to_coord dst = to_coord dst ->
  on_board (to_coord dst) ->
  dict_get (_pieces (brd w)) (to_coord dst) = None ->
  dict_get (_pieces (brd w)) (position (heap w p)) = Some p ->
  (kind (heap w p) = Pawn ->
     (en_passant (brd w)).1 <> Some (to_coord dst) /\
     move_set (heap w p) (position (heap w p)) <> None) ->
  exists w', move p dst w = (Ok tt, w') /\
    _pieces (brd w') =
      dict_del (_pieces (brd w)) (position (heap w p)) ++ [(to_coord dst, p)] /\
    heap w' = heap_upd (heap w) p (piece_set_position (to_coord dst) (heap w p)) /\
    kings (brd w') = kings (brd w) /\
    forall pos, pos <> position (heap w p) -> pos <> to_coord dst ->
      board (brd w') !! pos = board (brd w) !! pos.
Proof.
  intros Hdual Hconv Hon Hfree Hp Hpawn.
  assert (on_board (position (heap w p))) as Honp by (apply Hdual; congruence).
  assert (position (heap w p) <> to_coord dst) as Hsq by congruence.
  assert (exists ep, move_capture p (to_coord dst) w =
            (Ok tt, mkWorld (mkBoard (board (brd w)) (_pieces (brd w))
                               (kings (brd w)) ep) (heap w) (next_ref w)))
    as [ep Hc].
  { unfold move_capture. unfold bind at 1. unfold get_world at 1.
    destruct (decide (kind (heap w p) = Pawn)) as [Hk|Hk].
    - destruct (Hpawn Hk) as [Hep Hms].
      unfold bind at 1.
      destruct (decide (Some (to_coord dst) = (en_passant (brd w)).1));
        [congruence|].
      unfold ret at 1. rewrite record_en_passant_run.
      destruct (move_set (heap w p) (position (heap w p))); [|congruence].
      eexists. reflexivity.
    - unfold bind at 1. rewrite set_en_passant_run. rewrite Hfree.
      eexists. reflexivity. }
  eexists. split.
  - unfold move. unfold bind at 1. rewrite Hc.
    unfold move_place. unfold bind at 1. unfold get_world at 1.
    unfold bind at 1. rewrite remove_run by assumption. simpl. rewrite Hp.
    unfold bind at 1. unfold modify_piece at 1.
    rewrite setitem_run by (rewrite Hconv; assumption).
    rewrite Hconv. simpl.
    rewrite lookup_delete_ne by congruence. rewrite dict_get_del.
    destruct (decide (position (heap w p) = to_coord dst)); [contradiction|].
    rewrite Hfree. destruct Hdual as [Hag _]. rewrite Hag, Hfree. simpl.
    reflexivity.
  - simpl. split.
    + apply dict_set_absent_app. rewrite dict_get_del.
      case_decide; [reflexivity | assumption].
    + split; [reflexivity|]. split; [reflexivity|].
      intros pos Hn1 Hn2.
      rewrite lookup_insert_ne, lookup_delete_ne by congruence. reflexivity.
Qed.

(** X7. A pawn sent to the recorded en-passant square when the recorded pawn
    no longer stands on the square its [position] names (it was taken off
    with [remove], which does not touch [en_passant]): [move] raises
    [KeyError] and changes nothing. *)
Theorem en_passant_capture_of_missing_pawn_raises
    (w : World) (p q : ref) (dst : Coord) :
  kind (heap w p) = Pawn ->
  en_passant (brd w) = (Some (to_coord dst), Some q) ->
  dict_get (_pieces (brd w)) (position (heap w q)) = None ->
  move p dst w = (Raise KeyError, w).
Proof.
  intros Hk Hep Hq.
  unfold move. unfold bind at 1. unfold move_capture. unfold bind at 1.
  unfold get_world at 1.
  destruct (decide (kind (heap w p) = Pawn)); [|contradiction].
  unfold bind at 1. rewrite Hep. simpl.
  destruct (decide (Some (to_coord dst) = Some (to_coord dst))); [|congruence].
  unfold destroy. unfold bind at 1. unfold get_world at 1. unfold bind at 1.
  rewrite remove_absent by assumption. reflexivity.
Qed.

Lemma kings_are_blind K : squares_blind (kings_are K).
Proof. intros w w' (_ & _ & Hk & _) HP. unfold kings_are in *. congruence. Qed.

Lemma kings_are_closed K r f : update_closed (kings_are K) r f.
Proof. intros w HP. exact HP. Qed.

Lemma kings_are_set_en_passant K ep : preserves (kings_are K) (set_en_passant ep).
Proof. intros w res w' HP Hrun. inversion Hrun; subst. exact HP. Qed.

Lemma kings_are_move K p dst : preserves (kings_are K) (move p dst).
Proof.
  unfold move. apply preserves_bind.
  - unfold move_capture. apply preserves_get_world_any. intros w.
    destruct (decide (kind (heap w p) = Pawn)).
    + apply preserves_bind.
      * destruct (decide _); [|apply preserves_ret].
        destruct ((en_passant (brd w)).2); [|apply preserves_raise].
        apply blind_destroy; [apply kings_are_blind | apply kings_are_closed].
      * intros _. unfold record_en_passant. apply preserves_get_world_any. intros w0.
        apply preserves_bind; [apply preserves_lift_opt|].
        intros ms. apply kings_are_set_en_passant.
    + apply preserves_bind; [apply kings_are_set_en_passant|]. intros _.
      destruct (dict_get _ _); [|apply preserves_ret].
      apply blind_destroy; [apply kings_are_blind | apply kings_are_closed].
  - intros _. apply blind_move_place; [apply kings_are_blind | apply kings_are_closed].
Qed.

(** X8. [kings] is assigned by [place_king] alone: placements, [remove] and
    [move] leave it as it is, whatever their outcome, also when the piece
    removed or captured is a king. *)
Theorem kings_change_only_in_place_king
    (m : Mutation) (w : World) (res : Res unit) (w' : World) :
  (forall c t, m <> MPlaceKing c t) ->
  run_mutation m w = (res, w') ->
  kings (brd w') = kings (brd w).
Proof.
  intros Hm Hrun.
  assert (preserves (kings_are (kings (brd w))) (run_mutation m)) as Hpres.
  { destruct m; simpl.
    - apply blind_setitem, kings_are_blind.
    - unfold put_piece. destruct (to_both_coord c) as [cxy pxy].
      apply preserves_bind.
      + intros w0 res0 w0' HP Hr. inversion Hr; subst. exact HP.
      + intros r. apply blind_setitem, kings_are_blind.
    - exfalso. exact (Hm c t eq_refl).
    - apply blind_remove, kings_are_blind.
    - apply kings_are_move. }
  exact (Hpres w res w' eq_refl Hrun).
Qed.

End MoveEdges.

(** ** Pieces stand on the squares they name *)

Section StoreInvariant.
Context `{Misc} `{Pieces}.

(** The first part of [move] keeps what [remove], the marking of a destroyed
    piece and the assignment of [en_passant] keep. *)
Lemma blind_move_capture (P : World -> Prop) (p : ref) (npos : Position) :
  squares_blind P ->
  (forall r, update_closed P r piece_destroy) ->
  (forall ep, preserves P (set_en_passant ep)) ->
  preserves P (move_capture p npos).
Proof.
  intros Hb Hcl Hep. unfold move_capture. apply preserves_get_world_any. intros w.
  destruct (decide (kind (heap w p) = Pawn)).
  - apply preserves_bind.
    + destruct (decide _); [|apply preserves_ret].
      destruct ((en_passant (brd w)).2); [|apply preserves_raise].
      apply blind_destroy; [exact Hb | apply Hcl].
    + intros _. unfold record_en_passant. apply preserves_get_world_any. intros w0.
      apply preserves_bind; [apply preserves_lift_opt|].
      intros ms. apply Hep.
  - apply preserves_bind; [apply Hep|]. intros _.
    destruct (dict_get _ _); [|apply preserves_ret].
    apply blind_destroy; [exact Hb | apply Hcl].
Qed.

Lemma next_ref_move_capture (n : ref) (p : ref) (npos : Position) :
  preserves (fun w => next_ref w = n) (move_capture p npos).
Proof.
  apply blind_move_capture.
  - intros a b (_ & Hn & _) Ha. congruence.
  - intros r a Ha. exact Ha.
  - intros ep a r b Ha Hr. injection Hr as _ <-. exact Ha.
Qed.

Lemma store_ok_same (w w' : World) :
  heap w' = heap w -> next_ref w' = next_ref w ->
  (forall k v, dict_get (_pieces (brd w')) k = Some v ->
               dict_get (_pieces (brd w)) k = Some v) ->
  store_ok w -> store_ok w'.
Proof.
  intros Hh Hn Hsub [Hpos Hal]. split.
  - intros pos r Hg. rewrite Hh. apply Hpos, Hsub, Hg.
  - intros pos r Hg. rewrite Hn. eapply Hal, Hsub, Hg.
Qed.

Lemma store_ok_remove (pos : Position) : preserves store_ok (remove pos).
Proof.
  intros w res w' HP Hrun.
  pose proof (remove_squares _ _ _ _ Hrun) as (Hh & Hn & _).
  apply (store_ok_same w w' Hh Hn); [|exact HP].
  intros k v. apply remove_map in Hrun as [-> | ->]; [auto|].
  rewrite dict_get_del. destruct (decide (pos = k)); [discriminate | auto].
Qed.

Lemma store_ok_set_en_passant ep : preserves store_ok (set_en_passant ep).
Proof. intros w res w' HP Hrun. inversion Hrun; subst. exact HP. Qed.

(** An attribute update that keeps [position]. *)
Lemma store_ok_modify_keeping_position (q : ref) (f : Piece -> Piece) :
  (forall x, position (f x) = position x) ->
  preserves store_ok (modify_piece q f).
Proof.
  intros Hf w res w' [Hpos Hal] Hrun. inversion Hrun; subst. split; simpl.
  - intros pos r Hg. simpl in *. unfold heap_upd.
    destruct (decide (r = q)) as [->|]; [rewrite Hf|]; apply Hpos, Hg.
  - exact Hal.
Qed.

Lemma store_ok_destroy (q : ref) : preserves store_ok (destroy q).
Proof.
  unfold destroy. apply preserves_get_world_any. intros w.
  apply preserves_bind; [apply store_ok_remove|]. intros _.
  apply store_ok_modify_keeping_position. reflexivity.
Qed.

Lemma store_ok_move_capture (p : ref) (npos : Position) :
  preserves store_ok (move_capture p npos).
Proof.
  unfold move_capture. apply preserves_get_world_any. intros w.
  destruct (decide (kind (heap w p) = Pawn)).
  - apply preserves_bind.
    + destruct (decide _); [|apply preserves_ret].
      destruct ((en_passant (brd w)).2); [apply store_ok_destroy | apply preserves_raise].
    + intros _. unfold record_en_passant. apply preserves_get_world_any. intros w0.
      apply preserves_bind; [apply preserves_lift_opt|].
      intros ms. apply store_ok_set_en_passant.
  - apply preserves_bind; [apply store_ok_set_en_passant|]. intros _.
    destruct (dict_get _ _); [apply store_ok_destroy | apply preserves_ret].
Qed.

(** A placement of a created piece on the square it names. *)
Lemma store_ok_setitem (pos : Coord) (val : ref) (w : World) res w' :
  store_ok w ->
  position (heap w val) = chess_to_coord pos -> (val < next_ref w)%nat ->
  __setitem__ pos val w = (res, w') -> store_ok w'.
Proof.
  intros [Hpos Hal] Hval Hlt Hrun.
  pose proof (setitem_squares _ _ _ _ _ Hrun) as (Hh & Hn & _).
  apply setitem_map in Hrun as [Hm | Hm]; split; intros k r; rewrite Hm, ?Hh, ?Hn.
  - apply Hpos.
  - apply Hal.
  - rewrite dict_get_set. destruct (decide (chess_to_coord pos = k)) as [<-|].
    + intros Hg. injection Hg as <-. exact Hval.
    + apply Hpos.
  - rewrite dict_get_set. destruct (decide (chess_to_coord pos = k)).
    + intros Hg. injection Hg as <-. exact Hlt.
    + apply Hal.
Qed.

(** After a removal at the square a piece names, the piece is on no square. *)
Lemma remove_own_square_makes_absent (p : ref) (w w' : World) :
  store_ok w -> remove (position (heap w p)) w = (Ok tt, w') -> absent p w'.
Proof.
  intros [Hpos _] Hrun pos Hg.
  assert (_pieces (brd w') = dict_del (_pieces (brd w)) (position (heap w p))) as Hm.
  { revert Hrun. unfold remove, dict_pop. unfold_monad.
    destruct (dict_get (_pieces (brd w)) (position (heap w p))); simpl;
      [|discriminate].
    destruct (grid_set (board (brd w)) (position (heap w p)) None); simpl;
      intros Hrun; inversion Hrun; reflexivity. }
  rewrite Hm, dict_get_del in Hg.
  destruct (decide (position (heap w p) = pos)) as [|Hne]; [discriminate|].
  apply Hpos in Hg. congruence.
Qed.

Lemma store_ok_move_place (p : ref) (dst : Coord) (w : World) res w' :
  store_ok w -> (p < next_ref w)%nat ->
  move_place p dst (chess_to_coord dst) w = (res, w') -> store_ok w'.
Proof.
  intros HP Hlt. unfold move_place. unfold bind at 1. unfold get_world at 1.
  unfold bind at 1.
  destruct (remove (position (heap w p)) w) as [[[]|e] w1] eqn:Hr.
  2:{ intros Hrun; inversion Hrun; subst. eapply store_ok_remove; eauto. }
  pose proof (store_ok_remove _ _ _ _ HP Hr) as [Hpos1 Hal1].
  pose proof (remove_own_square_makes_absent _ _ _ HP Hr) as Habs.
  pose proof (remove_squares _ _ _ _ Hr) as (_ & Hn & _).
  unfold bind at 1. unfold modify_piece at 1.
  apply store_ok_setitem.
  - split; simpl.
    + intros pos r Hg. simpl in *. unfold heap_upd.
      destruct (decide (r = p)) as [->|]; [exfalso; exact (Habs pos Hg)|].
      apply Hpos1, Hg.
    + exact Hal1.
  - simpl. unfold heap_upd. destruct (decide (p = p)); [reflexivity | congruence].
  - simpl. congruence.
Qed.

Lemma store_ok_alloc_setitem (cxy : Coord) (x : Piece) (w : World) res w' :
  store_ok w -> position x = chess_to_coord cxy ->
  (r <- alloc x ;; __setitem__ cxy r) w = (res, w') -> store_ok w'.
Proof.
  intros [Hpos Hal] Hx. unfold bind at 1. unfold alloc at 1.
  apply store_ok_setitem.
  - split; simpl.
    + intros pos r Hg. simpl in *. unfold heap_upd. pose proof (Hal _ _ Hg).
      destruct (decide (r = next_ref w)); [lia|]. apply Hpos, Hg.
    + intros pos r Hg. simpl in *. pose proof (Hal _ _ Hg). lia.
  - simpl. unfold heap_upd.
    destruct (decide (next_ref w = next_ref w)); [exact Hx | congruence].
  - simpl. lia.
Qed.

(** X9. The pieces of the map stand on the squares their [position] names
    (and are created objects) after [__setitem__], [put_piece],
    [place_king], [remove] and [move], whatever the outcome, if they did
    before and the two conversions of [misc] agree on the coordinate used. *)
Theorem mutations_keep_pieces_on_their_squares
    (m : Mutation) (w : World) (res : Res unit) (w' : World) :
  store_ok w ->
  consistent_placement w m ->
  run_mutation m w = (res, w') ->
  store_ok w'.
Proof.
  intros HP Hm. destruct m as [pos val|c k t|c t|pos|p dst]; simpl in *.
  - destruct Hm. apply store_ok_setitem; assumption.
  - unfold put_piece. destruct (to_both_coord c) as [cxy pxy]. simpl in Hm.
    apply store_ok_alloc_setitem; [assumption | symmetry; exact Hm].
  - rewrite place_king_run. cbv zeta.
    destruct (to_both_coord c) as [cxy pxy] eqn:E. simpl in *. subst pxy.
    destruct (__setitem__ cxy (next_ref w) _) as [[[]|e] w2] eqn:Hs;
      intros Hrun; inversion Hrun; subst.
    + assert (store_ok w2) as [Hpos Hal]; [|split; [exact Hpos | exact Hal]].
      apply (store_ok_alloc_setitem cxy (new_piece King t (chess_to_coord cxy))
               w (Ok tt) w2 HP); [reflexivity|].
      unfold bind, alloc. exact Hs.
    + apply (store_ok_alloc_setitem cxy (new_piece King t (chess_to_coord cxy))
               w (Raise e) w' HP); [reflexivity|].
      unfold bind, alloc. exact Hs.
  - apply store_ok_remove. exact HP.
  - destruct Hm as [Hconv Hlt]. unfold move. unfold bind at 1.
    destruct (move_capture p (to_coord dst) w) as [[[]|e] w1] eqn:Hc.
    + rewrite <- Hconv. apply store_ok_move_place.
      * eapply store_ok_move_capture; eauto.
      * rewrite (next_ref_move_capture (next_ref w) p (to_coord dst) w (Ok tt) w1 eq_refl Hc).
        exact Hlt.
    + intros Hrun; inversion Hrun; subst. eapply store_ok_move_capture; eauto.
Qed.

(** What a placement leaves of the squares: nothing is taken away. *)
Lemma setitem_never_overwrites (pos : Coord) (val : ref) (w : World) res w' :
  __setitem__ pos val w = (res, w') ->
  (forall k r, dict_get (_pieces (brd w)) k = Some r ->
               dict_get (_pieces (brd w')) k = Some r) /\
  (forall k r, board (brd w) !! k = Some r -> board (brd w') !! k = Some r).
Proof.
  unfold __setitem__, grid_get, grid_set. unfold_monad.
  destruct (np_index2 (chess_to_coord pos)) as [c|]; simpl;
    [|intros Hrun; inversion Hrun; subst; auto].
  destruct (bool_decide_reflect (board (brd w) !! c <> None)) as [|Hcell]; simpl;
    [intros Hrun; inversion Hrun; subst; auto|].
  destruct (bool_decide_reflect
              (dict_get (_pieces (brd w)) (chess_to_coord pos) <> None))
    as [|Hkey]; simpl; intros Hrun; inversion Hrun; subst; simpl; [auto|].
  split; intros k r Hg.
  - rewrite dict_get_set. destruct (decide (chess_to_coord pos = k)) as [<-|];
      [exfalso; apply Hkey; congruence | exact Hg].
  - rewrite lookup_insert. destruct (decide (c = k)) as [<-|];
      [exfalso; apply Hcell; congruence | exact Hg].
Qed.

(** X10. A placement never overwrites: whatever its outcome and wherever it
    lands, [__setitem__], [put_piece] and [place_king] leave every entry of
    the piece map and of the grid where it was. In particular a second
    [place_king] for a team leaves the first king on its square. *)
Theorem placements_never_overwrite
    (m : Mutation) (w : World) (res : Res unit) (w' : World) :
  (forall pos, m <> MRemove pos) -> (forall p dst, m <> MMove p dst) ->
  run_mutation m w = (res, w') ->
  (forall k r, dict_get (_pieces (brd w)) k = Some r ->
               dict_get (_pieces (brd w')) k = Some r) /\
  (forall k r, board (brd w) !! k = Some r -> board (brd w') !! k = Some r).
Proof.
  intros Hr Hm. destruct m as [pos val|c k t|c t|pos|p dst]; simpl.
  - apply setitem_never_overwrites.
  - unfold put_piece. destruct (to_both_coord c) as [cxy pxy].
    unfold bind at 1. unfold alloc at 1. intros Hrun.
    apply setitem_never_overwrites in Hrun. exact Hrun.
  - rewrite place_king_run. cbv zeta.
    destruct (__setitem__ _ (next_ref w) _) as [[[]|e] w2] eqn:Hs;
      intros Hrun; inversion Hrun; subst;
      apply setitem_never_overwrites in Hs; exact Hs.
  - exfalso. exact (Hr pos eq_refl).
  - exfalso. exact (Hm p dst eq_refl).
Qed.

End StoreInvariant.

(** ** Danger zones and attackers *)

Section Zones.
Context `{Pieces}.

(** What the loop has gathered after any number of rounds. *)
Lemma gather_elem (w : World) (tm : Team) (x : Position) :
  forall (entries : dict ref) (acc : PosSet),
    x ∈ fold_left (gather w tm) entries acc <->
    x ∈ acc \/
    exists pos r, (pos, r) ∈ entries /\ team (heap w r) = tm /\
       x ∈ danger_zone (heap w) (heap w r) (_pieces (brd w)).
Proof.
  induction entries as [|[k r] entries IH]; intros acc; simpl.
  - split; [intros Hx; left; exact Hx|].
    intros [Hx|(pos & r & Hin & _)]; [exact Hx|].
    apply elem_of_nil in Hin. contradiction.
  - rewrite IH. unfold gather. simpl.
    destruct (decide (team (heap w r) = tm)) as [Ht|Ht].
    + rewrite elem_of_union. split.
      * intros [[Hx|Hx]|(pos & r' & Hin & Ht' & Hx)].
        -- left. exact Hx.
        -- right. exists k, r. split; [left | auto].
        -- right. exists pos, r'. split; [right; exact Hin | auto].
      * intros [Hx|(pos & r' & Hin & Ht' & Hx)]; [left; left; exact Hx|].
        apply elem_of_cons in Hin as [Hhd|Htl].
        -- injection Hhd as -> ->. left. right. exact Hx.
        -- right. exists pos, r'. auto.
    + split.
      * intros [Hx|(pos & r' & Hin & Ht' & Hx)]; [left; exact Hx|].
        right. exists pos, r'. split; [right; exact Hin | auto].
      * intros [Hx|(pos & r' & Hin & Ht' & Hx)]; [left; exact Hx|].
        apply elem_of_cons in Hin as [Hhd|Htl].
        -- injection Hhd as -> ->. contradiction.
        -- right. exists pos, r'. auto.
Qed.

Lemma get_danger_zone_gather (w : World) (tm : Team) :
  get_danger_zone w tm = fold_left (gather w tm) (_pieces (brd w)) ∅.
Proof. reflexivity. Qed.

(** X11. [get_danger_zone(team)] is the union of the danger zones of the
    pieces of [team] in the piece map, and of nothing else. *)
Theorem danger_zone_is_the_union (w : World) (tm : Team) (x : Position) :
  x ∈ get_danger_zone w tm <->
  exists pos r, (pos, r) ∈ _pieces (brd w) /\ team (heap w r) = tm /\
                x ∈ danger_zone (heap w) (heap w r) (_pieces (brd w)).
Proof.
  rewrite get_danger_zone_gather, gather_elem. split.
  - intros [Hn|Hr]; [|exact Hr].
    apply not_elem_of_empty in Hn. contradiction.
  - intros Hr. right. exact Hr.
Qed.

(** X12. [is_check(team)] raises when [kings[team]] is not set; otherwise it
    answers, and the answer is [True] exactly when the king's [position]
    lies in the danger zone of some piece of the other team that is in the
    piece map. *)
Theorem is_check_meaning (w : World) (tm : Team) :
  (kings (brd w) tm = None ->
     forall dz, is_check w tm dz = Raise AttributeError) /\
  (forall k, kings (brd w) tm = Some k ->
     (exists b, is_check w tm None = Ok b) /\
     (is_check w tm None = Ok true <->
      exists pos r, (pos, r) ∈ _pieces (brd w) /\
        team (heap w r) = team_inv tm /\
        position (heap w k) ∈
          danger_zone (heap w) (heap w r) (_pieces (brd w)))).
Proof.
  unfold is_check. split.
  - intros Hk dz. rewrite Hk. reflexivity.
  - intros k Hk. rewrite Hk. simpl. split; [eauto|].
    rewrite get_danger_zone_gather. split.
    + intros Hb. injection Hb as Hb. apply bool_decide_eq_true in Hb.
      apply gather_elem in Hb as [Hn|Hr]; [|exact Hr].
      apply not_elem_of_empty in Hn. contradiction.
    + intros Hr. f_equal. apply bool_decide_eq_true.
      apply gather_elem. right. exact Hr.
Qed.

(** The chain of tests of [get_attackers] appends something for an entry
    exactly when its square lies in the zone of its kind. *)
Lemma attacker_entry_in_zone (w : World) (tm : Team) (ph : Phantoms)
    (pos : Position) (r : ref) :
  kind (heap w r) <> King ->
  (in_zone ph (kind (heap w r)) pos <->
   exists s, attacker_entry w tm ph pos r = Some (r, s)) /\
  (~ in_zone ph (kind (heap w r)) pos <->
   attacker_entry w tm ph pos r = None).
Proof.
  intros Hk. unfold attacker_entry, in_zone.
  destruct (kind (heap w r)) eqn:Ek; try congruence; clear Hk;
    repeat match goal with
    | |- context [bool_decide ?P] =>
        let E := fresh "E" in
        destruct (bool_decide P) eqn:E;
        [apply bool_decide_eq_true in E | apply bool_decide_eq_false in E]
    end; simpl;
    (split; split;
     [ try (intros _; eexists; reflexivity); intros; exfalso; intuition congruence
     | try (intros [? ?]; discriminate); intros; intuition congruence
     | try (intros _; reflexivity); intros; exfalso; intuition congruence
     | try discriminate; intros; intuition congruence ]).
Qed.

(** The piece of an appended pair is the piece of the entry. *)
Lemma attacker_entry_fst (w : World) (tm : Team) (ph : Phantoms)
    (pos : Position) (r : ref) (a : ref * PosSet) :
  attacker_entry w tm ph pos r = Some a -> a.1 = r.
Proof.
  unfold attacker_entry.
  repeat match goal with
  | |- context [if ?c then _ else _] => destruct c
  end; intros Ha; try discriminate; injection Ha as <-; reflexivity.
Qed.

(** The loop never drops what it has collected. *)
Lemma attackers_loop_keeps (w : World) (tm : Team) (ph : Phantoms) :
  forall entries acc a,
    a ∈ acc -> a ∈ attackers_loop w tm ph entries acc.
Proof.
  induction entries as [|[pos r] entries IH]; intros acc a Ha; simpl; [exact Ha|].
  destruct (bool_decide (team (heap w r) = tm) || bool_decide (kind (heap w r) = King));
    [apply IH; exact Ha|].
  assert (Ha' : a ∈ match attacker_entry w tm ph pos r with
                    | Some a0 => acc ++ [a0] | None => acc end).
  { destruct (attacker_entry w tm ph pos r); [|exact Ha].
    apply elem_of_app. left. exact Ha. }
  destruct (decide _); [exact Ha'|]. apply IH. exact Ha'.
Qed.

(** Everything the loop returns was collected before or is appended for an
    entry of another team that is no king. *)
Lemma attackers_loop_sound (w : World) (tm : Team) (ph : Phantoms) :
  forall entries acc a,
    a ∈ attackers_loop w tm ph entries acc ->
    a ∈ acc \/
    exists pos r, (pos, r) ∈ entries /\ team (heap w r) <> tm /\
      kind (heap w r) <> King /\ attacker_entry w tm ph pos r = Some a.
Proof.
  induction entries as [|[pos r] entries IH]; intros acc a Ha; simpl in Ha;
    [left; exact Ha|].
  destruct (bool_decide (team (heap w r) = tm)) eqn:Et; simpl in Ha.
  { apply IH in Ha as [Ha|(p' & r' & Hin & Hrest)]; [left; exact Ha|].
    right. exists p', r'. split; [right; exact Hin | exact Hrest]. }
  destruct (bool_decide (kind (heap w r) = King)) eqn:Ek; simpl in Ha.
  { apply IH in Ha as [Ha|(p' & r' & Hin & Hrest)]; [left; exact Ha|].
    right. exists p', r'. split; [right; exact Hin | exact Hrest]. }
  apply bool_decide_eq_false in Et, Ek.
  assert (Hstep : forall a0,
            a0 ∈ match attacker_entry w tm ph pos r with
                 | Some a1 => acc ++ [a1] | None => acc end ->
            a0 ∈ acc \/ attacker_entry w tm ph pos r = Some a0).
  { intros a0 Ha0. destruct (attacker_entry w tm ph pos r) as [a1|]; [|left; exact Ha0].
    apply elem_of_app in Ha0 as [Ha0|Ha0]; [left; exact Ha0|].
    apply list_elem_of_singleton in Ha0. subst. right. reflexivity. }
  assert (Hin : a ∈ match attacker_entry w tm ph pos r with
                    | Some a1 => acc ++ [a1] | None => acc end \/
                exists pos' r', (pos', r') ∈ entries /\ team (heap w r') <> tm /\
                  kind (heap w r') <> King /\
                  attacker_entry w tm ph pos' r' = Some a).
  { destruct (decide _); [left; exact Ha|]. apply IH in Ha. exact Ha. }
  destruct Hin as [Hin|(p' & r' & Hin & Hrest)].
  - apply Hstep in Hin as [Hin|Hin]; [left; exact Hin|].
    right. exists pos, r. split; [left | auto].
  - right. exists p', r'. split; [right; exact Hin | exact Hrest].
Qed.

(** When the loop returns fewer than two entries it has not returned
    early, so nothing that it appends is missing. *)
Lemma attackers_loop_complete (w : World) (tm : Team) (ph : Phantoms) :
  forall entries acc,
    (length (attackers_loop w tm ph entries acc) < 2)%nat ->
    forall pos r a, (pos, r) ∈ entries -> team (heap w r) <> tm ->
      kind (heap w r) <> King -> attacker_entry w tm ph pos r = Some a ->
      a ∈ attackers_loop w tm ph entries acc.
Proof.
  induction entries as [|[p0 r0] entries IH]; intros acc Hlen pos r a Hin Ht Hk Ha.
  { apply elem_of_nil in Hin. contradiction. }
  simpl in *.
  destruct (bool_decide (team (heap w r0) = tm)) eqn:Et; simpl in *.
  { apply elem_of_cons in Hin as [Hhd|Htl].
    - injection Hhd as -> ->. apply bool_decide_eq_true in Et. contradiction.
    - eapply IH; eauto. }
  destruct (bool_decide (kind (heap w r0) = King)) eqn:Ek; simpl in *.
  { apply elem_of_cons in Hin as [Hhd|Htl].
    - injection Hhd as -> ->. apply bool_decide_eq_true in Ek. contradiction.
    - eapply IH; eauto. }
  destruct (decide _) as [Hge|Hlt]; [lia|].
  apply elem_of_cons in Hin as [Hhd|Htl].
  - injection Hhd as -> ->. rewrite Ha. apply attackers_loop_keeps.
    apply elem_of_app. right. apply list_elem_of_singleton. reflexivity.
  - eapply IH; eauto.
Qed.

(** X13. What [get_attackers(team)] returns, for a set king: every returned
    piece is in the piece map, is of the other team, is no king, and stands
    in the zone that the phantom of its kind on the king's square covers;
    when fewer than two are returned no such piece is missing; and the list
    is empty exactly when there is no such piece. *)
Theorem get_attackers_finds_the_attackers (w : World) (tm : Team) (k : ref)
    (l : list (ref * PosSet)) :
  kings (brd w) tm = Some k ->
  get_attackers w tm = Ok l ->
  let ph := phantoms w tm (position (heap w k)) in
  (forall r s, (r, s) ∈ l ->
     exists pos, (pos, r) ∈ _pieces (brd w) /\ team (heap w r) <> tm /\
       kind (heap w r) <> King /\ in_zone ph (kind (heap w r)) pos) /\
  ((length l < 2)%nat ->
     forall pos r, (pos, r) ∈ _pieces (brd w) -> team (heap w r) <> tm ->
       in_zone ph (kind (heap w r)) pos -> exists s, (r, s) ∈ l) /\
  (l = [] <->
     forall pos r, (pos, r) ∈ _pieces (brd w) -> team (heap w r) <> tm ->
       ~ in_zone ph (kind (heap w r)) pos).
Proof.
  intros Hk Hl ph. unfold get_attackers in Hl. rewrite Hk in Hl. simpl in Hl.
  injection Hl as Hl. fold ph in Hl.
  assert (Hsound : forall r s, (r, s) ∈ l ->
            exists pos, (pos, r) ∈ _pieces (brd w) /\ team (heap w r) <> tm /\
              kind (heap w r) <> King /\ in_zone ph (kind (heap w r)) pos).
  { intros r s Hin. rewrite <- Hl in Hin.
    apply attackers_loop_sound in Hin as [Hin|(pos & r' & Hin & Ht & Hkd & Ha)].
    { apply elem_of_nil in Hin. contradiction. }
    pose proof (attacker_entry_fst _ _ _ _ _ _ Ha) as E. simpl in E. subst r'. exists pos. repeat split; try assumption.
    apply (proj1 (attacker_entry_in_zone w tm ph pos r Hkd)). eauto. }
  assert (Hcomplete : (length l < 2)%nat ->
            forall pos r, (pos, r) ∈ _pieces (brd w) -> team (heap w r) <> tm ->
              in_zone ph (kind (heap w r)) pos -> exists s, (r, s) ∈ l).
  { intros Hlen pos r Hin Ht Hz.
    assert (Hkd : kind (heap w r) <> King).
    { intros E. rewrite E in Hz. exact Hz. }
    destruct (proj1 (proj1 (attacker_entry_in_zone w tm ph pos r Hkd)) Hz) as [s Hs].
    exists s. rewrite <- Hl. rewrite <- Hl in Hlen.
    eapply attackers_loop_complete; eauto. }
  split; [exact Hsound|]. split; [exact Hcomplete|]. split.
  - intros -> pos r Hin Ht Hz.
    destruct (Hcomplete ltac:(simpl; lia) pos r Hin Ht Hz) as [s Hs].
    apply elem_of_nil in Hs. exact Hs.
  - intros Hnone. destruct l as [|[r s] l']; [reflexivity|]. exfalso.
    destruct (Hsound r s ltac:(left)) as (pos & Hin & Ht & _ & Hz).
    exact (Hnone pos r Hin Ht Hz).
Qed.

End Zones.

(** ** More on [legal_moves] *)

Section LegalMoves.
Context `{Pieces}.

(** The first loop, entry by entry, when the piece map has every key once:
    the entry of a square is the [get_moves] of the piece standing on it. *)
Lemma raw_moves_get (w : World) (tm : Team) (pos : Position) :
  NoDup (dict_keys (_pieces (brd w))) ->
  dict_get (raw_moves w tm).1 pos =
    match dict_get (_pieces (brd w)) pos with
    | Some r =>
        if decide (team (heap w r) = tm)
        then Some (get_moves (heap w) (heap w r) (_pieces (brd w))
                     (en_passant (brd w)).1)
        else None
    | None => None
    end.
Proof.
  unfold raw_moves.
  match goal with
  | |- _ -> dict_get (fold_left ?f ?l ?a).1 _ = _ =>
      set (F := f);
      cut (forall (entries : dict ref) (acc : dict PosSet * PosSet),
             NoDup (dict_keys entries) ->
             dict_get (fold_left F entries acc).1 pos =
               match dict_get entries pos with
               | Some r =>
                   if decide (team (heap w r) = tm)
                   then Some (get_moves (heap w) (heap w r) (_pieces (brd w))
                                (en_passant (brd w)).1)
                   else dict_get acc.1 pos
               | None => dict_get acc.1 pos
               end);
      [intros Hc Hnd; rewrite (Hc l a Hnd); simpl;
       destruct (dict_get l pos); [destruct (decide _)|]; reflexivity|]
  end.
  induction entries as [|[k r] entries IH]; intros acc Hnd; simpl; [reflexivity|].
  unfold dict_keys in Hnd. simpl in Hnd. apply NoDup_cons in Hnd as [Hk Hnd].
  rewrite (IH _ Hnd). destruct (decide (k = pos)) as [->|Hne].
  - apply dict_get_None_keys in Hk. rewrite Hk. unfold F. simpl.
    destruct (decide (team (heap w r) <> tm)) as [Ht|Ht]; simpl.
    + destruct (decide (team (heap w r) = tm)); [contradiction | reflexivity].
    + destruct (decide (team (heap w r) = tm)) as [_|Ht']; [|tauto].
      apply dict_get_set_eq.
  - assert (Hsame : dict_get (F acc (k, r)).1 pos = dict_get acc.1 pos).
    { unfold F. simpl. destruct (decide (team (heap w r) <> tm)); simpl;
        [reflexivity | apply dict_get_set_ne; exact Hne]. }
    rewrite Hsame. reflexivity.
Qed.

(** The second loop only cuts entries down. *)
Lemma apply_pins_subset (h : ref -> Piece) :
  forall (pins : list (ref * PosSet)) (pm pm' : dict PosSet),
    apply_pins h pins pm = Ok pm' ->
    forall pos s', dict_get pm' pos = Some s' ->
      exists s, dict_get pm pos = Some s /\ s' ⊆ s.
Proof.
  induction pins as [|[p rs] pins IH]; intros pm pm' Hrun pos s' Hg; simpl in Hrun.
  - injection Hrun as <-. exists s'. split; [exact Hg | reflexivity].
  - destruct (dict_get pm (position (h p))) as [s0|] eqn:Hs0; [|discriminate].
    destruct (IH _ _ Hrun pos s' Hg) as (s1 & Hs1 & Hsub).
    rewrite dict_get_set in Hs1.
    destruct (decide (position (h p) = pos)) as [<-|Hne].
    + injection Hs1 as <-. exists s0. split; [exact Hs0|].
      etrans; [exact Hsub | apply intersection_subseteq_l].
    + exists s1. split; [exact Hs1 | exact Hsub].
Qed.

(** The entry of a pinned piece ends within the squares of its pin. *)
Lemma apply_pins_within (h : ref -> Piece) :
  forall (pins : list (ref * PosSet)) (pm pm' : dict PosSet),
    apply_pins h pins pm = Ok pm' ->
    forall p rs, (p, rs) ∈ pins ->
      exists s', dict_get pm' (position (h p)) = Some s' /\ s' ⊆ rs.
Proof.
  induction pins as [|[p0 rs0] pins IH]; intros pm pm' Hrun p rs Hin; simpl in Hrun.
  - apply elem_of_nil in Hin. contradiction.
  - destruct (dict_get pm (position (h p0))) as [s0|] eqn:Hs0; [|discriminate].
    apply elem_of_cons in Hin as [Hhd|Htl].
    + injection Hhd as -> ->.
      assert (Hk : dict_get pm' (position (h p0)) <> None).
      { rewrite (not_iff_compat (dict_get_None_keys _ _)).
        rewrite (apply_pins_keys _ _ _ _ Hrun).
        rewrite <- (not_iff_compat (dict_get_None_keys _ _)).
        rewrite dict_get_set_eq. discriminate. }
      destruct (dict_get pm' (position (h p0))) as [s'|] eqn:Hs'; [|congruence].
      destruct (apply_pins_subset h _ _ _ Hrun _ _ Hs') as (s1 & Hs1 & Hsub).
      rewrite dict_get_set_eq in Hs1. injection Hs1 as <-.
      exists s'. split; [reflexivity|].
      etrans; [exact Hsub | apply intersection_subseteq_r].
    + exact (IH _ _ Hrun p rs Htl).
Qed.

(** The second loop completes only if every pinned piece has an entry. *)
Lemma apply_pins_present (h : ref -> Piece) :
  forall (pins : list (ref * PosSet)) (pm pm' : dict PosSet),
    apply_pins h pins pm = Ok pm' ->
    forall p rs, (p, rs) ∈ pins -> dict_get pm (position (h p)) <> None.
Proof.
  induction pins as [|[p0 rs0] pins IH]; intros pm pm' Hrun p rs Hin; simpl in Hrun.
  - apply elem_of_nil in Hin. contradiction.
  - destruct (dict_get pm (position (h p0))) as [s0|] eqn:Hs0; [|discriminate].
    apply elem_of_cons in Hin as [Hhd|Htl].
    + injection Hhd as -> ->. congruence.
    + pose proof (IH _ _ Hrun p rs Htl) as Hp.
      rewrite dict_get_set in Hp.
      destruct (decide (position (h p0) = position (h p))) as [E|_];
        [rewrite <- E; congruence | exact Hp].
Qed.

(** The loops over [pmoves] fail with a [KeyError] only. *)
Lemma apply_pins_error (h : ref -> Piece) :
  forall (pins : list (ref * PosSet)) (pm : dict PosSet) (e : Exn),
    apply_pins h pins pm = Raise e -> e = KeyError.
Proof.
  induction pins as [|[p rs] pins IH]; intros pm e Hrun; simpl in Hrun;
    [discriminate|].
  destruct (dict_get pm (position (h p))); [eauto | congruence].
Qed.

Lemma restrict_to_check_error (w : World) (kingpos : Position) (blocks : PosSet) :
  forall (keys : list Position) (pm : dict PosSet) (e : Exn),
    restrict_to_check w kingpos blocks keys pm = Raise e -> e = KeyError.
Proof.
  induction keys as [|k keys IH]; intros pm e Hrun; simpl in Hrun; [discriminate|].
  destruct (decide (k <> kingpos)); [|eauto].
  destruct (dict_get pm k); [|congruence].
  destruct (en_passant (brd w)).1; [|eauto].
  destruct (dict_get (_pieces (brd w)) k); [eauto | congruence].
Qed.

(** With the king set, [legal_moves] fails with a [KeyError] only. *)
Lemma legal_moves_error (w : World) (tm : Team) (king : ref) (e : Exn) :
  kings (brd w) tm = Some king ->
  legal_moves w tm = Raise e -> e = KeyError.
Proof.
  intros Hk. unfold legal_moves. rewrite Hk. simpl.
  destruct (pinned_moves w tm) as [pinned|e0] eqn:Hp; simpl.
  - destruct (get_attackers w tm) as [attackers|e1] eqn:Ha; simpl.
    + destruct (decide (0 < length attackers)%nat).
      * destruct (restrict_to_check _ _ _ _ _) as [pm1|e2] eqn:Hr; simpl.
        -- destruct (dict_get pm1 _); simpl; congruence.
        -- intros E. injection E as <-.
           exact (restrict_to_check_error _ _ _ _ _ _ Hr).
      * simpl. destruct (dict_get pinned _); simpl; congruence.
    + unfold get_attackers in Ha. rewrite Hk in Ha. discriminate.
  - intros E. injection E as <-. unfold pinned_moves in Hp. rewrite Hk in Hp.
    exact (apply_pins_error _ _ _ _ Hp).
Qed.

(** What a returned mapping tells about the board. *)
Lemma legal_moves_needs (w : World) (tm : Team) (king : ref) (pm : dict PosSet) :
  kings (brd w) tm = Some king ->
  legal_moves w tm = Ok pm ->
  (exists r, (position (heap w king), r) ∈ _pieces (brd w) /\ team (heap w r) = tm) /\
  (forall p rs, (p, rs) ∈ check_pins (heap w) (heap w king) (_pieces (brd w)) ->
     exists r, (position (heap w p), r) ∈ _pieces (brd w) /\ team (heap w r) = tm).
Proof.
  intros Hk Hrun.
  destruct (legal_moves_entries w tm pm Hrun)
    as (king' & pinned & attackers & Hk' & Hp & _ & _ & s & Hs & _).
  assert (king' = king) by congruence. subst king'.
  unfold pinned_moves in Hp. rewrite Hk in Hp. simpl in Hp. split.
  - apply raw_moves_entries.
    rewrite (not_iff_compat (dict_get_None_keys _ _)).
    rewrite <- (apply_pins_keys _ _ _ _ Hp).
    rewrite <- (not_iff_compat (dict_get_None_keys _ _)). congruence.
  - intros p rs Hin. apply raw_moves_entries.
    exact (apply_pins_present _ _ _ _ Hp p rs Hin).
Qed.

(** X14. When [legal_moves(team)] returns and when it raises.  Without a
    king of the team it raises [AttributeError].  With one, it returns a
    mapping if the king's [position] and the [position] of every piece that
    [check_pins] reports are squares held by pieces of the team, and raises
    [KeyError] otherwise. *)
Theorem legal_moves_returns_or_raises (w : World) (tm : Team) :
  (kings (brd w) tm = None -> legal_moves w tm = Raise AttributeError) /\
  (forall king, kings (brd w) tm = Some king ->
     let held pos :=
       exists r, (pos, r) ∈ _pieces (brd w) /\ team (heap w r) = tm in
     let fit :=
       held (position (heap w king)) /\
       forall p rs,
         (p, rs) ∈ check_pins (heap w) (heap w king) (_pieces (brd w)) ->
         held (position (heap w p)) in
     (fit -> exists pm, legal_moves w tm = Ok pm) /\
     (~ fit -> legal_moves w tm = Raise KeyError)).
Proof.
  split.
  - intros Hk. unfold legal_moves. rewrite Hk. reflexivity.
  - intros king Hk held fit. split.
    + intros [Hking Hpins]. exact (legal_moves_returns w tm king Hk Hking Hpins).
    + intros Hn. destruct (legal_moves w tm) as [pm|e] eqn:Hrun.
      * exfalso. apply Hn. exact (legal_moves_needs w tm king pm Hk Hrun).
      * f_equal. exact (legal_moves_error w tm king e Hk Hrun).
Qed.

(** X15. The mapping [legal_moves(team)] returns has an entry for exactly
    the squares that pieces of the team hold in the piece map. *)
Theorem legal_moves_has_the_teams_squares (w : World) (tm : Team)
    (pm : dict PosSet) (pos : Position) :
  legal_moves w tm = Ok pm ->
  (dict_get pm pos <> None <->
   exists r, (pos, r) ∈ _pieces (brd w) /\ team (heap w r) = tm).
Proof.
  intros Hrun.
  destruct (legal_moves_entries w tm pm Hrun)
    as (king & pinned & attackers & Hk & Hp & _ & Hother & s & Hs & Hking).
  rewrite <- raw_moves_entries.
  assert (Hsame : dict_get pinned pos <> None <->
                  dict_get (raw_moves w tm).1 pos <> None).
  { unfold pinned_moves in Hp. rewrite Hk in Hp. simpl in Hp.
    rewrite !(not_iff_compat (dict_get_None_keys _ _)).
    rewrite (apply_pins_keys _ _ _ _ Hp). reflexivity. }
  rewrite <- Hsame.
  destruct (decide (pos = position (heap w king))) as [->|Hne].
  - rewrite Hking, Hs. split; discriminate.
  - rewrite (Hother pos Hne).
    destruct (decide (0 < length attackers)%nat); [|reflexivity].
    destruct (dict_get pinned pos); simpl; split; congruence.
Qed.

(** X16. [legal_moves] invents no move: with every key of the piece map
    once, an entry of the returned mapping belongs to a piece of the team on
    that square and holds only squares of the piece's [get_moves], apart
    from the en-passant square that the check loop adds to a pawn's entry. *)
Theorem legal_moves_within_get_moves (w : World) (tm : Team)
    (pm : dict PosSet) (pos : Position) (s : PosSet) :
  NoDup (dict_keys (_pieces (brd w))) ->
  legal_moves w tm = Ok pm ->
  dict_get pm pos = Some s ->
  exists r, dict_get (_pieces (brd w)) pos = Some r /\ team (heap w r) = tm /\
    s ⊆ get_moves (heap w) (heap w r) (_pieces (brd w)) (en_passant (brd w)).1
        ∪ en_passant_added w pos.
Proof.
  intros Hnd Hrun Hg.
  destruct (legal_moves_entries w tm pm Hrun)
    as (king & pinned & attackers & Hk & Hp & _ & Hother & sk & Hsk & Hking).
  unfold pinned_moves in Hp. rewrite Hk in Hp. simpl in Hp.
  assert (Hraw : forall s0, dict_get pinned pos = Some s0 ->
            exists r, dict_get (_pieces (brd w)) pos = Some r /\
              team (heap w r) = tm /\
              s0 ⊆ get_moves (heap w) (heap w r) (_pieces (brd w))
                     (en_passant (brd w)).1).
  { intros s0 Hs0.
    destruct (apply_pins_subset _ _ _ _ Hp pos s0 Hs0) as (s1 & Hs1 & Hsub).
    rewrite (raw_moves_get w tm pos Hnd) in Hs1.
    destruct (dict_get (_pieces (brd w)) pos) as [r|]; [|discriminate].
    destruct (decide (team (heap w r) = tm)) as [Ht|]; [|discriminate].
    injection Hs1 as <-. exists r. auto. }
  destruct (decide (pos = position (heap w king))) as [->|Hne].
  - rewrite Hking in Hg. injection Hg as <-.
    destruct (Hraw sk Hsk) as (r & Hr & Ht & Hsub).
    exists r. split; [exact Hr|]. split; [exact Ht|].
    intros x Hx. apply elem_of_union. left. apply Hsub.
    apply elem_of_difference in Hx as [Hx _]. exact Hx.
  - rewrite (Hother pos Hne) in Hg.
    destruct (decide (0 < length attackers)%nat).
    + destruct (dict_get pinned pos) as [s0|] eqn:Hs0; [|discriminate].
      simpl in Hg. injection Hg as <-.
      destruct (Hraw s0 eq_refl) as (r & Hr & Ht & Hsub).
      exists r. split; [exact Hr|]. split; [exact Ht|].
      unfold restricted. intros x Hx.
      apply elem_of_union in Hx as [Hx|Hx]; apply elem_of_union.
      * left. apply Hsub. apply elem_of_intersection in Hx as [Hx _]. exact Hx.
      * right. exact Hx.
    + destruct (Hraw s Hg) as (r & Hr & Ht & Hsub).
      exists r. split; [exact Hr|]. split; [exact Ht|].
      intros x Hx. apply elem_of_union. left. apply Hsub. exact Hx.
Qed.

(** X17. Pins are kept: the entry of a pinned piece that is not on the
    king's square holds only squares of its pin, apart from the en-passant
    square that the check loop adds to a pawn's entry; with no attacker it
    holds squares of the pin only. *)
Theorem legal_moves_keeps_pins (w : World) (tm : Team) (pm : dict PosSet)
    (king p : ref) (rs : PosSet) (l : list (ref * PosSet)) :
  legal_moves w tm = Ok pm ->
  kings (brd w) tm = Some king ->
  get_attackers w tm = Ok l ->
  (p, rs) ∈ check_pins (heap w) (heap w king) (_pieces (brd w)) ->
  position (heap w p) <> position (heap w king) ->
  exists s, dict_get pm (position (heap w p)) = Some s /\
    s ⊆ rs ∪ en_passant_added w (position (heap w p)) /\
    (l = [] -> s ⊆ rs).
Proof.
  intros Hrun Hk Hl Hin Hne.
  destruct (legal_moves_entries w tm pm Hrun)
    as (king' & pinned & attackers & Hk' & Hp & Ha & Hother & _).
  assert (king' = king) by congruence. subst king'.
  assert (attackers = l) by congruence. subst attackers.
  unfold pinned_moves in Hp. rewrite Hk in Hp. simpl in Hp.
  destruct (apply_pins_within _ _ _ _ Hp p rs Hin) as (s' & Hs' & Hsub).
  rewrite (Hother _ Hne), Hs'.
  destruct (decide (0 < length l)%nat) as [Hlen|Hlen]; simpl.
  - eexists. split; [reflexivity|]. split.
    + unfold restricted. intros x Hx.
      apply elem_of_union in Hx as [Hx|Hx]; apply elem_of_union.
      * left. apply Hsub. apply elem_of_intersection in Hx as [Hx _]. exact Hx.
      * right. exact Hx.
    + intros ->. simpl in Hlen. lia.
  - exists s'. split; [reflexivity|]. split; [|intros _; exact Hsub].
    intros x Hx. apply elem_of_union. left. apply Hsub. exact Hx.
Qed.

(** X18. A quiet position: with every key of the piece map once, the king
    on a square of its own team, no pin and no attacker, every piece of the
    team gets its own [get_moves], the piece on the king's square without
    the danger zone of the other team, and no other square has an entry. *)
Theorem legal_moves_of_a_quiet_position (w : World) (tm : Team) (king : ref) :
  NoDup (dict_keys (_pieces (brd w))) ->
  kings (brd w) tm = Some king ->
  (exists r, dict_get (_pieces (brd w)) (position (heap w king)) = Some r /\
             team (heap w r) = tm) ->
  check_pins (heap w) (heap w king) (_pieces (brd w)) = [] ->
  get_attackers w tm = Ok [] ->
  exists pm, legal_moves w tm = Ok pm /\
    forall pos,
      dict_get pm pos =
        match dict_get (_pieces (brd w)) pos with
        | Some r =>
            if decide (team (heap w r) = tm)
            then
              let moves := get_moves (heap w) (heap w r) (_pieces (brd w))
                             (en_passant (brd w)).1 in
              Some (if decide (pos = position (heap w king))
                    then moves ∖ get_danger_zone w (team_inv tm)
                    else moves)
            else None
        | None => None
        end.
Proof.
  intros Hnd Hk (rk & Hrk & Htk) Hpins Ha.
  unfold legal_moves, pinned_moves. rewrite Hk. cbn [rbind of_opt].
  rewrite Hpins, Ha. cbn [rbind of_opt apply_pins length]. simpl decide.
  destruct (decide (0 < 0)%nat) as [?|_]; [lia|].
  pose proof (raw_moves_get w tm (position (heap w king)) Hnd) as Hraw.
  rewrite Hrk in Hraw. destruct (decide (team (heap w rk) = tm)); [|contradiction].
  cbn [rbind]. rewrite Hraw. cbn [rbind of_opt]. eexists. split; [reflexivity|].
  intros pos. rewrite dict_get_set.
  destruct (decide (position (heap w king) = pos)) as [<-|Hne].
  - rewrite Hrk. destruct (decide (team (heap w rk) = tm)); [|contradiction].
    simpl. destruct (decide (position (heap w king) = position (heap w king)));
      [|congruence].
    rewrite raw_moves_danger_zone. reflexivity.
  - rewrite (raw_moves_get w tm pos Hnd).
    destruct (dict_get (_pieces (brd w)) pos) as [r|]; [|reflexivity].
    destruct (decide (team (heap w r) = tm)); [|reflexivity].
    simpl. destruct (decide (pos = position (heap w king))); [congruence|].
    reflexivity.
Qed.

End LegalMoves.

(** ** Scripts of placements *)

Section ScriptRuns.
Context `{Misc} `{Pieces}.

(** A placement on an empty square of the board completes. *)
Lemma placement_run (w : World) (p : Placement) :
  on_board (target p) -> ~ occupied (brd w) (target p) ->
  run_placement p w = (Ok tt, placed w p).
Proof.
  intros Hon Hfree. destruct p as [c k t|c t]; unfold target in *; simpl in *.
  - unfold put_piece. destruct (to_both_coord c) as [cxy pxy] eqn:E. simpl in *.
    unfold bind, alloc. rewrite setitem_empty by (simpl; assumption).
    unfold placed, target. simpl. rewrite E. reflexivity.
  - rewrite place_king_run. simpl.
    rewrite setitem_empty by (simpl; assumption).
    unfold placed, target. reflexivity.
Qed.

(** A placement on an occupied square of the board raises and leaves the
    board as it was. *)
Lemma placement_collides (w : World) (p : Placement) :
  on_board (target p) -> occupied (brd w) (target p) ->
  exists w', run_placement p w = (Raise ValueError, w') /\ brd w' = brd w.
Proof.
  intros Hon Hocc. destruct p as [c k t|c t]; unfold target in *; simpl in *.
  - unfold put_piece. destruct (to_both_coord c) as [cxy pxy] eqn:E. simpl in *.
    unfold bind, alloc. rewrite setitem_occupied by (simpl; assumption).
    eexists. split; reflexivity.
  - rewrite place_king_run. simpl.
    rewrite setitem_occupied by (simpl; assumption).
    eexists. split; reflexivity.
Qed.

Lemma placed_occupied (w : World) (p : Placement) (pos : Position) :
  occupied (brd (placed w p)) pos <-> pos = target p \/ occupied (brd w) pos.
Proof.
  unfold occupied.
  assert (Hb : board (brd (placed w p)) = <[target p := next_ref w]> (board (brd w)))
    by (destruct p; reflexivity).
  assert (Hp : _pieces (brd (placed w p)) =
               dict_set (_pieces (brd w)) (target p) (next_ref w))
    by (destruct p; reflexivity).
  rewrite Hb, Hp, lookup_insert, dict_get_set.
  destruct (decide (target p = pos)) as [->|Hne].
  - split; [intros _; left; reflexivity | intros _; left; discriminate].
  - split; [intros Hocc; right; exact Hocc|].
    intros [->|Hocc]; [contradiction | exact Hocc].
Qed.

Lemma placed_dual (w : World) (p : Placement) :
  on_board (target p) -> dual_repr (brd w) -> dual_repr (brd (placed w p)).
Proof.
  intros Hon Hd.
  pose proof (dual_repr_board_with (brd w) (target p) (next_ref w) Hon Hd) as Hd'.
  destruct p; exact Hd'.
Qed.

Lemma placed_all_occupied (l : list Placement) :
  forall (w : World) (pos : Position),
    occupied (brd (placed_all w l)) pos <->
    pos ∈ target <$> l \/ occupied (brd w) pos.
Proof.
  induction l as [|p l IH]; intros w pos; simpl.
  - split; [intros Hocc; right; exact Hocc|].
    intros [Hin|Hocc]; [apply elem_of_nil in Hin; contradiction | exact Hocc].
  - unfold placed_all in *. simpl. rewrite IH, placed_occupied, elem_of_cons. tauto.
Qed.

Lemma placed_all_dual (l : list Placement) :
  forall w : World,
    Forall (fun p => on_board (target p)) l ->
    dual_repr (brd w) -> dual_repr (brd (placed_all w l)).
Proof.
  induction l as [|p l IH]; intros w Hon Hd; [exact Hd|].
  apply Forall_cons in Hon as [Hp Hon]. unfold placed_all in *. simpl.
  apply IH; [exact Hon | apply placed_dual; assumption].
Qed.

(** The piece map and the object counter after a script on free squares. *)
Lemma placed_all_pieces (l : list Placement) :
  forall w : World,
    NoDup (target <$> l) ->
    Forall (fun p => dict_get (_pieces (brd w)) (target p) = None) l ->
    _pieces (brd (placed_all w l)) = _pieces (brd w) ++ new_entries (next_ref w) l /\
    next_ref (placed_all w l) = (next_ref w + length l)%nat.
Proof.
  induction l as [|p l IH]; intros w Hnd Hfree.
  - simpl. rewrite app_nil_r. split; [reflexivity | lia].
  - rewrite fmap_cons in Hnd. apply NoDup_cons in Hnd as [Hp Hnd].
    apply Forall_cons in Hfree as [Hfp Hfree].
    unfold placed_all in *. simpl fold_left.
    assert (Hpm : _pieces (brd (placed w p)) =
                  _pieces (brd w) ++ [(target p, next_ref w)]).
    { transitivity (dict_set (_pieces (brd w)) (target p) (next_ref w));
        [destruct p; reflexivity | apply dict_set_absent_app; exact Hfp]. }
    assert (Hn : next_ref (placed w p) = S (next_ref w)) by (destruct p; reflexivity).
    destruct (IH (placed w p) Hnd) as [Hpieces Hnext].
    { apply Forall_forall. intros q Hq.
      assert (Hpm' : _pieces (brd (placed w p)) =
                     dict_set (_pieces (brd w)) (target p) (next_ref w))
        by (destruct p; reflexivity).
      rewrite Hpm', dict_get_set.
      destruct (decide (target p = target q)) as [E|_].
      - exfalso. apply Hp. rewrite E. apply list_elem_of_fmap. eauto.
      - exact (proj1 (Forall_forall _ _) Hfree q Hq). }
    rewrite Hpieces, Hnext, Hpm, Hn. split; [|simpl; lia].
    rewrite <- app_assoc. f_equal. unfold new_entries. simpl.
    f_equal; [f_equal; lia|].
    apply imap_ext. intros i q _. simpl. f_equal. lia.
Qed.

(** A script on free squares hands over to what follows it. *)
Lemma script_hands_over {A} (l : list Placement) (k : M A) :
  forall w : World,
    Forall (fun p => on_board (target p)) l ->
    NoDup (target <$> l) ->
    Forall (fun p => ~ occupied (brd w) (target p)) l ->
    run_all l k w = k (placed_all w l).
Proof.
  induction l as [|p l IH]; intros w Hon Hnd Hfree; [reflexivity|].
  apply Forall_cons in Hon as [Hp Hon].
  rewrite fmap_cons in Hnd. apply NoDup_cons in Hnd as [Hnp Hnd].
  apply Forall_cons in Hfree as [Hfp Hfree].
  simpl. unfold bind at 1. rewrite (placement_run w p Hp Hfp).
  unfold placed_all in *. simpl. apply IH; [exact Hon | exact Hnd|].
  apply Forall_forall. intros q Hq Hocc.
  apply placed_occupied in Hocc as [E|Hocc].
  - apply Hnp. rewrite <- E. apply list_elem_of_fmap. eauto.
  - exact (proj1 (Forall_forall _ _) Hfree q Hq Hocc).
Qed.

(** X19. A script of [put_piece] and [place_king] calls whose targets are
    distinct squares of the board, all free, runs to its end on a board
    whose grid and piece map agree: what follows the script starts from the
    state the placements leave one after the other, in which the piece map
    has got the targets in the order of the script, each with a new object,
    and the grid and the piece map still agree. *)
Theorem placements_run_in_order {A} (l : list Placement) (k : M A) (w : World) :
  dual_repr (brd w) ->
  Forall (fun p => on_board (target p)) l ->
  NoDup (target <$> l) ->
  Forall (fun p => ~ occupied (brd w) (target p)) l ->
  run_all l k w = k (placed_all w l) /\
  _pieces (brd (placed_all w l)) = _pieces (brd w) ++ new_entries (next_ref w) l /\
  dual_repr (brd (placed_all w l)).
Proof.
  intros Hd Hon Hnd Hfree. split; [|split].
  - apply script_hands_over; assumption.
  - apply placed_all_pieces; [exact Hnd|].
    apply Forall_forall. intros q Hq.
    pose proof (proj1 (Forall_forall _ _) Hfree q Hq) as Hf.
    unfold occupied in Hf.
    destruct (dict_get (_pieces (brd w)) (target q)); [|reflexivity].
    exfalso. apply Hf. right. discriminate.
  - apply placed_all_dual; assumption.
Qed.

(** X20. A script stops at its first placement on a square that is not
    free, whether the square was taken before the script or by an earlier
    placement of it: the script raises [ValueError], what follows it does
    not run, and the board is what the earlier placements made of it. *)
Theorem placement_collision_stops_the_script {A} (l1 l2 : list Placement)
    (p : Placement) (k : M A) (w : World) :
  dual_repr (brd w) ->
  Forall (fun q => on_board (target q)) l1 ->
  NoDup (target <$> l1) ->
  Forall (fun q => ~ occupied (brd w) (target q)) l1 ->
  target p ∈ target <$> l1 \/ occupied (brd w) (target p) ->
  exists w', run_all (l1 ++ p :: l2) k w = (Raise ValueError, w') /\
             brd w' = brd (placed_all w l1).
Proof.
  intros Hd Hon Hnd Hfree Hocc.
  assert (Hocc' : occupied (brd (placed_all w l1)) (target p))
    by (apply placed_all_occupied; exact Hocc).
  assert (Hd' : dual_repr (brd (placed_all w l1)))
    by (apply placed_all_dual; assumption).
  assert (Hp : on_board (target p)).
  { destruct Hd' as [Hag Hkeys]. apply Hkeys.
    destruct Hocc' as [Hg|Hm]; [rewrite <- Hag|]; assumption. }
  destruct (placement_collides _ p Hp Hocc') as (w' & Hrun & Hb).
  exists w'. split; [|exact Hb].
  unfold run_all. rewrite fold_right_app.
  fold (run_all (A := A) l1 (fold_right (fun p acc => run_placement p ;;; acc) k (p :: l2))).
  rewrite (script_hands_over l1 _ w Hon Hnd Hfree).
  simpl. unfold bind at 1. rewrite Hrun. reflexivity.
Qed.

End ScriptRuns.

(** ** The scripted positions *)

Section InitBoard.
Context `{Misc} `{Pieces}.

Lemma bind_assoc_at {A B C} (m : M A) (f : A -> M B) (g : B -> M C) (w : World) :
  bind (bind m f) g w = bind m (fun a => bind (f a) g) w.
Proof. unfold bind. destruct (m w) as [[a|e] w1]; reflexivity. Qed.

Lemma bind_cong_at {A B} (m : M A) (f g : A -> M B) :
  (forall a w, f a w = g a w) -> forall w, bind m f w = bind m g w.
Proof. intros Hfg w. unfold bind. destruct (m w) as [[a|e] w1]; auto. Qed.

Lemma run_all_cong {A} (l : list Placement) (k1 k2 : M A) :
  (forall w, k1 w = k2 w) -> forall w, run_all l k1 w = run_all l k2 w.
Proof.
  intros Hk. induction l as [|p l IH]; intros w; simpl; [apply Hk|].
  apply bind_cong_at. intros _. exact IH.
Qed.

Lemma run_all_app {A} (l1 l2 : list Placement) (k : M A) :
  run_all (l1 ++ l2) k = run_all l1 (run_all l2 k).
Proof. unfold run_all. apply fold_right_app. Qed.

(** A loop whose body is a script is the script of all its rounds. *)
Lemma for_each_run_all {A X} (ps : X -> list Placement) (body : X -> M unit)
    (l : list X) (k : M A) :
  (forall x (k' : M A) w, (body x ;;; k') w = run_all (ps x) k' w) ->
  forall w, (for_each l body ;;; k) w = run_all (flat_map ps l) k w.
Proof.
  intros Hbody. induction l as [|x l IH]; intros w; [reflexivity|].
  simpl for_each. rewrite bind_assoc_at.
  rewrite (Hbody x (for_each l body ;;; k) w).
  simpl flat_map. rewrite run_all_app. apply run_all_cong. exact IH.
Qed.

(** [init_board] is the script of its placements, loops unrolled. *)
Lemma init_board_script (w : World) :
  init_board w = run_all init_board_placements get_pieces w.
Proof.
  unfold init_board, init_board_placements.
  rewrite (for_each_run_all
             (fun c => [PutPiece (Alg c 2) Pawn White; PutPiece (Alg c 7) Pawn Black])).
  2: { intros x k' w0. rewrite bind_assoc_at. reflexivity. }
  rewrite run_all_app. apply run_all_cong. clear w. intros w.
  rewrite (for_each_run_all
             (fun ic : Z * Team =>
                [PutPiece (Alg "a" ic.1) Rook ic.2; PutPiece (Alg "b" ic.1) Knight ic.2;
                 PutPiece (Alg "c" ic.1) Bishop ic.2; PutPiece (Alg "d" ic.1) Queen ic.2;
                 PutPiece (Alg "f" ic.1) Bishop ic.2; PutPiece (Alg "g" ic.1) Knight ic.2;
                 PutPiece (Alg "h" ic.1) Rook ic.2; PlaceKing (Alg "e" ic.1) ic.2])).
  2: { intros x k' w0.
       repeat (rewrite bind_assoc_at; apply bind_cong_at; intros _ ?).
       reflexivity. }
  rewrite run_all_app. reflexivity.
Qed.

(** X21. [init_board] on a board whose grid and piece map agree, with the
    37 squares it uses distinct, on the board and free: it returns the piece
    map, which has got the 16 pawns, the white and the black back rank and
    the five extra pieces in the order of the source, each with a new
    object; [kings] holds the objects placed on e1 and e8. *)
Theorem init_board_sets_up_the_position (w : World) :
  dual_repr (brd w) ->
  Forall (fun p => on_board (target p)) init_board_placements ->
  NoDup (target <$> init_board_placements) ->
  Forall (fun p => ~ occupied (brd w) (target p)) init_board_placements ->
  exists w',
    init_board w =
      (Ok (_pieces (brd w) ++ new_entries (next_ref w) init_board_placements), w') /\
    length (new_entries (next_ref w) init_board_placements) = 37%nat /\
    kings (brd w') White = Some (23 + next_ref w)%nat /\
    kings (brd w') Black = Some (31 + next_ref w)%nat /\
    dual_repr (brd w').
Proof.
  intros Hd Hon Hnd Hfree. exists (placed_all w init_board_placements).
  rewrite init_board_script, (script_hands_over _ _ w Hon Hnd Hfree).
  assert (Hfree' : Forall (fun p => dict_get (_pieces (brd w)) (target p) = None)
                     init_board_placements).
  { apply Forall_forall. intros q Hq.
    pose proof (proj1 (Forall_forall _ _) Hfree q Hq) as Hf. unfold occupied in Hf.
    destruct (dict_get (_pieces (brd w)) (target q)); [|reflexivity].
    exfalso. apply Hf. right. discriminate. }
  destruct (placed_all_pieces _ w Hnd Hfree') as [Hpieces _].
  split; [|split; [|split; [|split]]].
  - unfold get_pieces, bind, get_world, ret. rewrite Hpieces. reflexivity.
  - reflexivity.
  - reflexivity.
  - reflexivity.
  - apply placed_all_dual; assumption.
Qed.

End InitBoard.

(** ** The colour matrix of [plot_chessboard] *)

Lemma on_board_cell_of (h : Position) : on_board h -> on_board (cell_of h).
Proof. unfold on_board, cell_of. simpl. lia. Qed.

Lemma times_highlighted_cons (h : Position) (hs : list Position) (c : Position) :
  times_highlighted (h :: hs) c =
    if decide (cell_of h = c) then S (times_highlighted hs c)
    else times_highlighted hs c.
Proof.
  unfold times_highlighted. rewrite filter_cons.
  destruct (decide (cell_of h = c)); reflexivity.
Qed.

(** The loop over positions of the board never fails, and overwrites a cell
    once for each time it is highlighted. *)
Lemma highlight_from (hs : list Position) :
  forall res0 : gmap (Z * Z) Z,
    Forall on_board hs ->
    exists res, highlight hs res0 = Some res /\
      forall c, colour_at res c =
                Nat.iter (times_highlighted hs c) recolour (colour_at res0 c).
Proof.
  induction hs as [|h hs IH]; intros res0 Hon; simpl.
  - exists res0. split; reflexivity.
  - apply Forall_cons in Hon as [Hh Hon].
    rewrite (np_index2_on_board _ (on_board_cell_of h Hh)).
    destruct (IH (<[cell_of h := recolour (colour_at res0 (cell_of h))]> res0) Hon)
      as (res & Hrun & Hcol).
    exists res. split; [exact Hrun|]. intros c.
    rewrite Hcol, times_highlighted_cons. unfold colour_at at 1.
    rewrite lookup_insert. destruct (decide (cell_of h = c)) as [->|Hne].
    + simpl default. rewrite Nat.iter_succ_r. reflexivity.
    + reflexivity.
Qed.

(** X22. The colour codes of [plot_chessboard] for highlighted positions
    of the board: the loop never fails; a field that is not highlighted
    keeps its code (0 white, 1 black), a field highlighted once gets the
    highlighted code of its own colour (2 or 3), and a field highlighted
    more than once gets code 3, the highlighted black, whatever its
    colour. *)
Theorem highlight_colour_codes (hs : list Position) :
  Forall on_board hs ->
  exists res, highlight hs ∅ = Some res /\
    forall c, colour_at res c =
      match times_highlighted hs c with
      | O => base_colour c
      | S O => base_colour c + 2
      | _ => 3
      end.
Proof.
  intros Hon. destruct (highlight_from hs ∅ Hon) as (res & Hrun & Hcol).
  exists res. split; [exact Hrun|]. intros c. rewrite Hcol.
  assert (Hbase : colour_at ∅ c = base_colour c)
    by (unfold colour_at; rewrite lookup_empty; reflexivity).
  rewrite Hbase.
  assert (Hb : base_colour c = 0 \/ base_colour c = 1).
  { unfold base_colour. pose proof (Z.mod_pos_bound (c.1 + c.2) 2). lia. }
  destruct (times_highlighted hs c) as [|[|n]]; [reflexivity| |].
  - simpl. unfold recolour. destruct Hb as [-> | ->]; reflexivity.
  - induction n as [|n IHn].
    + simpl. unfold recolour. destruct Hb as [-> | ->]; reflexivity.
    + rewrite Nat.iter_succ, IHn. reflexivity.
Qed.

(** ** A board made from a grid *)

Section FromGrid.
Context `{Misc} `{Pieces}.

(** X23. [Board(board)] copies the grid and starts with an empty piece
    map: the grid and the piece map agree only if the grid is empty, no
    square can be removed ([KeyError]), and a square of the board that the
    grid fills cannot be placed on ([ValueError]). *)
Theorem board_from_grid_has_no_pieces (g : Grid) (h : ref -> Piece) (n : ref) :
  let w := mkWorld (board_init (Some g)) h n in
  (dual_repr (brd w) <-> g = ∅) /\
  (forall pos, remove pos w = (Raise KeyError, w)) /\
  (forall pos val, on_board (chess_to_coord pos) ->
     g !! chess_to_coord pos <> None ->
     __setitem__ pos val w = (Raise ValueError, w)).
Proof.
  intros w. split; [|split].
  - split.
    + intros [Hag _]. apply map_empty. intros pos. exact (Hag pos).
    + intros ->. exact dual_repr_new_board.
  - intros pos. apply remove_absent. reflexivity.
  - intros pos val Hon Hg. apply setitem_occupied; [exact Hon|].
    left. exact Hg.
Qed.

End FromGrid.

(** * More of the code on concrete boards *)

Lemma store_ok_by_entries (w : World) :
  Forall (fun e => position (heap w e.2) = e.1 /\ (e.2 < next_ref w)%nat)
         (_pieces (brd w)) ->
  store_ok w.
Proof.
  rewrite Forall_forall. intros Hall. split.
  - intros pos r Hg. apply dict_get_Some_elem in Hg. exact (proj1 (Hall _ Hg)).
  - intros pos r Hg. apply dict_get_Some_elem in Hg. exact (proj2 (Hall _ Hg)).
Qed.

Lemma new_board_free (pos : Position) : ~ occupied new_board pos.
Proof. intros [Ho|Ho]; apply Ho; [apply lookup_empty | reflexivity]. Qed.

Module Runs.
Import SpecModel Boards MoreBoards.

(** ** Squares *)

(** X1 on the board with a pawn on e4: removing e4 empties the square and
    leaves the rest alone. *)
Lemma remove_witness :
  exists w', remove (4, 4) one_pawn = (Ok tt, w') /\
    board (brd w') !! (4, 4) = None /\
    dict_get (_pieces (brd w')) (4, 4) = None /\
    (forall pos', pos' <> (4, 4) ->
       board (brd w') !! pos' = board (brd one_pawn) !! pos' /\
       dict_get (_pieces (brd w')) pos' = dict_get (_pieces (brd one_pawn)) pos') /\
    kings (brd w') = kings (brd one_pawn) /\
    en_passant (brd w') = en_passant (brd one_pawn) /\
    heap w' = heap one_pawn.
Proof.
  refine (proj2 (remove_empties_one_square one_pawn (4, 4) _) _).
  - check_dual_repr.
  - vm_compute. discriminate.
Defined.

(** X2 on the same board: the knight is put on d4 and taken off again. *)
Lemma place_and_remove_witness :
  (__setitem__ (Alg "d" 4) 1%nat ;;; remove (chess_to_coord (Alg "d" 4))) one_pawn
  = (Ok tt, one_pawn).
Proof.
  apply (setitem_then_remove_restores one_pawn (Alg "d" 4) 1%nat).
  - check_entries.
  - check_entries.
Defined.

(** X3 on the same board: d4 reads as the knight after the placement. *)
Lemma read_back_witness :
  exists w', __setitem__ (Alg "d" 4) 1%nat one_pawn = (Ok tt, w') /\
    __getitem__ (Alg "d" 4) w' = (Ok (Some 1%nat), w') /\
    forall pos', on_board (chess_to_coord pos') ->
      chess_to_coord pos' <> chess_to_coord (Alg "d" 4) ->
      __getitem__ pos' w' = ((__getitem__ pos' one_pawn).1, w').
Proof.
  apply (getitem_reads_what_setitem_wrote one_pawn (Alg "d" 4) 1%nat).
  - check_entries.
  - check_entries.
Defined.

(** X4: destroying the knight whose [position] names e4 takes the pawn off
    e4 and marks the knight. *)
Lemma destroy_witness :
  exists w', destroy 1%nat stale_position = (Ok tt, w') /\
    dict_get (_pieces (brd w')) (position (heap stale_position 1%nat)) = None /\
    board (brd w') !! position (heap stale_position 1%nat) = None /\
    alive (heap w' 1%nat) = false /\
    (0%nat <> 1%nat -> heap w' 0%nat = heap stale_position 0%nat).
Proof.
  refine (proj2 (destroy_goes_by_the_position_attribute stale_position 1%nat _)
                0%nat _).
  - check_dual_repr.
  - vm_compute. reflexivity.
Defined.

(** ** Moves *)

(** X5: the rook on e4 is moved to e4. *)
Lemma own_square_witness :
  exists w', move 0%nat (Alg "e" 4) rook_takes = (Raise KeyError, w') /\
    alive (heap w' 0%nat) = false /\
    dict_get (_pieces (brd w')) (position (heap rook_takes 0%nat)) = None /\
    board (brd w') !! position (heap rook_takes 0%nat) = None /\
    en_passant (brd w') = (None, None).
Proof.
  apply (move_onto_own_square_destroys_the_piece rook_takes 0%nat (Alg "e" 4)).
  - vm_compute. discriminate.
  - check_dual_repr.
  - vm_compute. reflexivity.
  - vm_compute. reflexivity.
Defined.

(** X6: the pawn alone on d2 advances to d3. *)
Lemma quiet_move_witness :
  exists w', move 0%nat (Alg "d" 3) lone_pawn = (Ok tt, w') /\
    _pieces (brd w') =
      dict_del (_pieces (brd lone_pawn)) (position (heap lone_pawn 0%nat))
      ++ [(to_coord (Alg "d" 3), 0%nat)] /\
    heap w' = heap_upd (heap lone_pawn) 0%nat
                (piece_set_position (to_coord (Alg "d" 3)) (heap lone_pawn 0%nat)) /\
    kings (brd w') = kings (brd lone_pawn) /\
    forall pos, pos <> position (heap lone_pawn 0%nat) ->
      pos <> to_coord (Alg "d" 3) ->
      board (brd w') !! pos = board (brd lone_pawn) !! pos.
Proof.
  apply (move_to_empty_square_completes lone_pawn 0%nat (Alg "d" 3)).
  - check_dual_repr.
  - reflexivity.
  - check_entries.
  - vm_compute. reflexivity.
  - vm_compute. reflexivity.
  - intros _. split; vm_compute; discriminate.
Defined.

(** X7: on [board4] with the white pawn removed, the black pawn's move to
    the recorded square d3 raises. *)
Lemma missing_pawn_witness :
  move 2%nat (Alg "d" 3) board4_pawn_removed = (Raise KeyError, board4_pawn_removed).
Proof.
  apply (en_passant_capture_of_missing_pawn_raises
           board4_pawn_removed 2%nat 3%nat (Alg "d" 3)).
  - vm_compute. reflexivity.
  - vm_compute. reflexivity.
  - vm_compute. reflexivity.
Defined.

(** X8: removing the black king from c5 leaves [kings] as it was. *)
Lemma kings_witness :
  kings (brd (remove (2, 3) board4_placed).2) = kings (brd board4_placed).
Proof.
  apply (kings_change_only_in_place_king (MRemove (2, 3)) board4_placed
           (remove (2, 3) board4_placed).1).
  - intros c t. discriminate.
  - apply surjective_pairing.
Defined.

(** X9 for the advance d2-d4 of [board4]. *)
Lemma store_witness : store_ok board4.
Proof.
  apply (mutations_keep_pieces_on_their_squares
           (MMove 3%nat (Alg "d" 4)) board4_placed (Ok tt) board4).
  - apply store_ok_by_entries. check_entries.
  - split; [reflexivity | check_entries].
  - vm_compute. reflexivity.
Defined.

(** X10: a second black king, placed on e8, leaves the first on c5. *)
Lemma second_king_witness :
  (forall k r, dict_get (_pieces (brd board4_placed)) k = Some r ->
     dict_get (_pieces (brd (place_king (Alg "e" 8) Black board4_placed).2)) k
     = Some r) /\
  (forall k r, board (brd board4_placed) !! k = Some r ->
     board (brd (place_king (Alg "e" 8) Black board4_placed).2) !! k = Some r).
Proof.
  apply (placements_never_overwrite (MPlaceKing (Alg "e" 8) Black) board4_placed
           (place_king (Alg "e" 8) Black board4_placed).1).
  - intros pos. discriminate.
  - intros p dst. discriminate.
  - apply surjective_pairing.
Defined.

(** ** Checks *)

(** X12 on the board of the double check, for the black king. *)
Lemma is_check_witness :
  (exists b, is_check double_check Black None = Ok b) /\
  (is_check double_check Black None = Ok true <->
   exists pos r, (pos, r) ∈ _pieces (brd double_check) /\
     team (heap double_check r) = team_inv Black /\
     position (heap double_check 0%nat) ∈
       danger_zone (heap double_check) (heap double_check r)
         (_pieces (brd double_check))).
Proof.
  apply (proj2 (is_check_meaning double_check Black) 0%nat).
  vm_compute. reflexivity.
Defined.

(** X13 on the board of the discovered check: one attacker. *)
Lemma attackers_found_witness :
  let l := result_of [] (get_attackers discovered_check Black) in
  let ph := phantoms discovered_check Black (position (heap discovered_check 0%nat)) in
  (forall r s, (r, s) ∈ l ->
     exists pos, (pos, r) ∈ _pieces (brd discovered_check) /\
       team (heap discovered_check r) <> Black /\
       kind (heap discovered_check r) <> King /\
       in_zone ph (kind (heap discovered_check r)) pos) /\
  ((length l < 2)%nat ->
     forall pos r, (pos, r) ∈ _pieces (brd discovered_check) ->
       team (heap discovered_check r) <> Black ->
       in_zone ph (kind (heap discovered_check r)) pos -> exists s, (r, s) ∈ l) /\
  (l = [] <->
     forall pos r, (pos, r) ∈ _pieces (brd discovered_check) ->
       team (heap discovered_check r) <> Black ->
       ~ in_zone ph (kind (heap discovered_check r)) pos).
Proof.
  apply (get_attackers_finds_the_attackers discovered_check Black 0%nat).
  - vm_compute. reflexivity.
  - vm_compute. reflexivity.
Defined.

(** ** Legal moves *)

(** X14: with the black king taken off the board, [legal_moves] raises. *)
Lemma king_off_board_witness : legal_moves king_removed Black = Raise KeyError.
Proof.
  refine (proj2 (proj2 (legal_moves_returns_or_raises king_removed Black)
                       0%nat _) _).
  - vm_compute. reflexivity.
  - intros [(r & Hin & _) _]. vm_compute in Hin.
    repeat (apply elem_of_cons in Hin as [Hin|Hin]; [congruence|]).
    apply elem_of_nil in Hin. exact Hin.
Defined.

(** X15 on the board of the discovered check, for d4. *)
Lemma teams_squares_witness :
  dict_get (result_of [] (legal_moves discovered_check Black)) (3, 4) <> None <->
  exists r, ((3, 4), r) ∈ _pieces (brd discovered_check) /\
            team (heap discovered_check r) = Black.
Proof.
  apply (legal_moves_has_the_teams_squares discovered_check Black).
  vm_compute. reflexivity.
Defined.

(** X16 on the same board, for the pawn on d4. *)
Lemma within_get_moves_witness :
  exists r, dict_get (_pieces (brd discovered_check)) (3, 4) = Some r /\
    team (heap discovered_check r) = Black /\
    ({[(3, 5); (2, 5)]} : PosSet) ⊆
      get_moves (heap discovered_check) (heap discovered_check r)
        (_pieces (brd discovered_check)) (en_passant (brd discovered_check)).1
      ∪ en_passant_added discovered_check (3, 4).
Proof.
  apply (legal_moves_within_get_moves discovered_check Black
           (result_of [] (legal_moves discovered_check Black)) (3, 4)).
  - check_entries.
  - vm_compute. reflexivity.
  - vm_compute. reflexivity.
Defined.

(** X17 on [board2]: the white rook on h7 is pinned by the rook on h8. *)
Lemma pin_witness :
  exists s,
    dict_get (result_of [] (legal_moves pin_example White))
             (position (heap pin_example 4%nat)) = Some s /\
    s ⊆ h_file_pin ∪ en_passant_added pin_example (position (heap pin_example 4%nat)) /\
    (@nil (ref * PosSet) = [] -> s ⊆ h_file_pin).
Proof.
  apply (legal_moves_keeps_pins pin_example White
           (result_of [] (legal_moves pin_example White)) 1%nat 4%nat h_file_pin []).
  - vm_compute. reflexivity.
  - vm_compute. reflexivity.
  - vm_compute. reflexivity.
  - check_entries.
  - vm_compute. discriminate.
Defined.

(** X18 on [board3], for White. *)
Lemma quiet_position_witness :
  exists pm, legal_moves en_passant_example White = Ok pm /\
    forall pos,
      dict_get pm pos =
        match dict_get (_pieces (brd en_passant_example)) pos with
        | Some r =>
            if decide (team (heap en_passant_example r) = White)
            then
              let moves :=
                get_moves (heap en_passant_example) (heap en_passant_example r)
                  (_pieces (brd en_passant_example))
                  (en_passant (brd en_passant_example)).1 in
              Some (if decide (pos = position (heap en_passant_example 1%nat))
                    then moves ∖ get_danger_zone en_passant_example (team_inv White)
                    else moves)
            else None
        | None => None
        end.
Proof.
  apply (legal_moves_of_a_quiet_position en_passant_example White 1%nat).
  - check_entries.
  - vm_compute. reflexivity.
  - exists 1%nat. split; vm_compute; reflexivity.
  - vm_compute. reflexivity.
  - vm_compute. reflexivity.
Defined.

(** ** Scripts *)

(** X19 for [board1] on an empty board. *)
Lemma board1_witness :
  board1 empty_world = get_pieces (placed_all empty_world board1_placements) /\
  _pieces (brd (placed_all empty_world board1_placements)) =
    _pieces (brd empty_world) ++ new_entries (next_ref empty_world) board1_placements /\
  dual_repr (brd (placed_all empty_world board1_placements)).
Proof.
  assert (E : board1 = run_all board1_placements get_pieces) by reflexivity.
  rewrite E.
  refine (placements_run_in_order board1_placements get_pieces empty_world _ _ _ _).
  - exact dual_repr_new_board.
  - check_entries.
  - check_entries.
  - check_entries.
Defined.

(** X20: the placements of [init_board] on the position of [board3], where
    d7 is taken: the eighth placement raises, after seven pawns have been
    placed. *)
Lemma collision_witness :
  exists w',
    run_all init_board_placements get_pieces en_passant_example
    = (Raise ValueError, w') /\
    brd w' = brd (placed_all en_passant_example (take 7 init_board_placements)).
Proof.
  refine (placement_collision_stops_the_script
            (take 7 init_board_placements) (drop 8 init_board_placements)
            (PutPiece (Alg "d" 7) Pawn Black) get_pieces en_passant_example
            _ _ _ _ _).
  - check_dual_repr.
  - check_entries.
  - check_entries.
  - check_entries.
  - right. check_entries.
Defined.

(** X21 on an empty board. *)
Lemma init_board_witness :
  exists w',
    init_board empty_world =
      (Ok (_pieces (brd empty_world)
           ++ new_entries (next_ref empty_world) init_board_placements), w') /\
    length (new_entries (next_ref empty_world) init_board_placements) = 37%nat /\
    kings (brd w') White = Some (23 + next_ref empty_world)%nat /\
    kings (brd w') Black = Some (31 + next_ref empty_world)%nat /\
    dual_repr (brd w').
Proof.
  apply (init_board_sets_up_the_position empty_world).
  - exact dual_repr_new_board.
  - check_entries.
  - check_entries.
  - check_entries.
Defined.

(** ** Highlighted fields *)

(** X22: a1 highlighted twice, b1 and e4 once. *)
Lemma highlight_witness :
  exists res, highlight [(0, 7); (0, 7); (1, 7); (4, 4)] ∅ = Some res /\
    forall c, colour_at res c =
      match times_highlighted [(0, 7); (0, 7); (1, 7); (4, 4)] c with
      | O => base_colour c
      | S O => base_colour c + 2
      | _ => 3
      end.
Proof.
  apply (highlight_colour_codes [(0, 7); (0, 7); (1, 7); (4, 4)]).
  check_entries.
Defined.

End Runs.
